(** * C-2DMatrix: a dense row-major matrix of doubles ([matrix.h])

    A shallow embedding of the header-only library [matrix.h] and the
    verification of its routines: allocation, release and copies, cell
    access, fills, scalar operations and maps, printing, element-wise
    addition and subtraction, multiplication and in-place transposition.

    Conventions of the embedding.
    - [size_t] and [uint64_t] are 64-bit unsigned integers (LP64): values
      are [Z] numbers and every arithmetic result is reduced modulo [2^64]
      where the C code would wrap.  [int] is 32-bit two's complement.
    - A [double*] is either [NULL] ([None]) or the address of a block of
      doubles ([Some p]); the blocks live in a heap, a finite map from
      addresses to lists of cells.  Two matrices alias when they hold the
      same address.
    - A C function becomes a state transformer over the heap whose outcome
      is a normal return, a failed [assert] (the program aborts), undefined
      behaviour (access outside a block, use of a dangling or null pointer,
      an over-wide shift, division by zero), or exhaustion of the fuel that
      bounds each run of a [while] or [do]-[while] loop: a run takes fewer
      iterations than the fuel it starts with, and a loop started inside
      another starts with what is left of the outer loop's fuel.
    - The stack is a resource: a call has [stack_left] bytes of it for its
      variable-length array, and an array that does not fit is undefined
      behaviour (the process is killed; C offers no way to detect it).
    - The element type and its arithmetic are an interface ([Double]);
      its instance is IEEE-754 binary64, round to nearest even (the
      kernel's primitive floats).  What the C library provides ([malloc]'s verdict,
      [RAND_MAX], the rendering of [%f]) is an interface too ([Libc]), as
      are [calloc]'s verdict ([Calloc]) and [pow] ([Libm]). *)

From Stdlib Require Import ZArith QArith Lia String Ascii DecimalString.
From Stdlib Require Import Floats.PrimFloat Floats.SpecFloat Floats.FloatOps.
From Stdlib Require Import Numbers.Cyclic.Int63.Uint63.
From stdpp Require Import gmap list numbers.

Local Open Scope Z_scope.

(** ** Machine integers *)

Definition SIZE_MAX : Z := 2 ^ 64 - 1.

(** Conversion to [size_t]: unsigned arithmetic wraps modulo [2^64]. *)
Definition to_size_t (z : Z) : Z := z mod 2 ^ 64.

(** Conversion to [uint64_t]. *)
Definition to_uint64 (z : Z) : Z := z mod 2 ^ 64.

(** Conversion to [int]: the value is reduced modulo [2^32] into
    [-2^31 .. 2^31 - 1] (what gcc and clang define for out-of-range values). *)
Definition to_int (z : Z) : Z := (z + 2 ^ 31) mod 2 ^ 32 - 2 ^ 31.

(** ** Outcomes and the state monad of C functions *)

Inductive outcome (A : Type) : Type :=
| Returns (a : A)   (* the call returns *)
| Aborts            (* an [assert] failed *)
| Undefined         (* undefined behaviour *)
| OutOfFuel.        (* the loop was still running when the fuel ran out *)

Arguments Returns {A} a.
Arguments Aborts {A}.
Arguments Undefined {A}.
Arguments OutOfFuel {A}.

Definition M (S A : Type) : Type := S → outcome (A * S).

Definition ret {S A : Type} (a : A) : M S A := λ s, Returns (a, s).

Definition bind {S A B : Type} (c : M S A) (k : A → M S B) : M S B :=
  λ s, match c s with
       | Returns (a, s') => k a s'
       | Aborts => Aborts
       | Undefined => Undefined
       | OutOfFuel => OutOfFuel
       end.

Notation "'let*' x := c1 'in' c2" := (bind c1 (λ x, c2))
  (at level 10, x name, c1 at level 100, c2 at level 200,
   format "'[' 'let*'  x  :=  c1  'in'  '/' c2 ']'").
Notation "c1 ;; c2" := (bind c1 (λ _, c2))
  (at level 100, c2 at level 200, right associativity,
   format "'[' c1  ;;  '/' c2 ']'").

(** [assert(b)] *)
Definition c_assert {S : Type} (b : bool) : M S unit :=
  λ s, if b then Returns (tt, s) else Aborts.

Definition out_of_fuel {S A : Type} : M S A := λ _, OutOfFuel.

(** An operation whose C counterpart is undefined where the model has [None]. *)
Definition defined {S A : Type} (o : option A) : M S A :=
  λ s, match o with Some a => Returns (a, s) | None => Undefined end.

(** [for (size_t i = lo; i < hi; ++i) body(i)], the body leaving [i] and
    [hi] alone: [hi - lo] iterations, none when [hi <= lo]. *)
Fixpoint for_loop {S : Type} (n : nat) (i : Z) (body : Z → M S unit) : M S unit :=
  match n with
  | O => ret tt
  | S n' => body i ;; for_loop n' (i + 1) body
  end.

Definition for_range {S : Type} (lo hi : Z) (body : Z → M S unit) : M S unit :=
  for_loop (Z.to_nat (hi - lo)) lo body.

(** The same loop threading a local variable through its iterations. *)
Fixpoint for_fold {S A : Type} (n : nat) (i : Z) (body : Z → A → M S A) (acc : A) : M S A :=
  match n with
  | O => ret acc
  | S n' => let* acc' := body i acc in for_fold n' (i + 1) body acc'
  end.

Definition for_range_fold {S A : Type} (lo hi : Z) (body : Z → A → M S A) (acc : A) : M S A :=
  for_fold (Z.to_nat (hi - lo)) lo body acc.

(** ** The heap *)

Abbreviation heap D := (gmap positive (list D)).

(** [ptr[i]] as an rvalue. *)
Definition load {D : Type} (ptr : option positive) (i : Z) : M (heap D) D :=
  λ h, match ptr with
       | None => Undefined
       | Some p =>
           match h !! p with
           | None => Undefined
           | Some block =>
               match block !! Z.to_nat i with
               | Some v => Returns (v, h)
               | None => Undefined
               end
           end
       end.

(** [ptr[i] = v] *)
Definition store {D : Type} (ptr : option positive) (i : Z) (v : D) : M (heap D) unit :=
  λ h, match ptr with
       | None => Undefined
       | Some p =>
           match h !! p with
           | None => Undefined
           | Some block =>
               if decide (Z.to_nat i < length block)%nat
               then Returns (tt, <[p := <[Z.to_nat i := v]> block]> h)
               else Undefined
           end
       end.

(** [free(ptr)] of a live block; anything else is undefined behaviour
    ([matrix_del] never passes [NULL]). *)
Definition free {D : Type} (ptr : option positive) : M (heap D) unit :=
  λ h, match ptr with
       | None => Undefined
       | Some p =>
           match h !! p with
           | None => Undefined
           | Some _ => Returns (tt, delete p h)
           end
       end.

(** ** The element type and the C library *)

(** Arithmetic of [double]. *)
Class Double (D : Type) : Type := {
  d_zero : D;                 (* 0.0 *)
  d_add : D → D → D;
  d_sub : D → D → D;
  d_mul : D → D → D;
  d_div : D → D → D;
  d_of_int : Z → D;           (* (double)n for an int n *)
  d_ltb : D → D → bool;       (* x < y *)
}.

(** ['\n'] *)
Definition newline : ascii := "010"%char.

(** What [stdlib.h] and [stdio.h] provide. *)
Class Libc (D : Type) : Type := {
  RAND_MAX : Z;
  (* the characters [fprintf] writes for the conversion [%f] *)
  fprintf_f : D → list ascii;
  (* whether [malloc] returns [NULL] for a request of so many bytes *)
  malloc_fails : heap D → Z → bool;
  (* the indeterminate content of a fresh block *)
  indeterminate : D;
}.

(** [malloc(bytes)] for an array of doubles ([sizeof(double) = 8]): on
    success, a block at an address not in use. *)
Definition malloc {D : Type} `{!Libc D} (bytes : Z) : M (heap D) (option positive) :=
  λ h, if malloc_fails h bytes then Returns (None, h)
       else let p := fresh (dom h) in
            Returns (Some p, <[p := replicate (Z.to_nat (bytes / 8)) indeterminate]> h).

(** The stack: the bytes left, in the call at hand, for automatic
    storage of variable length. *)
Class Stack : Type := {
  stack_left : Z;
}.

(** A variable-length array of so many bytes in automatic storage, as in
    [uint64_t bitset[bitset_sz]]: where the stack has no room for it the
    behaviour is undefined. *)
Definition stack_array {S : Type} `{stack : !Stack} (bytes : Z) : M S unit :=
  λ s, if bytes <=? stack_left then Returns (tt, s) else Undefined.

(** ** The matrix *)

Record matrix : Type := {
  height : Z;                  (* size_t height *)
  width : Z;                   (* size_t width *)
  values : option positive;    (* double* values *)
}.

Definition is_null (ptr : option positive) : bool :=
  match ptr with None => true | Some _ => false end.

Definition matrix_len (m : matrix) : Z := to_size_t (height m * width m).

Section Operations.
Context {D : Type}.

Definition matrix_get (m : matrix) (row col : Z) : M (heap D) D :=
  c_assert (negb (is_null (values m))) ;;
  c_assert (row <? height m) ;;
  c_assert (col <? width m) ;;
  load (values m) (to_size_t (row * width m + col)).

Definition matrix_set (m : matrix) (row col : Z) (value : D) : M (heap D) unit :=
  c_assert (negb (is_null (values m))) ;;
  c_assert (row <? height m) ;;
  c_assert (col <? width m) ;;
  store (values m) (to_size_t (row * width m + col)) value.

Definition matrix_del (m : matrix) : M (heap D) matrix :=
  c_assert (negb (is_null (values m))) ;;
  c_assert (negb (is_null (values m))) ;;
  free (values m) ;;
  ret {| height := height m; width := width m; values := None |}.

Context `{!Libc D}.

Definition matrix_new (height width : Z) : M (heap D) matrix :=
  let* p := malloc (to_size_t (to_size_t (8 * height) * width)) in
  c_assert (negb (is_null p)) ;;
  ret {| height := height; width := width; values := p |}.

(** The sink is the sequence of characters written so far. *)
Definition matrix_print (m : matrix) (sink : list ascii) : M (heap D) (list ascii) :=
  c_assert (negb (is_null (values m))) ;;
  for_range_fold 0 (height m) (λ row sink,
    let* sink := for_range_fold 0 (width m) (λ col sink,
                   let* v := matrix_get m row col in
                   ret (sink ++ fprintf_f v ++ [" "%char])) sink in
    ret (sink ++ [newline])) sink.

Context `{!Double D}.

(** [rand k] is the value returned by the [k]-th call of [rand()] made by
    the function, counting from 0. *)
Definition matrix_fill_uniform (rand : nat → Z) (m : matrix) (a b : D) : M (heap D) unit :=
  c_assert (d_ltb a b) ;;
  let len := d_sub b a in
  let end_ := matrix_len m in
  for_range 0 end_ (λ i,
    let r := d_div (d_of_int (rand (Z.to_nat i))) (d_of_int RAND_MAX) in
    store (values m) i (d_add a (d_mul r len))).

Definition matrix_new_uniform (rand : nat → Z) (height width : Z) (a b : D) : M (heap D) matrix :=
  let* m := matrix_new height width in
  matrix_fill_uniform rand m a b ;;
  ret m.

Definition matrix_add (a b : matrix) : M (heap D) unit :=
  c_assert (negb (is_null (values a))) ;;
  c_assert (negb (is_null (values b))) ;;
  c_assert (height a =? height b) ;;
  c_assert (width a =? width b) ;;
  let end_ := matrix_len a in
  for_range 0 end_ (λ i,
    let* x := load (values a) i in
    let* y := load (values b) i in
    store (values a) i (d_add x y)).

Definition matrix_sub (a b : matrix) : M (heap D) unit :=
  c_assert (negb (is_null (values a))) ;;
  c_assert (negb (is_null (values b))) ;;
  c_assert (height a =? height b) ;;
  c_assert (width a =? width b) ;;
  let end_ := matrix_len a in
  for_range 0 end_ (λ i,
    let* x := load (values a) i in
    let* y := load (values b) i in
    store (values a) i (d_sub x y)).

Definition matrix_matmul_into (a b dest : matrix) : M (heap D) unit :=
  c_assert (negb (is_null (values a))) ;;
  c_assert (negb (is_null (values b))) ;;
  c_assert (negb (is_null (values dest))) ;;
  c_assert (width a =? height b) ;;
  c_assert (height dest =? height a) ;;
  c_assert (width dest =? width b) ;;
  let common_len := width a in
  for_range 0 (height dest) (λ row,
    for_range 0 (width dest) (λ col,
      let field := to_size_t (row * width dest + col) in
      store (values dest) field d_zero ;;
      for_range 0 common_len (λ i,
        let* acc := load (values dest) field in
        let* x := matrix_get a row i in
        let* y := matrix_get b i col in
        store (values dest) field (d_add acc (d_mul x y))))).

Definition matrix_matmul (a b : matrix) : M (heap D) matrix :=
  c_assert (negb (is_null (values a))) ;;
  c_assert (negb (is_null (values b))) ;;
  c_assert (width a =? height b) ;;
  let* multiplied := matrix_new (height a) (width b) in
  matrix_matmul_into a b multiplied ;;
  ret multiplied.

End Operations.

(** ** In-place transposition *)

(** *** Bit sets *)

(** [number | ((uint64_t)1 << idx)]; shifting a 64-bit value by 64 or more
    is undefined. *)
Definition matrix__set_bit (number idx : Z) : option Z :=
  if idx <? 64 then Some (Z.lor number (to_uint64 (Z.shiftl 1 idx))) else None.

(** [(number & ((uint64_t)1 << idx)) != 0] *)
Definition matrix__has_bit (number idx : Z) : option bool :=
  if idx <? 64 then Some (negb (Z.land number (to_uint64 (Z.shiftl 1 idx)) =? 0)) else None.

(** [bitset[h] |= ((uint64_t)1 << l)] with [h = idx / 64], [l = idx % 64]:
    the array is the function's local (variable-length) array, and the
    function "does not check bounds". *)
Definition matrix__bitset_set (bitset : list Z) (idx : Z) : option (list Z) :=
  let h := idx / 64 in
  let l := idx mod 64 in
  match bitset !! Z.to_nat h with
  | Some word => Some (<[Z.to_nat h := Z.lor word (to_uint64 (Z.shiftl 1 l))]> bitset)
  | None => None
  end.

(** [(bitset[h] & ((uint64_t)1 << l)) != 0] *)
Definition matrix__bitset_has (bitset : list Z) (idx : Z) : option bool :=
  let h := idx / 64 in
  let l := idx mod 64 in
  match bitset !! Z.to_nat h with
  | Some word => Some (negb (Z.land word (to_uint64 (Z.shiftl 1 l)) =? 0))
  | None => None
  end.

(** [a % b] on [size_t]; undefined for [b = 0]. *)
Definition c_mod (a b : Z) : option Z :=
  if b =? 0 then None else Some (a mod b).

(** *** The cycle-following loops

    [matrix__transpose_rectangle] and [matrix__transpose_small_rectangle]
    run the same three loops and differ in the set that records the
    indices already moved: an array of words for the former, one word for
    the latter.  The loops are written once, over the two operations of
    the set. *)

Section Cycles.
Context {D B : Type}.
Variable set_bit : B → Z → option B.
Variable has_bit : B → Z → option bool.

(** The [do { ... } while (i != cycle_begin)] loop: [values] and [height]
    are [m->values] and [m->height]; the result is the set. *)
Fixpoint follow_cycle (fuel : nat) (values : option positive) (height size cycle_begin : Z)
    (i : Z) (temp : D) (set : B) : M (heap D) B :=
  match fuel with
  | O => out_of_fuel
  | S fuel' =>
      let* next := defined (c_mod (to_size_t (i * height)) size) in
      let* swap_temp := load values next in
      store values next temp ;;
      let temp := swap_temp in
      let* set := defined (set_bit set i) in
      let i := next in
      if negb (i =? cycle_begin)
      then follow_cycle fuel' values height size cycle_begin i temp set
      else ret set
  end.

(** [for (i = 1; i < size && has(set, i); ++i);], started at [i]. *)
Fixpoint next_cycle (fuel : nat) (size : Z) (set : B) (i : Z) : M (heap D) Z :=
  match fuel with
  | O => out_of_fuel
  | S fuel' =>
      if i <? size then
        let* marked := defined (has_bit set i) in
        if marked then next_cycle fuel' size set (to_size_t (i + 1)) else ret i
      else ret i
  end.

(** The [while (i < size) { ... }] loop. *)
Fixpoint transpose_cycles (fuel : nat) (values : option positive) (height size : Z)
    (i : Z) (set : B) : M (heap D) unit :=
  match fuel with
  | O => out_of_fuel
  | S fuel' =>
      if i <? size then
        let cycle_begin := i in
        let* temp := load values i in
        let* set := follow_cycle fuel' values height size cycle_begin i temp set in
        let* i := next_cycle fuel' size set 1 in
        transpose_cycles fuel' values height size i set
      else ret tt
  end.

End Cycles.

Section Transpose.
Context {D : Type} `{stack : !Stack}.

(** The bit set is an array of [bitset_sz] words of 8 bytes on the stack,
    zeroed by [memset]. *)
Definition matrix__transpose_rectangle (fuel : nat) (m : matrix) : M (heap D) matrix :=
  let size := to_size_t (matrix_len m - 1) in
  let bitset_sz := to_size_t (size / 64 + 1) in
  stack_array (8 * bitset_sz) ;;
  let bitset := replicate (Z.to_nat bitset_sz) 0 in
  transpose_cycles matrix__bitset_set matrix__bitset_has
    fuel (values m) (height m) size 1 bitset ;;
  ret {| height := width m; width := height m; values := values m |}.

Definition matrix__transpose_small_rectangle (fuel : nat) (m : matrix) : M (heap D) matrix :=
  let swapped_set := 0 in
  let size := to_size_t (matrix_len m - 1) in
  c_assert (size <? 64) ;;
  let* swapped_set := defined (matrix__set_bit swapped_set 0) in
  let* swapped_set := defined (matrix__set_bit swapped_set size) in
  transpose_cycles matrix__set_bit matrix__has_bit
    fuel (values m) (height m) size 1 swapped_set ;;
  ret {| height := width m; width := height m; values := values m |}.

Definition matrix__transpose_square (m : matrix) : M (heap D) matrix :=
  c_assert (width m =? height m) ;;
  for_range 0 (to_size_t (height m - 1)) (λ i,
    for_range (to_size_t (i + 1)) (height m) (λ j,
      let* temp := matrix_get m i j in
      let* other := matrix_get m j i in
      matrix_set m i j other ;;
      matrix_set m j i temp)) ;;
  ret m.

(** The swap goes through [int temp]. *)
Definition matrix__transpose_single_col_or_row (m : matrix) : M (heap D) matrix :=
  c_assert ((width m =? 1) || (height m =? 1)) ;;
  let temp := to_int (height m) in
  ret {| height := width m; width := to_size_t temp; values := values m |}.

Definition matrix_transpose (fuel : nat) (m : matrix) : M (heap D) matrix :=
  c_assert (negb (is_null (values m))) ;;
  if (width m =? 1) || (height m =? 1) then
    matrix__transpose_single_col_or_row m
  else if width m =? height m then
    matrix__transpose_square m
  else if matrix_len m <=? 64 then
    matrix__transpose_small_rectangle fuel m
  else
    matrix__transpose_rectangle fuel m.

End Transpose.

(** ** Zeroed and filled allocation, copies, scalar operations and maps *)

(** What [calloc] decides beyond the check of its arguments. *)
Class Calloc (D : Type) : Type := {
  (* whether [calloc] returns [NULL] for so many members of so many bytes *)
  calloc_fails : heap D → Z → Z → bool;
}.

(** [pow] of [math.h]. *)
Class Libm (D : Type) : Type := {
  d_pow : D → D → D;
}.

Section MoreOperations.
Context {D : Type}.

(** [calloc(nmemb, size)] for an array of doubles: [NULL] when the product
    [nmemb * size] does not fit [size_t]; on success a block at an address
    not in use whose bytes are all zero, which a [double] reads as [0.0]. *)
Definition calloc `{!Double D} `{!Calloc D} (nmemb size : Z) : M (heap D) (option positive) :=
  λ h, if (SIZE_MAX <? nmemb * size) || calloc_fails h nmemb size then Returns (None, h)
       else let p := fresh (dom h) in
            Returns (Some p, <[p := replicate (Z.to_nat (nmemb * size / 8)) d_zero]> h).

(** [memcpy(dest, src, n)] between arrays of doubles, [n] a multiple of
    [sizeof(double)] (as every [sizeof(double) * len] is): the first
    [n / 8] cells of [src] go over those of [dest].  Undefined on a null
    or dangling pointer, on a block shorter than [n] bytes, and on
    overlapping ranges. *)
Definition memcpy (dest src : option positive) (n : Z) : M (heap D) unit :=
  λ h, match dest, src with
       | Some pd, Some ps =>
           match h !! pd, h !! ps with
           | Some to, Some from =>
               let k := Z.to_nat (n / 8) in
               if decide ((k ≤ length to)%nat ∧ (k ≤ length from)%nat ∧ (pd ≠ ps ∨ k = 0%nat))
               then Returns (tt, <[pd := take k from ++ drop k to]> h)
               else Undefined
           | _, _ => Undefined
           end
       | _, _ => Undefined
       end.

Definition matrix_fill_scalar (m : matrix) (value : D) : M (heap D) unit :=
  let end_ := matrix_len m in
  for_range 0 end_ (λ i, store (values m) i value).

(** [func] is a C function called through a pointer: it runs on the heap
    and may read it, write it, or not return. *)
Definition matrix_map (m : matrix) (func : D → M (heap D) D) : M (heap D) unit :=
  c_assert (negb (is_null (values m))) ;;
  let end_ := matrix_len m in
  for_range 0 end_ (λ i,
    let* x := load (values m) i in
    let* y := func x in
    store (values m) i y).

Context `{!Double D}.

Definition matrix_new_zeroed `{!Calloc D} (height width : Z) : M (heap D) matrix :=
  let* p := calloc (to_size_t (height * width)) 8 in
  c_assert (negb (is_null p)) ;;
  ret {| height := height; width := width; values := p |}.

Definition matrix_add_scalar (a : matrix) (b : D) : M (heap D) unit :=
  c_assert (negb (is_null (values a))) ;;
  let end_ := matrix_len a in
  for_range 0 end_ (λ i,
    let* x := load (values a) i in
    store (values a) i (d_add x b)).

Definition matrix_sub_scalar (a : matrix) (b : D) : M (heap D) unit :=
  c_assert (negb (is_null (values a))) ;;
  let end_ := matrix_len a in
  for_range 0 end_ (λ i,
    let* x := load (values a) i in
    store (values a) i (d_sub x b)).

Definition matrix_mul_scalar (a : matrix) (b : D) : M (heap D) unit :=
  c_assert (negb (is_null (values a))) ;;
  let end_ := matrix_len a in
  for_range 0 end_ (λ i,
    let* x := load (values a) i in
    store (values a) i (d_mul x b)).

Definition matrix_pow_scalar `{!Libm D} (a : matrix) (b : D) : M (heap D) unit :=
  c_assert (negb (is_null (values a))) ;;
  let end_ := matrix_len a in
  for_range 0 end_ (λ i,
    let* x := load (values a) i in
    store (values a) i (d_pow x b)).

Context `{!Libc D}.

Definition matrix_new_repeated (height width : Z) (x : D) : M (heap D) matrix :=
  let* m := matrix_new height width in
  matrix_fill_scalar m x ;;
  ret m.

Definition matrix_copy (m : matrix) : M (heap D) matrix :=
  c_assert (negb (is_null (values m))) ;;
  let* m2 := matrix_new (height m) (width m) in
  memcpy (values m2) (values m) (to_size_t (8 * matrix_len m)) ;;
  ret m2.

End MoreOperations.

(** The function of [test.c] that [matrix_map] is tried on:
    [2.0 * x - 4.0], the literals being the doubles of the integers 2
    and 4. *)
Definition random_linear_func {D : Type} `{!Double D} (x : D) : D :=
  d_sub (d_mul (d_of_int 2) x) (d_of_int 4).

(** ** Instances of the interfaces *)

(** IEEE-754 binary64, round to nearest even: the arithmetic of [double]
    where the compiler neither contracts nor widens floating expressions. *)
#[export] Instance binary64 : Double float := {
  d_zero := 0%float;
  d_add := PrimFloat.add;
  d_sub := PrimFloat.sub;
  d_mul := PrimFloat.mul;
  d_div := PrimFloat.div;
  d_of_int := λ z, PrimFloat.of_uint63 (Uint63.of_Z z);
  d_ltb := PrimFloat.ltb;
}.

(** *** A C library for the examples

    The conversion [%f] writes a number in fixed-point notation with six
    digits after the point, correctly rounded (to nearest, ties to even);
    infinities and NaN are written [inf] and [nan]. *)

Definition decimal (n : Z) : list ascii :=
  list_ascii_of_string (NilZero.string_of_uint (N.to_uint (Z.to_N n))).

Fixpoint last_digits (k : nat) (n : Z) : list ascii :=
  match k with
  | O => []
  | S k' => last_digits k' (n / 10) ++ [ascii_of_nat (48 + Z.to_nat (n mod 10))]
  end.

Definition round_half_even (num den : Z) : Z :=
  let q := num / den in
  let r := num mod den in
  if 2 * r <? den then q
  else if den <? 2 * r then q + 1
  else if Z.even q then q else q + 1.

(** The number of absolute value [num / den]. *)
Definition fixed_point (negative : bool) (num den : Z) : list ascii :=
  let n := round_half_even (num * 10 ^ 6) den in
  (if negative then ["-"%char] else [])
  ++ decimal (n / 10 ^ 6) ++ ["."%char] ++ last_digits 6 (n mod 10 ^ 6).

Definition fprintf_f_binary64 (x : float) : list ascii :=
  match Prim2SF x with
  | S754_zero s => fixed_point s 0 1
  | S754_infinity s => (if s then ["-"%char] else []) ++ list_ascii_of_string "inf"
  | S754_nan => list_ascii_of_string "nan"
  | S754_finite s m e =>
      if 0 <=? e then fixed_point s (Z.pos m * 2 ^ e) 1
      else fixed_point s (Z.pos m) (2 ^ (- e))
  end.

(** [RAND_MAX] is glibc's; [malloc] always succeeds; the cells of a fresh
    block hold NaN. *)
#[export] Instance glibc : Libc float := {
  RAND_MAX := 2147483647;
  fprintf_f := fprintf_f_binary64;
  malloc_fails := λ _ _, false;
  indeterminate := nan;
}.

(** A call with 8 MiB of stack left. *)
#[export] Instance stack_8MiB : Stack := {
  stack_left := 8388608;
}.

(** [calloc] fails on no request that fits [size_t]. *)
#[export] Instance glibc_calloc : Calloc float := {
  calloc_fails := λ _ _ _, false;
}.

(** [pow] on rationals, exact for the integral exponents of the examples
    (the integral part of any other exponent is taken). *)
#[export] Instance libm_exact : Libm Q := {
  d_pow := λ x y, Qpower x (Qnum y / Z.pos (Qden y));
}.

(** ** Vocabulary of the specifications *)

(** A valid matrix (the data model's invariant): [values] is the address
    [p] of a live block whose cells, in row-major order, are [cells], as
    many as [height * width]; the dimensions are [size_t] values and so
    is their product. *)
Record valid_matrix {D : Type} (h : heap D) (m : matrix) (p : positive) (cells : list D) : Prop := {
  valid_values : values m = Some p;
  valid_block : h !! p = Some cells;
  valid_height : 0 ≤ height m ≤ SIZE_MAX;
  valid_width : 0 ≤ width m ≤ SIZE_MAX;
  valid_len : height m * width m ≤ SIZE_MAX;
  valid_length : Z.of_nat (length cells) = height m * width m;
}.

(** The rows of a row-major block. *)
Definition row_cells {D : Type} (width : Z) (cells : list D) (row : nat) : list D :=
  take (Z.to_nat width) (drop (row * Z.to_nat width) cells).

Definition matrix_rows {D : Type} (height width : Z) (cells : list D) : list (list D) :=
  map (row_cells width cells) (seq 0 (Z.to_nat height)).

(** The text of a matrix: a line per row, the line of a row being the
    rendering of each of its cells followed by one space, then a newline. *)
Definition print_row {D : Type} `{!Libc D} (cells : list D) : list ascii :=
  concat (map (λ v, fprintf_f v ++ [" "%char]) cells) ++ [newline].

Definition print_rows {D : Type} `{!Libc D} (rows : list (list D)) : list ascii :=
  concat (map print_row rows).

Definition count_newlines (text : list ascii) : nat :=
  length (filter (λ c, c = newline) text).

(** Cell [(row, col)] of a row-major block of [width] columns. *)
Definition cell {D : Type} `{!Double D} (cells : list D) (width row col : Z) : D :=
  default d_zero (cells !! Z.to_nat (row * width + col)).

(** The sum over [t = 0 .. k-1] of [a[i][t] * b[t][j]], accumulated from
    [0.0] in increasing order of [t]; [a] has [k] columns, [b] has [n]. *)
Definition dot_product {D : Type} `{!Double D} (xs ys : list D) (k n i j : Z) : D :=
  fold_left (λ acc t, d_add acc (d_mul (cell xs k i t) (cell ys n t j))) (seqZ 0 k) d_zero.

(** The row-major cells of the product of an [m × k] by a [k × n] matrix. *)
Definition matmul_cells {D : Type} `{!Double D} (xs ys : list D) (m k n : Z) : list D :=
  map (λ f, dot_product xs ys k n (f / n) (f mod n)) (seqZ 0 (m * n)).



(** The bytes of the bit array that [matrix__transpose_rectangle] keeps
    on the stack for a matrix of so many cells: a word of 8 bytes for
    every 64 of the indices [0 .. cells - 1]. *)
Definition bitset_bytes (cells : Z) : Z := 8 * ((cells - 1) / 64 + 1).

(** The flat index to which the transposition of a matrix of [height]
    rows and [size + 1] cells sends the cell of flat index [i]. *)
Definition transpose_index (height size i : Z) : Z := (i * height) mod size.

(** The number of indices in [1 .. size - 1] that a set of indices,
    given by its membership test, does not hold. *)
Definition unmarked (mem : Z → bool) (size : Z) : nat :=
  length (filter (λ j, mem j = false) (seqZ 1 (size - 1))).

(** Membership in the two bit sets: bit [i] of the word, and bit
    [i mod 64] of word [i / 64] of the array. *)
Definition word_mem (number i : Z) : bool := Z.testbit number i.

Definition bitset_mem (bitset : list Z) (i : Z) : bool :=
  Z.testbit (default 0 (bitset !! Z.to_nat (i / 64))) (i mod 64).

(** [cur] holds the cells of [orig] permuted as the transposition of a
    matrix of [height] rows and [size + 1] cells permutes flat indices:
    the first and last cells stay, the cell of index [i] in between goes
    to index [(i * height) mod size]. *)
Definition permuted_cells {D : Type} (height size : Z) (orig cur : list D) : Prop :=
  length cur = length orig ∧
  (∀ i, 0 < i < size →
     cur !! Z.to_nat (transpose_index height size i) = orig !! Z.to_nat i) ∧
  cur !! 0%nat = orig !! 0%nat ∧
  cur !! Z.to_nat size = orig !! Z.to_nat size.

(** [cur], read as a matrix of [width] rows and [height] columns, is the
    transpose of [orig], read as one of [height] rows and [width]
    columns: [cur[c][r] = orig[r][c]]. *)
Definition transposed_cells {D : Type} (height width : Z) (orig cur : list D) : Prop :=
  length cur = length orig ∧
  ∀ r c, 0 ≤ r < height → 0 ≤ c < width →
    cur !! Z.to_nat (c * height + r) = orig !! Z.to_nat (r * width + c).

(** The transpose of a row-major block of [height] rows and [width]
    columns: cell [k] of the result, at row [k / height] and column
    [k mod height] of the transposed matrix, is the cell of row
    [k mod height] and column [k / height] of the block. *)
Definition transpose_cells {D : Type} (height width : Z) (cells : list D) : list D :=
  imap (λ k x,
    default x (cells !! Z.to_nat ((Z.of_nat k mod height) * width + Z.of_nat k / height)))
    cells.

(** The block of a square matrix of [n] rows in the middle of the
    transposition: the cells [(a, b)] and [(b, a)] have been exchanged
    for the pairs whose smaller index is below [i], or is [i] with the
    larger one below [j]. *)
Definition exchanged (i j a b : Z) : Prop :=
  a ≠ b ∧ (Z.min a b < i ∨ (Z.min a b = i ∧ Z.max a b < j)).

Definition swap_state {D : Type} (n : Z) (orig : list D) (i j : Z) : list D :=
  imap (λ k x,
    let a := Z.of_nat k / n in
    let b := Z.of_nat k mod n in
    if decide (exchanged i j a b)
    then default x (orig !! Z.to_nat (b * n + a)) else x) orig.

(** The state of the cycle-following loops on a block whose cells were
    [orig] at the start, for a set of membership test [mem] and
    representation invariant [good], on a matrix of [H] rows, [W] columns
    and [size + 1] cells.

    Between two cycles: the cells of the marked indices are at their
    destinations, the other cells are where they were, and the marked
    indices are whole cycles of the permutation. *)
Record between_cycles {D B : Type} (good : B → Prop) (mem : B → Z → bool)
    (H W size : Z) (orig cur : list D) (set : B) : Prop := {
  bc_good : good set;
  bc_length : length cur = length orig;
  bc_moved : ∀ j, 0 < j < size → mem set j = true →
    cur !! Z.to_nat (transpose_index H size j) = orig !! Z.to_nat j;
  bc_kept : ∀ x, 0 < x < size → mem set (transpose_index W size x) = false →
    cur !! Z.to_nat x = orig !! Z.to_nat x;
  bc_first : cur !! 0%nat = orig !! 0%nat;
  bc_last : cur !! Z.to_nat size = orig !! Z.to_nat size;
  bc_forward : ∀ j, 0 < j < size → mem set j = true →
    mem set (transpose_index H size j) = true;
  bc_backward : ∀ j, 0 < j < size → mem set j = true →
    mem set (transpose_index W size j) = true;
}.

(** Within the cycle begun at [c], at index [i] with [temp] in hand:
    [temp] is the original cell of [i], which is not marked yet; the
    marked indices are whole cycles and the part of this cycle from [c]
    up to the index before [i]. *)
Record within_cycle {D B : Type} (good : B → Prop) (mem : B → Z → bool)
    (H W size : Z) (orig cur : list D) (set : B) (c i : Z) (temp : D) : Prop := {
  wc_good : good set;
  wc_length : length cur = length orig;
  wc_moved : ∀ j, 0 < j < size → mem set j = true →
    cur !! Z.to_nat (transpose_index H size j) = orig !! Z.to_nat j;
  wc_kept : ∀ x, 0 < x < size → mem set (transpose_index W size x) = false →
    cur !! Z.to_nat x = orig !! Z.to_nat x;
  wc_first : cur !! 0%nat = orig !! 0%nat;
  wc_last : cur !! Z.to_nat size = orig !! Z.to_nat size;
  wc_begin : 0 < c < size;
  wc_index : 0 < i < size;
  wc_temp : orig !! Z.to_nat i = Some temp;
  wc_unmarked : mem set i = false;
  wc_forward : ∀ j, 0 < j < size → mem set j = true →
    mem set (transpose_index H size j) = true ∨ transpose_index H size j = i;
  wc_backward : ∀ j, 0 < j < size → mem set j = true →
    mem set (transpose_index W size j) = true ∨ j = c;
  wc_started : i = c ∨ (mem set c = true ∧ mem set (transpose_index W size i) = true);
}.

Arguments bc_good {D B good mem H W size orig cur set}.
Arguments wc_index {D B good mem H W size orig cur set c i temp}.
Arguments wc_unmarked {D B good mem H W size orig cur set c i temp}.

(** The first [n] cells of [cells] replaced by [f] of their index and
    content: the state of a block in the middle of a single pass. *)
Definition update_prefix {D : Type} (f : nat → D → D) (n : nat) (cells : list D) : list D :=
  imap (λ j x, if decide (j < n)%nat then f j x else x) cells.

(** ** Running monadic code *)

Section Run.
Context {S : Type}.

Lemma bind_returns {A B : Type} (c : M S A) (k : A → M S B) s a s' :
  c s = Returns (a, s') → bind c k s = k a s'.
Proof. intros Hc. unfold bind. by rewrite Hc. Qed.

Lemma bind_aborts {A B : Type} (c : M S A) (k : A → M S B) s :
  c s = Aborts → bind c k s = Aborts.
Proof. intros Hc. unfold bind. by rewrite Hc. Qed.

Lemma bind_undefined {A B : Type} (c : M S A) (k : A → M S B) s :
  c s = Undefined → bind c k s = Undefined.
Proof. intros Hc. unfold bind. by rewrite Hc. Qed.

Lemma bind_out_of_fuel {A B : Type} (c : M S A) (k : A → M S B) s :
  c s = OutOfFuel → bind c k s = OutOfFuel.
Proof. intros Hc. unfold bind. by rewrite Hc. Qed.

Lemma bind_ret {A B : Type} (a : A) (k : A → M S B) s : bind (ret a) k s = k a s.
Proof. reflexivity. Qed.

Lemma assert_true {B : Type} (k : unit → M S B) s : bind (c_assert true) k s = k tt s.
Proof. reflexivity. Qed.

Lemma assert_false {B : Type} (k : unit → M S B) s : bind (c_assert false) k s = Aborts.
Proof. reflexivity. Qed.

Lemma defined_some {A B : Type} (a : A) (k : A → M S B) s :
  bind (defined (Some a)) k s = k a s.
Proof. reflexivity. Qed.

End Run.

Section HeapAccess.
Context {D : Type}.
Implicit Types (h : heap D) (p : positive) (block : list D).

Lemma load_returns h p block i v :
  h !! p = Some block → block !! Z.to_nat i = Some v →
  load (Some p) i h = Returns (v, h).
Proof. intros Hp Hi. unfold load. by rewrite Hp, Hi. Qed.

Lemma store_returns h p block i v :
  h !! p = Some block → (Z.to_nat i < length block)%nat →
  store (Some p) i v h = Returns (tt, <[p := <[Z.to_nat i := v]> block]> h).
Proof. intros Hp Hi. unfold store. rewrite Hp. by rewrite decide_True. Qed.

End HeapAccess.

(** ** Counted loops *)

Section Loops.
Context {S : Type}.

(** An invariant indexed by the number of iterations done. *)
Lemma for_loop_invariant (I : nat → S → Prop) (n : nat) (lo : Z) (body : Z → M S unit) s :
  I 0%nat s →
  (∀ k s, (k < n)%nat → I k s →
     ∃ s', body (lo + Z.of_nat k) s = Returns (tt, s') ∧ I (Datatypes.S k) s') →
  ∃ s', for_loop n lo body s = Returns (tt, s') ∧ I n s'.
Proof.
  revert I lo s. induction n as [|n IH]; intros I lo s H0 Hstep.
  - exists s. done.
  - destruct (Hstep 0%nat s) as (s1 & Hbody & H1); [lia | done |].
    rewrite Z.add_0_r in Hbody.
    destruct (IH (λ k, I (Datatypes.S k)) (lo + 1) s1) as (s2 & Hrest & H2); [done | |].
    { intros k s' Hk HI. destruct (Hstep (Datatypes.S k) s') as (s'' & Hb & HI'); [lia | done |].
      exists s''. split; [|done]. rewrite <- Hb. f_equal. lia. }
    exists s2. split; [|done]. cbn [for_loop]. by rewrite (bind_returns _ _ _ _ _ Hbody).
Qed.

Lemma for_range_invariant (I : nat → S → Prop) (lo hi : Z) (body : Z → M S unit) s :
  I 0%nat s →
  (∀ k s, lo + Z.of_nat k < hi → I k s →
     ∃ s', body (lo + Z.of_nat k) s = Returns (tt, s') ∧ I (Datatypes.S k) s') →
  ∃ s', for_range lo hi body s = Returns (tt, s') ∧ I (Z.to_nat (hi - lo)) s'.
Proof.
  intros H0 Hstep. apply for_loop_invariant; [done|].
  intros k s' Hk. apply Hstep. lia.
Qed.

(** A loop whose first iteration goes wrong. *)
Lemma for_range_first_undefined (lo hi : Z) (body : Z → M S unit) s :
  lo < hi → body lo s = Undefined → for_range lo hi body s = Undefined.
Proof.
  intros Hlt Hbody. unfold for_range.
  replace (Z.to_nat (hi - lo)) with (Datatypes.S (Z.to_nat (hi - lo - 1))) by lia.
  cbn [for_loop]. by apply bind_undefined.
Qed.

Lemma for_fold_invariant {A : Type} (I : nat → A → S → Prop) (n : nat) (lo : Z)
    (body : Z → A → M S A) acc s :
  I 0%nat acc s →
  (∀ k acc s, (k < n)%nat → I k acc s →
     ∃ acc' s', body (lo + Z.of_nat k) acc s = Returns (acc', s') ∧ I (Datatypes.S k) acc' s') →
  ∃ acc' s', for_fold n lo body acc s = Returns (acc', s') ∧ I n acc' s'.
Proof.
  revert I lo acc s. induction n as [|n IH]; intros I lo acc s H0 Hstep.
  - exists acc, s. done.
  - destruct (Hstep 0%nat acc s) as (acc1 & s1 & Hbody & H1); [lia | done |].
    rewrite Z.add_0_r in Hbody.
    destruct (IH (λ k, I (Datatypes.S k)) (lo + 1) acc1 s1) as (acc2 & s2 & Hrest & H2); [done | |].
    { intros k acc' s' Hk HI.
      destruct (Hstep (Datatypes.S k) acc' s') as (acc'' & s'' & Hb & HI'); [lia | done |].
      exists acc'', s''. split; [|done]. rewrite <- Hb. f_equal. lia. }
    exists acc2, s2. split; [|done]. cbn [for_fold]. by rewrite (bind_returns _ _ _ _ _ Hbody).
Qed.

End Loops.

(** ** Single passes over a block *)

Section SinglePass.
Context {D : Type}.
Implicit Types (h : heap D) (cells : list D).

Lemma update_prefix_length (f : nat → D → D) n cells :
  length (update_prefix f n cells) = length cells.
Proof. apply length_imap. Qed.

Lemma update_prefix_0 (f : nat → D → D) cells : update_prefix f 0 cells = cells.
Proof.
  apply list_eq. intros i. unfold update_prefix. rewrite list_lookup_imap.
  destruct (cells !! i); [|done]. cbn. by rewrite decide_False by lia.
Qed.

Lemma update_prefix_lookup (f : nat → D → D) n cells i :
  update_prefix f n cells !! i
  = (λ x, if decide (i < n)%nat then f i x else x) <$> cells !! i.
Proof. unfold update_prefix. by rewrite list_lookup_imap. Qed.

Lemma update_prefix_S (f : nat → D → D) n cells x :
  cells !! n = Some x →
  <[n := f n x]> (update_prefix f n cells) = update_prefix f (Datatypes.S n) cells.
Proof.
  intros Hx. apply list_eq. intros i.
  destruct (decide (i = n)) as [-> | Hne].
  - rewrite list_lookup_insert_eq.
    + rewrite update_prefix_lookup, Hx. cbn. by rewrite decide_True by lia.
    + rewrite update_prefix_length. by apply lookup_lt_Some in Hx.
  - rewrite list_lookup_insert_ne by done.
    rewrite !update_prefix_lookup. destruct (cells !! i); [|done]. cbn.
    destruct (decide (i < n)%nat), (decide (i < Datatypes.S n)%nat); try done; lia.
Qed.

(** A loop whose [i]-th iteration stores [f i x] over the content [x] of
    cell [i] of the block at [p], whatever it reads elsewhere. *)
Lemma single_pass (f : nat → D → D) (body : Z → M (heap D) unit) h p cells (n : Z) :
  h !! p = Some cells → 0 ≤ n ≤ Z.of_nat (length cells) →
  (∀ (k : nat) x, Z.of_nat k < n → cells !! k = Some x →
     body (Z.of_nat k) (<[p := update_prefix f k cells]> h)
     = Returns (tt, <[p := <[k := f k x]> (update_prefix f k cells)]> h)) →
  for_range 0 n body h
  = Returns (tt, <[p := update_prefix f (Z.to_nat n) cells]> h).
Proof.
  intros Hp Hn Hbody.
  destruct (for_range_invariant
              (λ k s, s = <[p := update_prefix f k cells]> h) 0 n body h)
    as (s' & Hrun & ->).
  - rewrite update_prefix_0. symmetry. by apply insert_id.
  - intros k s Hk ->. rewrite Z.add_0_l in *.
    destruct (lookup_lt_is_Some_2 cells k) as [x Hx]; [lia|].
    eexists. split; [by eapply Hbody|]. by rewrite (update_prefix_S f k cells x Hx).
  - by rewrite Hrun, Z.sub_0_r.
Qed.

End SinglePass.

(** ** Cell access *)

Section Cells.
Context {D : Type}.
Implicit Types (h : heap D) (cells : list D) (m : matrix).

Lemma valid_matrix_len h m p cells :
  valid_matrix h m p cells → matrix_len m = height m * width m.
Proof.
  intros [_ _ Hh Hw Hfit _]. unfold matrix_len, to_size_t.
  apply Z.mod_small. unfold SIZE_MAX in Hfit. lia.
Qed.

(** The flat index of a cell is within the block and does not wrap. *)
Lemma cell_index_bounds h m p cells row col :
  valid_matrix h m p cells → 0 ≤ row < height m → 0 ≤ col < width m →
  0 ≤ row * width m + col < height m * width m ∧
  to_size_t (row * width m + col) = row * width m + col.
Proof.
  intros [_ _ Hh Hw Hfit _] Hrow Hcol.
  assert (0 ≤ row * width m + col < height m * width m) as Hidx by nia.
  split; [done|]. unfold to_size_t. apply Z.mod_small. unfold SIZE_MAX in Hfit. lia.
Qed.

Lemma matrix_get_returns h m p cells row col :
  valid_matrix h m p cells → 0 ≤ row < height m → 0 ≤ col < width m →
  ∃ v, cells !! Z.to_nat (row * width m + col) = Some v ∧
       matrix_get m row col h = Returns (v, h).
Proof.
  intros Hv Hrow Hcol.
  destruct (cell_index_bounds h m p cells row col Hv Hrow Hcol) as [Hidx Hwrap].
  destruct Hv as [Hp Hblock _ _ _ Hlen].
  destruct (lookup_lt_is_Some_2 cells (Z.to_nat (row * width m + col))) as [v Hcell]; [lia|].
  exists v. split; [done|]. unfold matrix_get. rewrite Hp. cbn [is_null negb].
  rewrite assert_true.
  destruct (Z.ltb_spec row (height m)); [|lia].
  destruct (Z.ltb_spec col (width m)); [|lia].
  rewrite !assert_true, Hwrap. by eapply load_returns.
Qed.

Lemma matrix_set_returns h m p cells row col v :
  valid_matrix h m p cells → 0 ≤ row < height m → 0 ≤ col < width m →
  matrix_set m row col v h
  = Returns (tt, <[p := <[Z.to_nat (row * width m + col) := v]> cells]> h).
Proof.
  intros Hv Hrow Hcol.
  destruct (cell_index_bounds h m p cells row col Hv Hrow Hcol) as [Hidx Hwrap].
  destruct Hv as [Hp Hblock _ _ _ Hlen].
  unfold matrix_set. rewrite Hp. cbn [is_null negb]. rewrite assert_true.
  destruct (Z.ltb_spec row (height m)); [|lia].
  destruct (Z.ltb_spec col (width m)); [|lia].
  rewrite !assert_true, Hwrap. eapply store_returns; [done | lia].
Qed.

Lemma row_cells_lookup width cells (row col : nat) :
  (col < Z.to_nat width)%nat →
  row_cells width cells row !! col = cells !! (row * Z.to_nat width + col)%nat.
Proof.
  intros Hcol. unfold row_cells. rewrite lookup_take_lt by done. by rewrite lookup_drop.
Qed.

Lemma row_cells_length h m p cells (row : nat) :
  valid_matrix h m p cells → Z.of_nat row < height m →
  length (row_cells (width m) cells row) = Z.to_nat (width m).
Proof.
  intros [_ _ Hh Hw _ Hlen] Hrow. unfold row_cells.
  rewrite length_take, length_drop. nia.
Qed.

Lemma matrix_rows_length height width cells :
  length (matrix_rows height width cells) = Z.to_nat height.
Proof. unfold matrix_rows. by rewrite length_map, length_seq. Qed.

End Cells.

(** A block of the right length at a live address makes a valid matrix. *)
Lemma valid_matrix_singleton {D : Type} (p : positive) (cells : list D) (rows cols : Z) :
  0 ≤ rows ≤ SIZE_MAX → 0 ≤ cols ≤ SIZE_MAX → rows * cols ≤ SIZE_MAX →
  Z.of_nat (length cells) = rows * cols →
  ∀ h : heap D, h !! p = Some cells →
  valid_matrix h {| height := rows; width := cols; values := Some p |} p cells.
Proof. intros ???? h ?. by split. Defined.

(** ** Allocation *)

Section Allocation.
Context {D : Type} `{!Libc D}.
Implicit Types (h : heap D) (xs ys : list D) (a b : matrix).

(** [matrix_new] on a request that fits [size_t] and that [malloc] grants. *)
Lemma matrix_new_returns h (height width : Z) :
  0 ≤ height → 0 ≤ width → 8 * (height * width) ≤ SIZE_MAX →
  malloc_fails h (8 * (height * width)) = false →
  matrix_new height width h
  = Returns ({| height := height; width := width; values := Some (fresh (dom h)) |},
             <[fresh (dom h) := replicate (Z.to_nat (height * width)) indeterminate]> h).
Proof.
  intros Hh Hw Hfit Hok. unfold matrix_new.
  assert (to_size_t (to_size_t (8 * height) * width) = 8 * (height * width)) as ->.
  { unfold to_size_t. rewrite Z.mul_mod_idemp_l by done.
    rewrite <- Z.mul_assoc. apply Z.mod_small. unfold SIZE_MAX in Hfit. nia. }
  unfold bind at 1. unfold malloc. rewrite Hok. cbn [is_null negb].
  rewrite assert_true. unfold ret. do 4 f_equal.
  rewrite Z.mul_comm, Z.div_mul by done. reflexivity.
Qed.

End Allocation.

(** ** Releasing a matrix *)

(** C10: [matrix_del] aborts on a matrix whose [values] is null; on a
    matrix holding a live block it frees the block (it is gone from the
    heap), returns the matrix with [values] null and the dimensions
    kept, and a second [matrix_del] of that matrix aborts on the
    assertion, the heap untouched by any second [free]. *)
Theorem matrix_del_nulls_then_aborts {D : Type} (m : matrix) (h : heap D) :
  (values m = None → matrix_del m h = Aborts) ∧
  (∀ p, values m = Some p → is_Some (h !! p) →
     ∃ m', matrix_del m h = Returns (m', delete p h) ∧
           values m' = None ∧ height m' = height m ∧ width m' = width m ∧
           delete p h !! p = None ∧
           matrix_del m' (delete p h) = Aborts).
Proof.
  split.
  - intros Hnull. unfold matrix_del. rewrite Hnull. reflexivity.
  - intros p Hp [block Hblock].
    exists {| height := height m; width := width m; values := None |}.
    repeat split; [| apply lookup_delete_eq].
    unfold matrix_del. rewrite Hp. cbn [is_null negb].
    rewrite !assert_true. unfold bind, free. by rewrite Hblock.
Qed.

(** On a 1 × 2 matrix of integers. *)
Lemma matrix_del_nulls_then_aborts_witness :
  ∃ m', matrix_del {| height := 1; width := 2; values := Some 1%positive |}
          ({[ 1%positive := [3; 4] ]} : heap Z)
        = Returns (m', delete 1%positive {[ 1%positive := [3; 4] ]}) ∧
        values m' = None ∧ height m' = 1 ∧ width m' = 2 ∧
        delete 1%positive ({[ 1%positive := [3; 4] ]} : heap Z) !! 1%positive = None ∧
        matrix_del m' (delete 1%positive ({[ 1%positive := [3; 4] ]} : heap Z)) = Aborts.
Proof.
  apply (proj2 (matrix_del_nulls_then_aborts
                  {| height := 1; width := 2; values := Some 1%positive |}
                  ({[ 1%positive := [3; 4] ]} : heap Z)) 1%positive).
  - reflexivity.
  - exists [3; 4]. reflexivity.
Defined.

(** ** Printing *)

Section Printing.
Context {D : Type} `{!Libc D}.
Implicit Types (h : heap D) (cells : list D) (m : matrix).

Lemma print_rows_snoc (rows : list (list D)) (row : list D) :
  print_rows (rows ++ [row]) = print_rows rows ++ print_row row.
Proof.
  unfold print_rows. rewrite map_app, concat_app. cbn. by rewrite app_nil_r.
Qed.

Lemma count_newlines_app (s t : list ascii) :
  count_newlines (s ++ t) = (count_newlines s + count_newlines t)%nat.
Proof. unfold count_newlines. by rewrite list.filter_app, length_app. Qed.

Lemma count_newlines_cells (cells : list D) :
  (∀ v, newline ∉ fprintf_f v) →
  count_newlines (concat (map (λ v, fprintf_f v ++ [" "%char]) cells)) = 0%nat.
Proof.
  intros Hfmt. induction cells as [|v cells IH]; [done|].
  cbn [map concat]. rewrite !count_newlines_app, IH.
  assert (count_newlines (fprintf_f v) = 0%nat) as ->.
  { pose proof (Hfmt v) as Hv. unfold count_newlines.
    induction (fprintf_f v) as [|c text IHtext]; [done|].
    rewrite filter_cons_False by (intros ->; apply Hv; left).
    apply IHtext. intros Hin. apply Hv. by right. }
  reflexivity.
Qed.

Lemma count_newlines_rows (rows : list (list D)) :
  (∀ v, newline ∉ fprintf_f v) →
  count_newlines (print_rows rows) = length rows.
Proof.
  intros Hfmt. induction rows as [|row rows IH]; [done|].
  unfold print_rows in *. cbn [map concat length]. rewrite count_newlines_app, IH.
  unfold print_row. rewrite count_newlines_app, count_newlines_cells by done.
  reflexivity.
Qed.

(** The inner loop writes the cells of one row. *)
Lemma print_columns h m p cells (r : nat) sink :
  valid_matrix h m p cells → Z.of_nat r < height m →
  for_range_fold 0 (width m) (λ col sink,
    let* v := matrix_get m (Z.of_nat r) col in
    ret (sink ++ fprintf_f v ++ [" "%char])) sink h
  = Returns (sink ++ concat (map (λ v, fprintf_f v ++ [" "%char])
                               (row_cells (width m) cells r)), h).
Proof.
  intros Hv Hr.
  pose proof (row_cells_length h m p cells r Hv Hr) as Hrow.
  destruct (for_fold_invariant
    (λ k acc s, s = h ∧
       acc = sink ++ concat (map (λ v, fprintf_f v ++ [" "%char])
                               (take k (row_cells (width m) cells r))))
    (Z.to_nat (width m - 0)) 0
    (λ col sink,
       let* v := matrix_get m (Z.of_nat r) col in
       ret (sink ++ fprintf_f v ++ [" "%char])) sink h) as (acc & s & Hrun & -> & ->).
  - split; [done|]. cbn. by rewrite app_nil_r.
  - intros k acc s Hk [-> ->]. rewrite Z.add_0_l.
    destruct (matrix_get_returns h m p cells (Z.of_nat r) (Z.of_nat k) Hv)
      as (v & Hcell & Hget); [lia | lia |].
    eexists _, h. split.
    { rewrite (bind_returns _ _ _ _ _ Hget). reflexivity. }
    split; [done|].
    assert (row_cells (width m) cells r !! k = Some v) as Hk'.
    { rewrite row_cells_lookup by lia. rewrite <- Hcell. f_equal.
      destruct Hv as [_ _ Hh Hw _ _]. nia. }
    rewrite (take_S_r _ _ _ Hk'), map_app, concat_app. cbn.
    by rewrite app_nil_r, <- !app_assoc.
  - unfold for_range_fold. rewrite Hrun.
    rewrite take_ge by (rewrite Hrow; lia). reflexivity.
Qed.

(** C8: on a valid matrix [matrix_print] returns, leaves the heap alone,
    and appends to the sink exactly the text of the matrix and nothing
    before or after it: for each row in turn, each cell of the row
    rendered by [%f] and followed by a single space, then one newline.
    There are as many rows as the height, each of as many cells as the
    width, read row-major from the block; and where [%f] writes no
    newline, the text has one newline, hence one line, per row. *)
Theorem matrix_print_one_line_per_row (m : matrix) (h : heap D) (p : positive)
    (cells : list D) (sink : list ascii) :
  valid_matrix h m p cells →
  matrix_print m sink h
  = Returns (sink ++ print_rows (matrix_rows (height m) (width m) cells), h) ∧
  length (matrix_rows (height m) (width m) cells) = Z.to_nat (height m) ∧
  (∀ (r : nat) row, matrix_rows (height m) (width m) cells !! r = Some row →
     length row = Z.to_nat (width m) ∧
     ∀ c : nat, Z.of_nat c < width m →
       row !! c = cells !! Z.to_nat (Z.of_nat r * width m + Z.of_nat c)) ∧
  ((∀ v, newline ∉ fprintf_f v) →
   count_newlines (print_rows (matrix_rows (height m) (width m) cells))
   = Z.to_nat (height m)).
Proof.
  intros Hv.
  assert (∀ r : nat, Z.of_nat r < height m →
            matrix_rows (height m) (width m) cells !! r
            = Some (row_cells (width m) cells r)) as Hrows.
  { intros r Hr. unfold matrix_rows. rewrite list_lookup_fmap.
    rewrite lookup_seq_lt by lia. reflexivity. }
  repeat split.
  - unfold matrix_print. rewrite (valid_values _ _ _ _ Hv). cbn [is_null negb].
    rewrite assert_true.
    destruct (for_fold_invariant
      (λ k acc s, s = h ∧
         acc = sink ++ print_rows (take k (matrix_rows (height m) (width m) cells)))
      (Z.to_nat (height m - 0)) 0
      (λ row sink,
         let* sink := for_range_fold 0 (width m) (λ col sink,
                        let* v := matrix_get m row col in
                        ret (sink ++ fprintf_f v ++ [" "%char])) sink in
         ret (sink ++ [newline])) sink h) as (acc & s & Hrun & -> & ->).
    + split; [done|]. cbn. by rewrite app_nil_r.
    + intros k acc s Hk [-> ->]. rewrite Z.add_0_l.
      eexists _, h. split.
      { rewrite (bind_returns _ _ _ _ _ (print_columns h m p cells k _ Hv ltac:(lia))).
        reflexivity. }
      split; [done|].
      rewrite (take_S_r _ _ _ (Hrows k ltac:(lia))), print_rows_snoc.
      unfold print_row. by rewrite <- !app_assoc.
    + etrans; [exact Hrun|].
      rewrite take_ge by (rewrite matrix_rows_length; lia). reflexivity.
  - apply matrix_rows_length.
  - apply lookup_lt_Some in H as Hr. rewrite matrix_rows_length in Hr.
    rewrite Hrows in H by lia. injection H as <-.
    apply (row_cells_length h m p cells r Hv). lia.
  - intros c Hc. apply lookup_lt_Some in H as Hr. rewrite matrix_rows_length in Hr.
    rewrite Hrows in H by lia. injection H as <-.
    rewrite row_cells_lookup by lia. f_equal.
    destruct Hv as [_ _ Hh Hw _ _]. nia.
  - intros Hfmt. rewrite count_newlines_rows by done. apply matrix_rows_length.
Qed.

End Printing.

(** The text of a 2 × 2 matrix in binary64. *)
Lemma matrix_print_one_line_per_row_witness :
  matrix_print {| height := 2; width := 2; values := Some 1%positive |} []
    ({[ 1%positive := [1; 2.5; -3; 0.125] ]} : heap float)%float
  = Returns (list_ascii_of_string "1.000000 2.500000 " ++ [newline]
             ++ list_ascii_of_string "-3.000000 0.125000 " ++ [newline],
             {[ 1%positive := [1; 2.5; -3; 0.125] ]}%float).
Proof.
  set (h := ({[ 1%positive := [1; 2.5; -3; 0.125] ]} : heap float)%float).
  assert (valid_matrix h {| height := 2; width := 2; values := Some 1%positive |}
            1%positive [1; 2.5; -3; 0.125]%float) as Hv
    by (apply valid_matrix_singleton; vm_compute; try split; congruence).
  rewrite (proj1 (matrix_print_one_line_per_row _ h _ _ [] Hv)).
  vm_compute. reflexivity.
Defined.

(** ** Uniform fill *)

Section Uniform.
Context {D : Type} `{!Double D} `{!Libc D}.
Implicit Types (h : heap D) (cells : list D) (m : matrix).




End Uniform.


(** Rounding can even carry a cell beyond [b]: with [a = -2^53] and
    [b = 1.5] the difference [b - a] rounds up to [2^53 + 2], and the cell
    computed from [RAND_MAX] is [2.0]. *)
Lemma uniform_binary64_overshoots :
  matrix_new_uniform (λ _, RAND_MAX) 1 1 (-9007199254740992)%float 1.5%float (∅ : heap float)
  = Returns ({| height := 1; width := 1; values := Some 1%positive |},
             {[ 1%positive := [2%float] ]}) ∧
  PrimFloat.ltb 1.5%float 2%float = true.
Proof. split; vm_compute; reflexivity. Qed.

(** And where [b - a] overflows the cell need not be a number: with
    [a = -DBL_MAX] and [b = DBL_MAX] the difference is infinite, and the
    cell computed from a value 0 of [rand()] is [0 * inf], NaN. *)
Lemma uniform_binary64_not_a_number :
  PrimFloat.ltb (-0x1.fffffffffffffp+1023)%float 0x1.fffffffffffffp+1023%float = true ∧
  matrix_new_uniform (λ _, 0) 1 1
    (-0x1.fffffffffffffp+1023)%float 0x1.fffffffffffffp+1023%float (∅ : heap float)
  = Returns ({| height := 1; width := 1; values := Some 1%positive |},
             {[ 1%positive := [nan] ]}).
Proof. split; vm_compute; reflexivity. Qed.



(** ** Element-wise addition and subtraction *)

Section Elementwise.
Context {D : Type}.
Implicit Types (h : heap D) (xs ys : list D).

Lemma update_prefix_zip_with (op : D → D → D) xs ys :
  length xs = length ys →
  update_prefix (λ k x, match ys !! k with Some y => op x y | None => x end) (length xs) xs
  = zip_with op xs ys.
Proof.
  intros Hlen. apply list_eq. intros i.
  rewrite update_prefix_lookup, lookup_zip_with.
  destruct (xs !! i) as [x|] eqn:Hx; [|done]. cbn.
  apply lookup_lt_Some in Hx as Hi. rewrite decide_True by done.
  destruct (lookup_lt_is_Some_2 ys i) as [y Hy]; [lia|]. by rewrite Hy.
Qed.

(** The loop shared by [matrix_add] and [matrix_sub]: the two blocks may
    be one and the same. *)
Lemma elementwise_pass (op : D → D → D) h pa pb xs ys (n : Z) :
  h !! pa = Some xs → h !! pb = Some ys →
  n = Z.of_nat (length xs) → length xs = length ys →
  for_range 0 n (λ i,
    let* x := load (Some pa) i in
    let* y := load (Some pb) i in
    store (Some pa) i (op x y)) h
  = Returns (tt, <[pa := zip_with op xs ys]> h).
Proof.
  intros Ha Hb -> Hlen.
  rewrite <- (update_prefix_zip_with op xs ys Hlen).
  set (f := λ (k : nat) (x : D), match ys !! k with Some y => op x y | None => x end).
  rewrite (single_pass f _ h pa xs (Z.of_nat (length xs))); [by rewrite Nat2Z.id | done | lia |].
  intros k x Hk Hx.
  set (cur := update_prefix f k xs).
  assert (cur !! k = Some x) as Hcur.
  { unfold cur. rewrite update_prefix_lookup, Hx. cbn. by rewrite decide_False by lia. }
  destruct (lookup_lt_is_Some_2 ys k) as [y Hy]; [lia|].
  assert (load (Some pb) (Z.of_nat k) (<[pa := cur]> h) = Returns (y, <[pa := cur]> h)) as Hloadb.
  { destruct (decide (pa = pb)) as [-> | Hne].
    - assert (xs = ys) as Heq by congruence.
      eapply load_returns; [apply lookup_insert_eq|]. rewrite Nat2Z.id. congruence.
    - eapply load_returns; [by rewrite lookup_insert_ne|]. by rewrite Nat2Z.id. }
  rewrite (bind_returns _ _ _ x (<[pa := cur]> h)).
  2:{ eapply load_returns; [apply lookup_insert_eq|]. by rewrite Nat2Z.id. }
  rewrite (bind_returns _ _ _ _ _ Hloadb).
  erewrite store_returns; [|apply lookup_insert_eq|].
  2:{ rewrite Nat2Z.id. by apply lookup_lt_Some in Hcur. }
  rewrite Nat2Z.id, insert_insert_eq. subst f. cbn beta. by rewrite Hy.
Qed.

End Elementwise.

(** C7: [matrix_add] and [matrix_sub] abort, on the assertions, whenever
    the operands differ in height or in width, whatever else holds of
    them; on two valid matrices of the same height and width they return,
    the block of [a] then holds cell by cell the sum (difference) of the
    cells of [a] and [b], and nothing else in the heap is written: the
    block of [b], when it is another block, is as it was. *)
Theorem matrix_add_sub_shape_checked {D : Type} `{!Double D}
    (a b : matrix) (h : heap D) :
  (height a ≠ height b ∨ width a ≠ width b →
     matrix_add a b h = Aborts ∧ matrix_sub a b h = Aborts) ∧
  (∀ pa pb xs ys,
     valid_matrix h a pa xs → valid_matrix h b pb ys →
     height a = height b → width a = width b →
     matrix_add a b h = Returns (tt, <[pa := zip_with d_add xs ys]> h) ∧
     matrix_sub a b h = Returns (tt, <[pa := zip_with d_sub xs ys]> h) ∧
     (pa ≠ pb →
        <[pa := zip_with d_add xs ys]> h !! pb = Some ys ∧
        <[pa := zip_with d_sub xs ys]> h !! pb = Some ys)).
Proof.
  split.
  - intros Hshape. unfold matrix_add, matrix_sub.
    destruct (values a), (values b); try done; cbn [is_null negb];
      rewrite !assert_true.
    destruct (Z.eqb_spec (height a) (height b)) as [Hh | Hh]; [|done].
    destruct (Z.eqb_spec (width a) (width b)) as [Hw | Hw]; [|done].
    destruct Hshape; done.
  - intros pa pb xs ys [Hpa Ha _ _ Hfit Hla] [Hpb Hb _ _ _ Hlb] Hh Hw.
    assert (matrix_len a = Z.of_nat (length xs)) as Hlen.
    { unfold matrix_len, to_size_t. rewrite Hla. apply Z.mod_small.
      unfold SIZE_MAX in Hfit. lia. }
    assert (length xs = length ys) as Hsame by (rewrite Hh, Hw in Hla; lia).
    unfold matrix_add, matrix_sub. rewrite Hpa, Hpb, Hh, Hw, !Z.eqb_refl.
    cbn [is_null negb]. rewrite !assert_true.
    split; [by apply elementwise_pass|].
    split; [by apply elementwise_pass|].
    intros Hne. by rewrite !lookup_insert_ne.
Qed.

(** A 2 × 2 matrix against a 3 × 3 one, then against a 2 × 2 one, in
    binary64. *)
Lemma matrix_add_sub_shape_checked_witness :
  matrix_add {| height := 2; width := 2; values := Some 1%positive |}
             {| height := 3; width := 3; values := Some 2%positive |}
             ({[ 1%positive := [1; 2; -1; -0.5];
                 2%positive := [1; 0; 3; 2.5; 0; 0; 0; 0; 0] ]} : heap float)%float
  = Aborts ∧
  matrix_add {| height := 2; width := 2; values := Some 1%positive |}
             {| height := 2; width := 2; values := Some 2%positive |}
             ({[ 1%positive := [1; 2; -1; -0.5]; 2%positive := [1; 0; 3; 2.5] ]} : heap float)%float
  = Returns (tt, {[ 1%positive := [2; 2; 2; 2]; 2%positive := [1; 0; 3; 2.5] ]}%float) ∧
  matrix_sub {| height := 2; width := 2; values := Some 1%positive |}
             {| height := 2; width := 2; values := Some 2%positive |}
             ({[ 1%positive := [1; 2; -1; -0.5]; 2%positive := [1; 0; 3; 2.5] ]} : heap float)%float
  = Returns (tt, {[ 1%positive := [0; 2; -4; -3]; 2%positive := [1; 0; 3; 2.5] ]}%float).
Proof.
  split.
  - refine (proj1 (proj1 (matrix_add_sub_shape_checked
                            {| height := 2; width := 2; values := Some 1%positive |}
                            {| height := 3; width := 3; values := Some 2%positive |} _) _)).
    left. cbn. discriminate.
  - set (h := ({[ 1%positive := [1; 2; -1; -0.5]; 2%positive := [1; 0; 3; 2.5] ]}
               : heap float)%float).
    assert (valid_matrix h {| height := 2; width := 2; values := Some 1%positive |}
              1%positive [1; 2; -1; -0.5]%float) as Ha
      by (apply valid_matrix_singleton; vm_compute; try split; congruence).
    assert (valid_matrix h {| height := 2; width := 2; values := Some 2%positive |}
              2%positive [1; 0; 3; 2.5]%float) as Hb
      by (apply valid_matrix_singleton; vm_compute; try split; congruence).
    destruct (proj2 (matrix_add_sub_shape_checked _ _ h) _ _ _ _ Ha Hb eq_refl eq_refl)
      as (Hadd & Hsub & _).
    rewrite Hadd, Hsub. split; vm_compute; reflexivity.
Defined.

(** ** Matrix multiplication *)

Section MatMul.
Context {D : Type} `{!Double D}.
Implicit Types (h : heap D) (xs ys zs : list D) (a b dest : matrix).

Lemma valid_matrix_insert_ne h m p cells q block :
  valid_matrix h m p cells → p ≠ q → valid_matrix (<[q := block]> h) m p cells.
Proof.
  intros [] Hne. split; try done. by rewrite lookup_insert_ne.
Qed.

Lemma cell_lookup xs width row col v :
  xs !! Z.to_nat (row * width + col) = Some v → cell xs width row col = v.
Proof. intros Hv. unfold cell. by rewrite Hv. Qed.

(** The innermost loop adds the products to cell [field] of [dest], one
    after the other. *)
Lemma accumulate_products h a b pa pb pd xs ys cur (row col : Z) (field : nat) acc0 :
  valid_matrix h a pa xs → valid_matrix h b pb ys →
  width a = height b → pd ≠ pa → pd ≠ pb →
  0 ≤ row < height a → 0 ≤ col < width b →
  h !! pd = Some cur → cur !! field = Some acc0 →
  for_range 0 (width a) (λ i,
    let* acc := load (Some pd) (Z.of_nat field) in
    let* x := matrix_get a row i in
    let* y := matrix_get b i col in
    store (Some pd) (Z.of_nat field) (d_add acc (d_mul x y))) h
  = Returns (tt, <[pd := <[field :=
      fold_left (λ acc t, d_add acc (d_mul (cell xs (width a) row t) (cell ys (width b) t col)))
        (seqZ 0 (width a)) acc0]> cur]> h).
Proof.
  intros Ha Hb Hab Hda Hdb Hrow Hcol Hd Hacc.
  set (step := λ acc t, d_add acc (d_mul (cell xs (width a) row t) (cell ys (width b) t col))).
  pose proof (valid_width _ _ _ _ Ha) as Hk.
  destruct (for_range_invariant
    (λ t s, s = <[pd := <[field := fold_left step (seqZ 0 (Z.of_nat t)) acc0]> cur]> h)
    0 (width a)
    (λ i,
      let* acc := load (Some pd) (Z.of_nat field) in
      let* x := matrix_get a row i in
      let* y := matrix_get b i col in
      store (Some pd) (Z.of_nat field) (d_add acc (d_mul x y))) h) as (s & Hrun & ->).
  - cbn. rewrite list_insert_id by done. symmetry. by apply insert_id.
  - intros t s Ht ->. rewrite Z.add_0_l in *.
    set (acc := fold_left step (seqZ 0 (Z.of_nat t)) acc0).
    set (s := <[pd := <[field := acc]> cur]> h).
    assert (valid_matrix s a pa xs) as Ha' by (by apply valid_matrix_insert_ne).
    assert (valid_matrix s b pb ys) as Hb' by (by apply valid_matrix_insert_ne).
    destruct (matrix_get_returns s a pa xs row (Z.of_nat t) Ha') as (x & Hx & Hgetx); [lia..|].
    destruct (matrix_get_returns s b pb ys (Z.of_nat t) col Hb') as (y & Hy & Hgety); [lia..|].
    apply lookup_lt_Some in Hacc as Hfield.
    eexists. split.
    + rewrite (bind_returns _ _ _ acc s).
      2:{ eapply load_returns; [apply lookup_insert_eq|]. rewrite Nat2Z.id.
          by apply list_lookup_insert_eq. }
      rewrite (bind_returns _ _ _ _ _ Hgetx), (bind_returns _ _ _ _ _ Hgety).
      eapply store_returns; [apply lookup_insert_eq|].
      by rewrite Nat2Z.id, length_insert.
    + unfold s. rewrite insert_insert_eq, Nat2Z.id, list_insert_insert_eq.
      do 2 f_equal. rewrite seqZ_S, fold_left_app. cbn. rewrite Z.add_0_l.
      fold acc. unfold step.
      by rewrite (cell_lookup _ _ _ _ _ Hx), (cell_lookup _ _ _ _ _ Hy).
  - rewrite Hrun. rewrite Z.sub_0_r, Z2Nat.id by lia. reflexivity.
Qed.

Lemma matmul_cells_lookup xs ys (m k n i j : Z) :
  0 ≤ i < m → 0 ≤ j < n →
  matmul_cells xs ys m k n !! Z.to_nat (i * n + j) = Some (dot_product xs ys k n i j).
Proof.
  intros Hi Hj. unfold matmul_cells. rewrite list_lookup_fmap.
  rewrite lookup_seqZ_lt by nia. cbn. rewrite Z.add_0_l, Z2Nat.id by nia.
  do 2 f_equal.
  - symmetry. apply (Z.div_unique _ _ _ j); lia.
  - symmetry. apply (Z.mod_unique _ _ i j); lia.
Qed.

Lemma matmul_cells_update_prefix xs ys zs (m k n : Z) :
  0 ≤ m → 0 ≤ n → Z.of_nat (length zs) = m * n →
  update_prefix (λ f _, dot_product xs ys k n (Z.of_nat f / n) (Z.of_nat f mod n))
    (Z.to_nat (m * n)) zs
  = matmul_cells xs ys m k n.
Proof.
  intros Hm Hn Hlen. apply list_eq. intros f.
  rewrite update_prefix_lookup. unfold matmul_cells. rewrite list_lookup_fmap.
  destruct (decide (f < length zs)%nat) as [Hf | Hf].
  - destruct (lookup_lt_is_Some_2 zs f Hf) as [z ->].
    rewrite lookup_seqZ_lt by lia. cbn. rewrite decide_True by lia.
    by rewrite Z.add_0_l.
  - rewrite lookup_ge_None_2 by lia. rewrite lookup_seqZ_ge by lia. done.
Qed.

End MatMul.

Section MatMulLoops.
Context {D : Type} `{!Double D}.
Implicit Types (h : heap D) (xs ys zs : list D) (a b dest : matrix).

(** The three nested loops visit the cells of [dest] in row-major order,
    [field] = 0, 1, 2, ..., and leave each with its sum of products. *)
Lemma matmul_loops h a b dest pa pb pd xs ys zs :
  valid_matrix h a pa xs → valid_matrix h b pb ys → valid_matrix h dest pd zs →
  width a = height b → height dest = height a → width dest = width b →
  pd ≠ pa → pd ≠ pb →
  for_range 0 (height dest) (λ row,
    for_range 0 (width dest) (λ col,
      let field := to_size_t (row * width dest + col) in
      store (values dest) field d_zero ;;
      for_range 0 (width a) (λ i,
        let* acc := load (values dest) field in
        let* x := matrix_get a row i in
        let* y := matrix_get b i col in
        store (values dest) field (d_add acc (d_mul x y))))) h
  = Returns (tt, <[pd := matmul_cells xs ys (height a) (width a) (width b)]> h).
Proof.
  intros Ha Hb Hd Hab Hdh Hdw Hda Hdb.
  pose proof (valid_height _ _ _ _ Hd) as Hm. pose proof (valid_width _ _ _ _ Hd) as Hn.
  pose proof (valid_length _ _ _ _ Hd) as Hlen. pose proof (valid_values _ _ _ _ Hd) as Hpd.
  pose proof (valid_block _ _ _ _ Hd) as Hblock.
  set (g := λ (f : nat) (_ : D),
         dot_product xs ys (width a) (width b) (Z.of_nat f / width b) (Z.of_nat f mod width b)).
  set (N := Z.to_nat (width dest)).
  destruct (for_range_invariant
    (λ r s, s = <[pd := update_prefix g (r * N) zs]> h) 0 (height dest)
    (λ row,
      for_range 0 (width dest) (λ col,
        let field := to_size_t (row * width dest + col) in
        store (values dest) field d_zero ;;
        for_range 0 (width a) (λ i,
          let* acc := load (values dest) field in
          let* x := matrix_get a row i in
          let* y := matrix_get b i col in
          store (values dest) field (d_add acc (d_mul x y))))) h) as (s & Hrun & ->).
  - rewrite Nat.mul_0_l, update_prefix_0. symmetry. by apply insert_id.
  - intros r s Hr ->. rewrite Z.add_0_l in *.
    destruct (for_range_invariant
      (λ c s, s = <[pd := update_prefix g (r * N + c) zs]> h) 0 (width dest)
      (λ col,
        let field := to_size_t (Z.of_nat r * width dest + col) in
        store (values dest) field d_zero ;;
        for_range 0 (width a) (λ i,
          let* acc := load (values dest) field in
          let* x := matrix_get a (Z.of_nat r) i in
          let* y := matrix_get b i col in
          store (values dest) field (d_add acc (d_mul x y))))
      (<[pd := update_prefix g (r * N) zs]> h)) as (s & Hrun & ->).
    + by rewrite Nat.add_0_r.
    + intros c s Hc ->. rewrite Z.add_0_l in *.
      destruct (cell_index_bounds h dest pd zs (Z.of_nat r) (Z.of_nat c) Hd)
        as [Hidx Hwrap]; [lia..|].
      set (field := (r * N + c)%nat).
      assert (Z.of_nat r * width dest + Z.of_nat c = Z.of_nat field) as Hfield
        by (unfold field, N; nia).
      cbn zeta. rewrite Hwrap, Hfield, Hpd.
      set (cur := update_prefix g field zs).
      destruct (lookup_lt_is_Some_2 zs field) as [z Hz]; [lia|].
      assert (field < length cur)%nat as Hcur
        by (unfold cur; rewrite update_prefix_length; lia).
      set (s1 := <[pd := <[field := d_zero]> cur]> h).
      eexists. split.
      * rewrite (bind_returns _ _ _ tt s1).
        2:{ erewrite store_returns; [|apply lookup_insert_eq|by rewrite Nat2Z.id].
            by rewrite insert_insert_eq, Nat2Z.id. }
        eapply (accumulate_products s1 a b pa pb pd xs ys (<[field := d_zero]> cur)
                  (Z.of_nat r) (Z.of_nat c) field d_zero);
          try done; try lia.
        -- by apply valid_matrix_insert_ne.
        -- by apply valid_matrix_insert_ne.
        -- apply lookup_insert_eq.
        -- by apply list_lookup_insert_eq.
      * unfold s1. rewrite insert_insert_eq, list_insert_insert_eq.
        f_equal. replace (r * N + Datatypes.S c)%nat with (Datatypes.S field) by (unfold field; lia).
        rewrite <- (update_prefix_S g field zs z Hz). f_equal. unfold g.
        rewrite <- Hfield, Hdw.
        assert ((Z.of_nat r * width b + Z.of_nat c) `div` width b = Z.of_nat r) as ->
          by (symmetry; apply (Z.div_unique _ _ _ (Z.of_nat c)); lia).
        assert ((Z.of_nat r * width b + Z.of_nat c) `mod` width b = Z.of_nat c) as ->
          by (symmetry; apply (Z.mod_unique _ _ (Z.of_nat r) (Z.of_nat c)); lia).
        reflexivity.
    + eexists. split; [exact Hrun|].
      by replace (r * N + Z.to_nat (width dest - 0))%nat with (Datatypes.S r * N)%nat
        by (unfold N; lia).
  - rewrite Hrun.
    rewrite <- (matmul_cells_update_prefix xs ys zs (height a) (width a) (width b)); try lia.
    fold g.
    by replace (Z.to_nat (height dest - 0) * N)%nat with (Z.to_nat (height a * width b))
      by (unfold N; nia).
Qed.

End MatMulLoops.

(** C4, amended: for valid [a] ([m × k]) and [b] ([k × n]) with [a.width =
    b.height], [matrix_matmul_into] on a valid [dest] of [m × n] cells that
    shares its block with neither operand returns and leaves in the block of
    [dest] the cells of the product, no other block being written; cell
    [(i, j)] of these is the sum over [t = 0 .. k-1] of [a[i][t] * b[t][j]]
    accumulated from [0.0] in increasing [t].  [matrix_matmul], when the
    request of [8·m·n] bytes fits [size_t] and [malloc] grants it, returns
    an [m × n] matrix on a fresh block holding these same cells, and it
    aborts when [malloc] returns [NULL].  In binary64,
    [[1,2],[3,4]] × [[5],[6]] = [[17],[39]]. *)
Theorem matrix_matmul_sums_products {D : Type} `{!Double D} `{!Libc D}
    (a b : matrix) (h : heap D) (pa pb : positive) (xs ys : list D) :
  valid_matrix h a pa xs → valid_matrix h b pb ys → width a = height b →
  (∀ dest pd zs,
     valid_matrix h dest pd zs → height dest = height a → width dest = width b →
     pd ≠ pa → pd ≠ pb →
     matrix_matmul_into a b dest h
     = Returns (tt, <[pd := matmul_cells xs ys (height a) (width a) (width b)]> h)) ∧
  (8 * (height a * width b) ≤ SIZE_MAX →
     if malloc_fails h (8 * (height a * width b))
     then matrix_matmul a b h = Aborts
     else matrix_matmul a b h
          = Returns ({| height := height a; width := width b;
                        values := Some (fresh (dom h)) |},
                     <[fresh (dom h) := matmul_cells xs ys (height a) (width a) (width b)]> h)) ∧
  Z.of_nat (length (matmul_cells xs ys (height a) (width a) (width b)))
  = height a * width b ∧
  (∀ i j, 0 ≤ i < height a → 0 ≤ j < width b →
     matmul_cells xs ys (height a) (width a) (width b) !! Z.to_nat (i * width b + j)
     = Some (fold_left (λ acc t, d_add acc (d_mul (cell xs (width a) i t)
                                               (cell ys (width b) t j)))
               (seqZ 0 (width a)) d_zero)) ∧
  matrix_matmul {| height := 2; width := 2; values := Some 1%positive |}
                {| height := 2; width := 1; values := Some 2%positive |}
                ({[ 1%positive := [1; 2; 3; 4]; 2%positive := [5; 6] ]} : heap float)%float
  = Returns ({| height := 2; width := 1; values := Some 3%positive |},
             {[ 1%positive := [1; 2; 3; 4]; 2%positive := [5; 6];
                3%positive := [17; 39] ]}%float).
Proof.
  intros Ha Hb Hab.
  pose proof (valid_height _ _ _ _ Ha) as Hm. pose proof (valid_width _ _ _ _ Hb) as Hn.
  assert (∀ h' dest pd zs,
     valid_matrix h' a pa xs → valid_matrix h' b pb ys →
     valid_matrix h' dest pd zs → height dest = height a → width dest = width b →
     pd ≠ pa → pd ≠ pb →
     matrix_matmul_into a b dest h'
     = Returns (tt, <[pd := matmul_cells xs ys (height a) (width a) (width b)]> h')) as Hinto.
  { intros h' dest pd zs Ha' Hb' Hd Hdh Hdw Hda Hdb.
    pose proof (matmul_loops h' a b dest pa pb pd xs ys zs
                  Ha' Hb' Hd Hab Hdh Hdw Hda Hdb) as Hloops.
    unfold matrix_matmul_into.
    rewrite (valid_values _ _ _ _ Ha'), (valid_values _ _ _ _ Hb'),
      (valid_values _ _ _ _ Hd).
    rewrite (valid_values _ _ _ _ Hd) in Hloops.
    cbn [is_null negb].
    rewrite (proj2 (Z.eqb_eq _ _) Hab), (proj2 (Z.eqb_eq _ _) Hdh),
      (proj2 (Z.eqb_eq _ _) Hdw), !assert_true.
    exact Hloops. }
  split; [|split; [|split; [|split]]].
  - intros dest pd zs. by apply Hinto.
  - intros Hfit. destruct (malloc_fails h (8 * (height a * width b))) eqn:Hmalloc.
    + unfold matrix_matmul.
      rewrite (valid_values _ _ _ _ Ha), (valid_values _ _ _ _ Hb).
      cbn [is_null negb]. rewrite (proj2 (Z.eqb_eq _ _) Hab), !assert_true.
      apply bind_aborts. unfold matrix_new.
      assert (to_size_t (to_size_t (8 * height a) * width b) = 8 * (height a * width b)) as ->.
      { unfold to_size_t. rewrite Z.mul_mod_idemp_l by done.
        rewrite <- Z.mul_assoc. apply Z.mod_small. unfold SIZE_MAX in Hfit. nia. }
      unfold bind at 1. unfold malloc. by rewrite Hmalloc.
    + unfold matrix_matmul.
      rewrite (valid_values _ _ _ _ Ha), (valid_values _ _ _ _ Hb).
      cbn [is_null negb]. rewrite (proj2 (Z.eqb_eq _ _) Hab), !assert_true.
      rewrite (bind_returns _ _ _ _ _
                 (matrix_new_returns h (height a) (width b) ltac:(lia) ltac:(lia) Hfit Hmalloc)).
      set (p := fresh (dom h)).
      assert (h !! p = None) as Hfresh.
      { apply not_elem_of_dom. apply is_fresh. }
      assert (p ≠ pa) as Hpa.
      { intros ->. by rewrite (valid_block _ _ _ _ Ha) in Hfresh. }
      assert (p ≠ pb) as Hpb.
      { intros ->. by rewrite (valid_block _ _ _ _ Hb) in Hfresh. }
      set (junk := replicate (Z.to_nat (height a * width b)) indeterminate).
      erewrite bind_returns.
      2:{ apply (Hinto (<[p := junk]> h)
                   {| height := height a; width := width b; values := Some p |} p junk);
            try done.
          - apply valid_matrix_insert_ne; done.
          - apply valid_matrix_insert_ne; done.
          - split; cbn [height width values]; try done.
            + apply lookup_insert_eq.
            + unfold SIZE_MAX in *. nia.
            + unfold junk. rewrite length_replicate. nia. }
      unfold ret. by rewrite insert_insert_eq.
  - unfold matmul_cells. rewrite length_map, length_seqZ. nia.
  - intros i j Hi Hj. by rewrite matmul_cells_lookup.
  - vm_compute. reflexivity.
Qed.

(** [[1,2],[3,4]] × [[5],[6]] in binary64. *)
Lemma matrix_matmul_sums_products_witness :
  matrix_matmul_into
    {| height := 2; width := 2; values := Some 1%positive |}
    {| height := 2; width := 1; values := Some 2%positive |}
    {| height := 2; width := 1; values := Some 3%positive |}
    ({[ 1%positive := [1; 2; 3; 4]; 2%positive := [5; 6]; 3%positive := [0; 0] ]} : heap float)%float
  = Returns (tt, {[ 1%positive := [1; 2; 3; 4]; 2%positive := [5; 6];
                    3%positive := [17; 39] ]}%float).
Proof.
  set (h := ({[ 1%positive := [1; 2; 3; 4]; 2%positive := [5; 6];
                3%positive := [0; 0] ]} : heap float)%float).
  assert (valid_matrix h {| height := 2; width := 2; values := Some 1%positive |}
            1%positive [1; 2; 3; 4]%float) as Ha
    by (apply valid_matrix_singleton; vm_compute; try split; congruence).
  assert (valid_matrix h {| height := 2; width := 1; values := Some 2%positive |}
            2%positive [5; 6]%float) as Hb
    by (apply valid_matrix_singleton; vm_compute; try split; congruence).
  assert (valid_matrix h {| height := 2; width := 1; values := Some 3%positive |}
            3%positive [0; 0]%float) as Hd
    by (apply valid_matrix_singleton; vm_compute; try split; congruence).
  rewrite (proj1 (matrix_matmul_sums_products _ _ h _ _ _ _ Ha Hb eq_refl)
             _ _ _ Hd eq_refl eq_refl ltac:(discriminate) ltac:(discriminate)).
  vm_compute. reflexivity.
Defined.

(** C4 as stated fails where [dest] shares its block with an operand:
    the cells of [a] are overwritten while they are still read, and
    [[1,2],[3,4]] × [[5,6],[7,8]] with [dest = a] leaves
    [[14,756],[28,1512]], not the product [[19,22],[43,50]].  It fails
    too where the byte count of the result wraps around: for a valid [a]
    of [2^61] rows without columns and a valid [b] of one column without
    rows, [matrix_matmul] gets a block of 0 bytes for a matrix of [2^61]
    cells and writes outside it. *)
Lemma matrix_matmul_overwrites_operand :
  valid_matrix ({[ 1%positive := [1; 2; 3; 4]; 2%positive := [5; 6; 7; 8] ]} : heap float)%float
    {| height := 2; width := 2; values := Some 1%positive |} 1%positive [1; 2; 3; 4]%float ∧
  valid_matrix ({[ 1%positive := [1; 2; 3; 4]; 2%positive := [5; 6; 7; 8] ]} : heap float)%float
    {| height := 2; width := 2; values := Some 2%positive |} 2%positive [5; 6; 7; 8]%float ∧
  matrix_matmul_into {| height := 2; width := 2; values := Some 1%positive |}
                     {| height := 2; width := 2; values := Some 2%positive |}
                     {| height := 2; width := 2; values := Some 1%positive |}
    ({[ 1%positive := [1; 2; 3; 4]; 2%positive := [5; 6; 7; 8] ]} : heap float)%float
  = Returns (tt, {[ 1%positive := [14; 756; 28; 1512];
                    2%positive := [5; 6; 7; 8] ]}%float) ∧
  matmul_cells [1; 2; 3; 4]%float [5; 6; 7; 8]%float 2 2 2 = [19; 22; 43; 50]%float ∧
  valid_matrix ({[ 1%positive := []; 2%positive := [] ]} : heap float)
    {| height := 2 ^ 61; width := 0; values := Some 1%positive |} 1%positive [] ∧
  valid_matrix ({[ 1%positive := []; 2%positive := [] ]} : heap float)
    {| height := 0; width := 1; values := Some 2%positive |} 2%positive [] ∧
  matrix_matmul {| height := 2 ^ 61; width := 0; values := Some 1%positive |}
                {| height := 0; width := 1; values := Some 2%positive |}
                ({[ 1%positive := []; 2%positive := [] ]} : heap float)
  = Undefined.
Proof.
  split; [apply valid_matrix_singleton; vm_compute; try split; congruence|].
  split; [apply valid_matrix_singleton; vm_compute; try split; congruence|].
  split; [vm_compute; reflexivity|]. split; [vm_compute; reflexivity|].
  split; [apply valid_matrix_singleton; vm_compute; try split; congruence|].
  split; [apply valid_matrix_singleton; vm_compute; try split; congruence|].
  set (h := ({[ 1%positive := []; 2%positive := [] ]} : heap float)).
  unfold matrix_matmul. cbn [values is_null negb height width].
  change (0 =? 0) with true. rewrite !assert_true.
  assert (matrix_new (2 ^ 61) 1 h
          = Returns ({| height := 2 ^ 61; width := 1; values := Some 3%positive |},
                     <[3%positive := []]> h)) as Hnew by (vm_compute; reflexivity).
  rewrite (bind_returns _ _ _ _ _ Hnew). apply bind_undefined.
  unfold matrix_matmul_into. cbn [values is_null negb height width].
  change (0 =? 0) with true. change (2 ^ 61 =? 2 ^ 61) with true.
  change (1 =? 1) with true. rewrite !assert_true.
  apply for_range_first_undefined; [done|]. vm_compute. reflexivity.
Qed.

(** ** Transposition: the vector path *)

(** C5, at a column of [2^31] rows: the height passes through [int temp]
    and comes back as [2^64 - 2^31], so the new width is not the old
    height.  The buffer is not touched. *)
Theorem transpose_column_truncates_height {D : Type} `{stack : !Stack}
    (fuel : nat) (p : positive) (h : heap D) :
  matrix_transpose fuel {| height := 2 ^ 31; width := 1; values := Some p |} h
  = Returns ({| height := 1; width := 2 ^ 64 - 2 ^ 31; values := Some p |}, h).
Proof. reflexivity. Qed.

(** Where the height fits [int], the vector path exchanges the two
    dimensions and leaves the heap alone. *)
Lemma transpose_vector {D : Type} `{stack : !Stack} (fuel : nat) (m : matrix) (h : heap D) :
  values m ≠ None → width m = 1 ∨ height m = 1 → 0 ≤ height m < 2 ^ 31 →
  matrix_transpose fuel m h
  = Returns ({| height := width m; width := height m; values := values m |}, h).
Proof.
  intros Hnn Hvec Hint. unfold matrix_transpose.
  destruct (values m) as [p|] eqn:Hp; [|done]. cbn [is_null negb].
  rewrite assert_true.
  assert ((width m =? 1) || (height m =? 1) = true) as ->.
  { destruct Hvec as [-> | ->]; [done | apply orb_true_r]. }
  unfold matrix__transpose_single_col_or_row.
  assert ((width m =? 1) || (height m =? 1) = true) as ->.
  { destruct Hvec as [-> | ->]; [done | apply orb_true_r]. }
  rewrite assert_true, Hp. unfold ret. do 3 f_equal.
  unfold to_int, to_size_t.
  rewrite (Z.mod_small (height m + 2 ^ 31)) by lia.
  rewrite Z.mod_small; lia.
Qed.

(** ** Transposition: rectangles without elements *)

(** C9: a matrix of height 0 and width at least 2 (or width 0 and height
    at least 2) has length 0; [matrix_transpose] hands it to the
    small-rectangle path, where [size] wraps to [SIZE_MAX], the assertion
    [size < 64] fails, and the call aborts whatever the fuel. *)
Theorem transpose_empty_rectangle_aborts {D : Type} `{stack : !Stack}
    (fuel : nat) (m : matrix) (h : heap D) :
  (height m = 0 ∧ 2 ≤ width m) ∨ (width m = 0 ∧ 2 ≤ height m) →
  matrix_len m = 0 ∧
  to_size_t (matrix_len m - 1) = SIZE_MAX ∧
  (values m ≠ None →
   matrix_transpose fuel m h = matrix__transpose_small_rectangle fuel m h) ∧
  matrix__transpose_small_rectangle fuel m h = Aborts ∧
  matrix_transpose fuel m h = Aborts.
Proof.
  intros Hshape.
  assert (matrix_len m = 0) as Hlen.
  { unfold matrix_len. destruct Hshape as [[-> _] | [-> _]]; [done|].
    by rewrite Z.mul_0_r. }
  assert (matrix__transpose_small_rectangle fuel m h = Aborts) as Hsmall.
  { unfold matrix__transpose_small_rectangle. by rewrite Hlen. }
  assert ((width m =? 1) || (height m =? 1) = false) as Hvec.
  { apply orb_false_intro; apply Z.eqb_neq; lia. }
  assert ((width m =? height m) = false) as Hsq by (apply Z.eqb_neq; lia).
  assert (values m ≠ None →
          matrix_transpose fuel m h = matrix__transpose_small_rectangle fuel m h) as Hdisp.
  { intros Hnn. unfold matrix_transpose.
    destruct (values m) eqn:Hp; [|done]. cbn [is_null negb].
    rewrite assert_true, Hvec, Hsq, Hlen. reflexivity. }
  repeat split; try done.
  - by rewrite Hlen.
  - destruct (values m) eqn:Hp.
    + rewrite Hdisp; done.
    + unfold matrix_transpose. rewrite Hp. reflexivity.
Qed.

(** On the 0 × 2 matrix. *)
Lemma transpose_empty_rectangle_aborts_witness :
  matrix_len {| height := 0; width := 2; values := Some 1%positive |} = 0 ∧
  to_size_t (matrix_len {| height := 0; width := 2; values := Some 1%positive |} - 1) = SIZE_MAX ∧
  (values {| height := 0; width := 2; values := Some 1%positive |} ≠ None →
   matrix_transpose 5 {| height := 0; width := 2; values := Some 1%positive |}
     ({[ 1%positive := [] ]} : heap Z)
   = matrix__transpose_small_rectangle 5 {| height := 0; width := 2; values := Some 1%positive |}
       {[ 1%positive := [] ]}) ∧
  matrix__transpose_small_rectangle 5 {| height := 0; width := 2; values := Some 1%positive |}
    ({[ 1%positive := [] ]} : heap Z) = Aborts ∧
  matrix_transpose 5 {| height := 0; width := 2; values := Some 1%positive |}
    ({[ 1%positive := [] ]} : heap Z) = Aborts.
Proof.
  apply (transpose_empty_rectangle_aborts 5
           {| height := 0; width := 2; values := Some 1%positive |}
           ({[ 1%positive := [] ]} : heap Z)).
  left. cbn. lia.
Defined.

(** ** Transposition: the permutation of the flat indices *)

Section Permutation.
Variables (H W size : Z).
Hypothesis Hrows : 2 ≤ H.
Hypothesis Hcols : 2 ≤ W.
Hypothesis Hsize : size = H * W - 1.

Lemma size_ge_3 : 3 ≤ size.
Proof. nia. Qed.

Lemma transpose_index_range i : 0 ≤ transpose_index H size i < size.
Proof. unfold transpose_index. apply Z.mod_pos_bound. pose proof size_ge_3. lia. Qed.

(** Multiplying by [W] undoes multiplying by [H] modulo [size], since
    [H * W = size + 1]. *)
Lemma transpose_index_inverse i :
  0 ≤ i < size → transpose_index W size (transpose_index H size i) = i.
Proof.
  intros Hi. unfold transpose_index. pose proof size_ge_3.
  rewrite Z.mul_mod_idemp_l by lia.
  replace (i * H * W) with (i + i * size) by nia.
  rewrite Z.mod_add by lia. apply Z.mod_small. done.
Qed.

End Permutation.

Section PermutationFacts.
Variables (H W size : Z).
Hypothesis Hrows : 2 ≤ H.
Hypothesis Hcols : 2 ≤ W.
Hypothesis Hsize : size = H * W - 1.

Lemma transpose_index_inverse' i :
  0 ≤ i < size → transpose_index H size (transpose_index W size i) = i.
Proof. intros Hi. apply (transpose_index_inverse W H size); [done | done | lia | done]. Qed.

Lemma transpose_index_0 : transpose_index H size 0 = 0.
Proof. unfold transpose_index. by rewrite Z.mul_0_l, Z.mod_0_l by (pose proof (size_ge_3 H W size); lia). Qed.

Lemma transpose_index_inj i j :
  0 ≤ i < size → 0 ≤ j < size →
  transpose_index H size i = transpose_index H size j → i = j.
Proof.
  intros Hi Hj Heq.
  rewrite <- (transpose_index_inverse H W size Hrows Hcols Hsize i Hi).
  rewrite <- (transpose_index_inverse H W size Hrows Hcols Hsize j Hj).
  by rewrite Heq.
Qed.

(** The indices strictly between [0] and [size] are permuted among
    themselves. *)
Lemma transpose_index_inner i :
  0 < i < size → 0 < transpose_index H size i < size.
Proof.
  intros Hi. pose proof (transpose_index_range H W size Hrows Hcols Hsize i) as Hr.
  destruct (decide (transpose_index H size i = 0)) as [H0|]; [|lia].
  assert (i = 0); [|lia].
  apply transpose_index_inj; [lia | pose proof (size_ge_3 H W size); lia |].
  by rewrite transpose_index_0.
Qed.

(** The cell of row [r] and column [c] goes to row [c] and column [r]. *)
Lemma transpose_index_cell r c :
  0 ≤ r < H → 0 ≤ c < W → 0 < r * W + c < size →
  transpose_index H size (r * W + c) = c * H + r.
Proof.
  intros Hr Hc Hi. unfold transpose_index.
  replace ((r * W + c) * H) with (c * H + r + r * size) by nia.
  rewrite Z.mod_add by lia. apply Z.mod_small. nia.
Qed.

End PermutationFacts.

(** ** Transposition: counting the indices still to move *)

Section Unmarked.

Lemma filter_length_agree (P Q : Z → Prop) `{!∀ x, Decision (P x)} `{!∀ x, Decision (Q x)}
    (l : list Z) :
  (∀ x, x ∈ l → (Q x ↔ P x)) → length (filter P l) = length (filter Q l).
Proof.
  induction l as [|x l IH]; intros HQ; [done|].
  assert (length (filter P l) = length (filter Q l)) as IH'
    by (apply IH; intros y Hy; apply HQ; by right).
  destruct (decide (P x)) as [HPx | HPx].
  - rewrite filter_cons_True by done.
    rewrite (filter_cons_True Q) by (apply HQ; [left | done]).
    cbn [length]. by rewrite IH'.
  - rewrite filter_cons_False by done.
    rewrite (filter_cons_False Q); [done|].
    intros HQx. apply HPx. apply HQ; [left | done].
Qed.

Lemma filter_length_remove (P Q : Z → Prop) `{!∀ x, Decision (P x)} `{!∀ x, Decision (Q x)}
    (l : list Z) (i : Z) :
  NoDup l → i ∈ l → P i → (∀ x, x ∈ l → (Q x ↔ P x ∧ x ≠ i)) →
  length (filter P l) = Datatypes.S (length (filter Q l)).
Proof.
  induction l as [|x l IH]; intros Hnd Hin HPi HQ.
  - by apply elem_of_nil in Hin.
  - apply list.NoDup_cons in Hnd as [Hx Hnd].
    assert (∀ y, y ∈ l → Q y ↔ P y ∧ y ≠ i) as HQ' by (intros y Hy; apply HQ; by right).
    destruct (decide (x = i)) as [-> | Hne].
    + rewrite filter_cons_True by done.
      rewrite (filter_cons_False Q).
      2:{ intros HQi. apply HQ in HQi; [|left]. by destruct HQi. }
      cbn [length]. f_equal. apply filter_length_agree.
      intros y Hy. rewrite HQ' by done.
      split; [by intros [? _] | intros HP; split; [done | by intros ->]].
    + apply elem_of_cons in Hin as [-> | Hin]; [done|].
      destruct (decide (P x)) as [HPx | HPx].
      * rewrite filter_cons_True by done.
        rewrite (filter_cons_True Q) by (apply HQ; [left | done]).
        cbn [length]. f_equal. by apply IH.
      * rewrite filter_cons_False by done.
        rewrite (filter_cons_False Q).
        2:{ intros HQx. apply HQ in HQx; [|left]. by destruct HQx. }
        by apply IH.
Qed.

(** Marking an index that was not marked leaves one index less to move. *)
Lemma unmarked_mark (mem mem' : Z → bool) (size i : Z) :
  0 < i < size → mem i = false →
  (∀ j, 0 < j < size → mem' j = (j =? i) || mem j) →
  unmarked mem size = Datatypes.S (unmarked mem' size).
Proof.
  intros Hi Hmi Hmem'. unfold unmarked.
  apply (filter_length_remove _ _ _ i).
  - apply NoDup_seqZ.
  - apply elem_of_seqZ. lia.
  - done.
  - intros x Hx. apply elem_of_seqZ in Hx. rewrite Hmem' by lia.
    destruct (Z.eqb_spec x i) as [-> | Hne]; cbn.
    + split; [done | intros [_ ?]; done].
    + split; [done | intros [? _]; done].
Qed.

Lemma unmarked_all_marked (mem : Z → bool) (size : Z) :
  unmarked mem size = 0%nat → ∀ j, 0 < j < size → mem j = true.
Proof.
  unfold unmarked. intros H0 j Hj. apply length_zero_iff_nil in H0.
  destruct (mem j) eqn:Hm; [done|].
  assert (j ∈ filter (λ j, mem j = false) (seqZ 1 (size - 1))) as Hin.
  { apply list_elem_of_filter. split; [done|]. apply elem_of_seqZ. lia. }
  rewrite H0 in Hin. by apply elem_of_nil in Hin.
Qed.

End Unmarked.

(** ** Transposition: the cycle-following loops *)

Section CycleProofs.
Context {D B : Type}.
Variable set_bit : B → Z → option B.
Variable has_bit : B → Z → option bool.
(** The representation invariant of the set and its membership test. *)
Variable good : B → Prop.
Variable mem : B → Z → bool.
Variables (H W size : Z).
Hypothesis Hrows : 2 ≤ H.
Hypothesis Hcols : 2 ≤ W.
Hypothesis Hsize : size = H * W - 1.
(** No product [i * m->height] of the loops wraps around. *)
Hypothesis Hfit : (size - 1) * H < 2 ^ 64.
Hypothesis has_spec : ∀ set i,
  good set → 0 < i < size → has_bit set i = Some (mem set i).
Hypothesis set_spec : ∀ set i,
  good set → 0 < i < size →
  ∃ set', set_bit set i = Some set' ∧ good set' ∧
          ∀ j, 0 < j < size → mem set' j = (j =? i) || mem set j.
Variable p : positive.
Variable h0 : heap D.
Variable orig : list D.
Hypothesis Horig : Z.of_nat (length orig) = size + 1.

Local Abbreviation between_cycles := (between_cycles good mem H W size orig).
Local Abbreviation within_cycle := (within_cycle good mem H W size orig).

Lemma size_lt_wrap : 3 ≤ size < 2 ^ 64.
Proof. pose proof (size_ge_3 H W size Hrows Hcols Hsize). nia. Qed.

Lemma next_index i :
  0 < i < size →
  c_mod (to_size_t (i * H)) size = Some (transpose_index H size i).
Proof.
  intros Hi. pose proof size_lt_wrap. unfold c_mod.
  destruct (Z.eqb_spec size 0); [lia|]. unfold to_size_t, transpose_index.
  rewrite (Z.mod_small (i * H)) by nia. reflexivity.
Qed.

Lemma unmarked_positive (set : B) i :
  0 < i < size → mem set i = false → (0 < unmarked (mem set) size)%nat.
Proof.
  intros Hi Hm. destruct (unmarked (mem set) size) eqn:Hu; [|lia].
  rewrite (unmarked_all_marked _ _ Hu i Hi) in Hm. done.
Qed.

(** One turn of the [do]-[while] loop. *)
Lemma follow_cycle_step cur set c i temp :
  within_cycle cur set c i temp →
  let next := transpose_index H size i in
  ∃ swap_temp set',
    cur !! Z.to_nat next = Some swap_temp ∧
    (Z.to_nat next < length cur)%nat ∧
    set_bit set i = Some set' ∧
    unmarked (mem set) size = Datatypes.S (unmarked (mem set') size) ∧
    (next = c → between_cycles (<[Z.to_nat next := temp]> cur) set') ∧
    (next ≠ c → within_cycle (<[Z.to_nat next := temp]> cur) set' c next swap_temp).
Proof.
  intros [Hgood Hlen Hmoved Hkept Hfirst Hlast Hc Hi Htemp Hun Hfw Hbw Hst] next.
  pose proof size_lt_wrap as Hsz.
  pose proof (transpose_index_inner H W size Hrows Hcols Hsize i Hi) as Hnext.
  fold next in Hnext.
  assert (transpose_index W size next = i) as Hback
    by (apply (transpose_index_inverse H W size); [done.. | lia]).
  assert (Z.to_nat next < length cur)%nat as Hnext_lt by lia.
  destruct (lookup_lt_is_Some_2 cur (Z.to_nat next) Hnext_lt) as [swap_temp Hswap].
  destruct (set_spec set i Hgood Hi) as (set' & Hset & Hgood' & Hmem').
  assert (cur !! Z.to_nat next = orig !! Z.to_nat next) as Hnext_orig.
  { apply Hkept; [done|]. by rewrite Hback. }
  assert (∀ j, 0 < j < size → j ≠ i →
            Z.to_nat (transpose_index H size j) ≠ Z.to_nat next) as Hother.
  { intros j Hj Hne Heq.
    pose proof (transpose_index_inner H W size Hrows Hcols Hsize j Hj).
    apply Hne. apply (transpose_index_inj H W size); [done.. | lia | lia |].
    fold next. lia. }
  assert (next ≠ c → next ≠ i) as Hnext_ne.
  { intros Hnc Heq. destruct Hst as [-> | [_ Hsi]]; [done|].
    rewrite <- Heq, Hback in Hsi. congruence. }
  assert (∀ j, 0 < j < size → mem set' j = true →
            <[Z.to_nat next := temp]> cur !! Z.to_nat (transpose_index H size j)
            = orig !! Z.to_nat j) as Hmoved'.
  { intros j Hj Hmj. rewrite Hmem' in Hmj by done.
    destruct (Z.eqb_spec j i) as [-> | Hne].
    - fold next. rewrite list_lookup_insert_eq by done. by rewrite Htemp.
    - rewrite list_lookup_insert_ne by (apply not_eq_sym; by apply Hother).
      by apply Hmoved. }
  assert (∀ x, 0 < x < size → mem set' (transpose_index W size x) = false →
            <[Z.to_nat next := temp]> cur !! Z.to_nat x = orig !! Z.to_nat x) as Hkept'.
  { intros x Hx Hmx.
    pose proof (transpose_index_inner W H size Hcols Hrows ltac:(lia) x Hx) as Hsx.
    rewrite Hmem' in Hmx by done. apply orb_false_elim in Hmx as [Hxi Hmx].
    apply Z.eqb_neq in Hxi.
    rewrite list_lookup_insert_ne; [by apply Hkept|].
    intros Heq. apply Hxi. rewrite <- Hback. f_equal. lia. }
  assert (mem set' i = true) as Hmi'
    by (rewrite Hmem' by done; by rewrite Z.eqb_refl).
  assert (∀ j, mem set j = true → 0 < j < size → mem set' j = true) as Hmono.
  { intros j Hmj Hj. rewrite Hmem' by done. rewrite Hmj. apply orb_true_r. }
  assert (mem set' c = true) as Hmc'.
  { destruct Hst as [-> | [Hmc _]]; [done | by apply Hmono]. }
  exists swap_temp, set'.
  split; [done|]. split; [done|]. split; [done|].
  split; [by apply unmarked_mark with i|]. split.
  - intros Hnc. split.
    + done.
    + by rewrite length_insert.
    + done.
    + done.
    + rewrite list_lookup_insert_ne by lia. done.
    + rewrite list_lookup_insert_ne by lia. done.
    + intros j Hj Hmj.
      pose proof (transpose_index_inner H W size Hrows Hcols Hsize j Hj) as Hpj.
      rewrite Hmem' in Hmj by done.
      destruct (Z.eqb_spec j i) as [-> | Hne].
      * fold next. by rewrite Hnc.
      * destruct (Hfw j Hj Hmj) as [Hm | ->]; [by apply Hmono | done].
    + intros j Hj Hmj.
      pose proof (transpose_index_inner W H size Hcols Hrows ltac:(lia) j Hj) as Hsj.
      rewrite Hmem' in Hmj by done.
      destruct (Z.eqb_spec j i) as [-> | Hne].
      * destruct Hst as [-> | [_ Hsi]]; [|by apply Hmono].
        by rewrite <- Hnc, Hback.
      * destruct (Hbw j Hj Hmj) as [Hm | ->]; [by apply Hmono|].
        by rewrite <- Hnc, Hback.
  - intros Hnc. split.
    + done.
    + by rewrite length_insert.
    + done.
    + done.
    + rewrite list_lookup_insert_ne by lia. done.
    + rewrite list_lookup_insert_ne by lia. done.
    + done.
    + done.
    + by rewrite <- Hnext_orig.
    + rewrite Hmem' by done. apply orb_false_intro; [by apply Z.eqb_neq, Hnext_ne|].
      destruct (mem set next) eqn:Hmn; [|done].
      destruct (Hbw next Hnext Hmn) as [Hm | ->]; [|done].
      rewrite Hback in Hm. congruence.
    + intros j Hj Hmj.
      pose proof (transpose_index_inner H W size Hrows Hcols Hsize j Hj) as Hpj.
      rewrite Hmem' in Hmj by done.
      destruct (Z.eqb_spec j i) as [-> | Hne]; [by right|].
      destruct (Hfw j Hj Hmj) as [Hm | ->]; [left; by apply Hmono | by left].
    + intros j Hj Hmj.
      pose proof (transpose_index_inner W H size Hcols Hrows ltac:(lia) j Hj) as Hsj.
      rewrite Hmem' in Hmj by done.
      destruct (Z.eqb_spec j i) as [-> | Hne].
      * destruct Hst as [-> | [_ Hsi]]; [by right | left; by apply Hmono].
      * destruct (Hbw j Hj Hmj) as [Hm | ->]; [left; by apply Hmono | by right].
    + right. split; [done|]. by rewrite Hback.
Qed.

(** The [do]-[while] loop closes the cycle: it returns once the index is
    back at [c], given fuel for as many turns as there are unmarked
    indices. *)
Lemma follow_cycle_returns (n : nat) : ∀ (fuel : nat) cur set c i temp,
  within_cycle cur set c i temp →
  (unmarked (mem set) size ≤ n)%nat → (n ≤ fuel)%nat →
  ∃ cur' set',
    follow_cycle set_bit fuel (Some p) H size c i temp set (<[p := cur]> h0)
    = Returns (set', <[p := cur']> h0) ∧
    between_cycles cur' set' ∧
    (unmarked (mem set') size < unmarked (mem set) size)%nat.
Proof.
  induction n as [|n IH]; intros fuel cur set c i temp Hwc Hn Hfuel.
  - pose proof (unmarked_positive set i (wc_index Hwc) (wc_unmarked Hwc)).
    lia.
  - destruct fuel as [|fuel]; [lia|].
    destruct (follow_cycle_step cur set c i temp Hwc)
      as (swap_temp & set' & Hswap & Hlt & Hset & Hcount & Hexit & Hloop).
    cbn [follow_cycle].
    rewrite (next_index i (wc_index Hwc)), defined_some.
    erewrite bind_returns; [|by eapply load_returns; [apply lookup_insert_eq|]].
    erewrite bind_returns; [|by eapply store_returns; [apply lookup_insert_eq|]].
    rewrite insert_insert_eq, Hset, defined_some.
    destruct (Z.eqb_spec (transpose_index H size i) c) as [Heq | Hne]; cbn [negb].
    + eexists _, set'. split; [reflexivity|]. split; [by apply Hexit | lia].
    + destruct (IH fuel _ set' c _ swap_temp (Hloop Hne)) as (cur' & set'' & Hrun & Hbc & Hlt');
        [lia | lia |].
      exists cur', set''. split; [done|]. split; [done | lia].
Qed.

(** The scan for the next unmarked index stops at the least one from
    [i] on, or at [size] when there is none. *)
Lemma next_cycle_returns (n : nat) : ∀ (fuel : nat) (set : B) (i : Z) (s : heap D),
  good set → 0 < i ≤ size → (Z.to_nat (size - i) ≤ n)%nat → (n < fuel)%nat →
  ∃ i',
    next_cycle has_bit fuel size set i s = Returns (i', s) ∧
    i ≤ i' ≤ size ∧
    (i' < size → mem set i' = false) ∧
    (∀ j, i ≤ j < i' → mem set j = true).
Proof.
  pose proof size_lt_wrap as Hsz.
  induction n as [|n IH]; intros fuel set i s Hgood Hi Hn Hfuel.
  - destruct fuel as [|fuel]; [lia|]. assert (i = size) as -> by lia.
    exists size. cbn [next_cycle]. rewrite Z.ltb_irrefl.
    split; [done|]. split; [lia|]. split; intros; lia.
  - destruct fuel as [|fuel]; [lia|]. cbn [next_cycle].
    destruct (Z.ltb_spec i size) as [Hlt | Hge].
    + rewrite (has_spec set i Hgood) by lia. rewrite defined_some.
      destruct (mem set i) eqn:Hm.
      * assert (to_size_t (i + 1) = i + 1) as ->
          by (unfold to_size_t; apply Z.mod_small; lia).
        destruct (IH fuel set (i + 1) s Hgood) as (i' & Hrun & Hi' & Hstop & Hall);
          [lia | lia | lia |].
        exists i'. split; [done|]. split; [lia|]. split; [done|].
        intros j Hj. destruct (decide (j = i)) as [-> | Hne]; [done|]. apply Hall. lia.
      * exists i. split; [done|]. split; [lia|]. split; [done|]. intros; lia.
    + exists i. split; [done|]. split; [lia|]. split; intros; lia.
Qed.

(** The [while] loop: from a state between cycles, where [i] is the
    least unmarked index (or [size]), it returns once every index is
    marked, and then every cell is at its destination. *)
Lemma transpose_cycles_returns (n : nat) : ∀ (fuel : nat) cur set (i : Z),
  between_cycles cur set →
  0 < i ≤ size → (i < size → mem set i = false) →
  (∀ j, 0 < j < i → mem set j = true) →
  (unmarked (mem set) size ≤ n)%nat → (n + Z.to_nat size < fuel)%nat →
  ∃ cur',
    transpose_cycles set_bit has_bit fuel (Some p) H size i set (<[p := cur]> h0)
    = Returns (tt, <[p := cur']> h0) ∧
    length cur' = length orig ∧
    (∀ j, 0 < j < size →
       cur' !! Z.to_nat (transpose_index H size j) = orig !! Z.to_nat j) ∧
    cur' !! 0%nat = orig !! 0%nat ∧
    cur' !! Z.to_nat size = orig !! Z.to_nat size.
Proof.
  pose proof size_lt_wrap as Hsz.
  induction n as [|n IH]; intros fuel cur set i Hbc Hi Hstop Hall Hn Hfuel.
  - destruct fuel as [|fuel]; [lia|]. cbn [transpose_cycles].
    assert (i = size) as ->.
    { destruct (decide (i = size)); [done|].
      pose proof (unmarked_positive set i ltac:(lia) (Hstop ltac:(lia))). lia. }
    rewrite Z.ltb_irrefl. exists cur. split; [done|].
    destruct Hbc as [_ Hlen Hmoved _ Hfirst Hlast _ _].
    repeat split; try done. intros j Hj. apply Hmoved; [done|]. by apply Hall.
  - destruct fuel as [|fuel]; [lia|]. cbn [transpose_cycles].
    destruct (Z.ltb_spec i size) as [Hlt | Hge].
    + destruct Hbc as [Hgood Hlen Hmoved Hkept Hfirst Hlast Hfw Hbw].
      assert (mem set (transpose_index W size i) = false) as Hpred.
      { destruct (mem set (transpose_index W size i)) eqn:Hm; [|done].
        pose proof (transpose_index_inner W H size Hcols Hrows ltac:(lia) i ltac:(lia)) as Hsi.
        apply Hfw in Hm; [|done].
        rewrite (transpose_index_inverse' H W size Hrows Hcols Hsize) in Hm by lia.
        rewrite Hstop in Hm; done. }
      destruct (lookup_lt_is_Some_2 orig (Z.to_nat i)) as [temp Htemp]; [lia|].
      assert (cur !! Z.to_nat i = Some temp) as Hcur
        by (rewrite <- Htemp; apply Hkept; [lia | done]).
      assert (within_cycle cur set i i temp) as Hwc.
      { split; try done; try lia.
        - by apply Hstop.
        - intros j Hj Hmj. left. by apply Hfw.
        - intros j Hj Hmj. left. by apply Hbw. }
      destruct (follow_cycle_returns (Datatypes.S n) fuel cur set i i temp Hwc)
        as (cur1 & set1 & Hwalk & Hbc1 & Hless); [lia | lia |].
      destruct (next_cycle_returns (Z.to_nat size) fuel set1 1 (<[p := cur1]> h0)
                  (bc_good Hbc1)) as (i1 & Hscan & Hi1 & Hstop1 & Hall1);
        [lia | lia | lia |].
      destruct (IH fuel cur1 set1 i1 Hbc1) as (cur' & Hrun & Hfinal);
        [lia | done | intros j Hj; apply Hall1; lia | lia | lia |].
      exists cur'. split; [|done].
      erewrite bind_returns; [|by eapply load_returns; [apply lookup_insert_eq|]].
      rewrite (bind_returns _ _ _ _ _ Hwalk), (bind_returns _ _ _ _ _ Hscan).
      exact Hrun.
    + assert (i = size) as -> by lia. exists cur. split; [done|].
      destruct Hbc as [_ Hlen Hmoved _ Hfirst Hlast _ _].
      repeat split; try done. intros j Hj. apply Hmoved; [done|]. by apply Hall.
Qed.

End CycleProofs.

(** ** Transposition: the two bit sets *)

Section BitSets.

Lemma one_shifted (l : Z) : 0 ≤ l < 64 → to_uint64 (Z.shiftl 1 l) = 2 ^ l.
Proof.
  intros Hl. rewrite Z.shiftl_1_l. unfold to_uint64. apply Z.mod_small.
  split; [apply Z.pow_nonneg; lia | apply Z.pow_lt_mono_r; lia].
Qed.

Lemma land_pow2_testbit (n l : Z) :
  0 ≤ l → negb (Z.land n (2 ^ l) =? 0) = Z.testbit n l.
Proof.
  intros Hl. destruct (Z.testbit n l) eqn:Hbit.
  - apply negb_true_iff, Z.eqb_neq. intros H0.
    assert (Z.testbit (Z.land n (2 ^ l)) l = true) as Hl'
      by (rewrite Z.land_spec, Hbit, Z.pow2_bits_true; done).
    rewrite H0, Z.bits_0 in Hl'. done.
  - apply negb_false_iff, Z.eqb_eq. apply Z.bits_inj'. intros k Hk.
    rewrite Z.land_spec, Z.bits_0, Z.pow2_bits_eqb by done.
    destruct (Z.eqb_spec l k) as [-> | Hne]; [by rewrite Hbit | apply andb_false_r].
Qed.

Lemma lor_pow2_testbit (n l k : Z) :
  0 ≤ l → Z.testbit (Z.lor n (2 ^ l)) k = (k =? l) || Z.testbit n k.
Proof.
  intros Hl. rewrite Z.lor_spec, Z.pow2_bits_eqb by done.
  rewrite (Z.eqb_sym l k). apply orb_comm.
Qed.

(** The single word, for indices below 64. *)
Lemma word_has_spec (size number i : Z) :
  size < 64 → 0 < i < size → matrix__has_bit number i = Some (word_mem number i).
Proof.
  intros Hsize Hi. unfold matrix__has_bit, word_mem.
  destruct (Z.ltb_spec i 64); [|lia].
  by rewrite one_shifted, land_pow2_testbit by lia.
Qed.

Lemma word_set_spec (size number i : Z) :
  size < 64 → 0 < i < size →
  ∃ number', matrix__set_bit number i = Some number' ∧ True ∧
             ∀ j, 0 < j < size → word_mem number' j = (j =? i) || word_mem number j.
Proof.
  intros Hsize Hi. unfold matrix__set_bit, word_mem.
  destruct (Z.ltb_spec i 64); [|lia].
  eexists. split; [done|]. split; [done|]. intros j Hj.
  by rewrite one_shifted, lor_pow2_testbit by lia.
Qed.

(** The array of words, long enough for the indices below [size]. *)
Lemma bitset_has_spec (size : Z) (bitset : list Z) (i : Z) :
  Z.of_nat (length bitset) = size / 64 + 1 → 0 < i < size →
  matrix__bitset_has bitset i = Some (bitset_mem bitset i).
Proof.
  intros Hlen Hi. unfold matrix__bitset_has, bitset_mem.
  assert (0 ≤ i / 64 ≤ size / 64) as Hword
    by (split; [apply Z.div_pos; lia | apply Z.div_le_mono; lia]).
  destruct (lookup_lt_is_Some_2 bitset (Z.to_nat (i / 64))) as [word ->]; [lia|].
  pose proof (Z.mod_pos_bound i 64 ltac:(lia)).
  cbn [default id]. by rewrite one_shifted, land_pow2_testbit by lia.
Qed.

Lemma bitset_set_spec (size : Z) (bitset : list Z) (i : Z) :
  Z.of_nat (length bitset) = size / 64 + 1 → 0 < i < size →
  ∃ bitset', matrix__bitset_set bitset i = Some bitset' ∧
             Z.of_nat (length bitset') = size / 64 + 1 ∧
             ∀ j, 0 < j < size → bitset_mem bitset' j = (j =? i) || bitset_mem bitset j.
Proof.
  intros Hlen Hi. unfold matrix__bitset_set, bitset_mem.
  assert (0 ≤ i / 64 ≤ size / 64) as Hword
    by (split; [apply Z.div_pos; lia | apply Z.div_le_mono; lia]).
  destruct (lookup_lt_is_Some_2 bitset (Z.to_nat (i / 64))) as [word Hw]; [lia|].
  pose proof (Z.mod_pos_bound i 64 ltac:(lia)) as Hbit.
  rewrite Hw. eexists. split; [done|]. split; [by rewrite length_insert|].
  intros j Hj.
  assert (0 ≤ j / 64) as Hj64 by (apply Z.div_pos; lia).
  pose proof (Z.mod_pos_bound j 64 ltac:(lia)) as Hjbit.
  rewrite one_shifted by lia.
  destruct (decide (j / 64 = i / 64)) as [Heq | Hne].
  - rewrite Heq, list_lookup_insert_eq by (apply lookup_lt_Some in Hw; lia).
    rewrite Hw. cbn [default id]. rewrite lor_pow2_testbit by lia. f_equal.
    destruct (Z.eqb_spec j i) as [-> | Hji].
    + apply Z.eqb_refl.
    + apply Z.eqb_neq. intros Hmod. apply Hji.
      rewrite (Z.div_mod j 64), (Z.div_mod i 64) by lia. lia.
  - rewrite list_lookup_insert_ne by lia.
    destruct (Z.eqb_spec j i) as [-> | Hji]; [done | reflexivity].
Qed.

End BitSets.

(** ** Transposition: the rectangular paths *)

Section Rectangles.
Context {D : Type}.
Implicit Types (h : heap D) (cells : list D) (m : matrix).

Lemma unmarked_le (mem : Z → bool) (size : Z) :
  (unmarked mem size ≤ Z.to_nat (size - 1))%nat.
Proof.
  unfold unmarked. etrans; [apply length_filter|]. by rewrite length_seqZ.
Qed.

(** The loops, started at index 1 with no index marked, permute the
    block as the transposition asks. *)
Lemma transpose_cycles_permutes {B : Type}
    (set_bit : B → Z → option B) (has_bit : B → Z → option bool)
    (good : B → Prop) (mem : B → Z → bool) (H W size : Z) :
  2 ≤ H → 2 ≤ W → size = H * W - 1 → (size - 1) * H < 2 ^ 64 →
  (∀ set i, good set → 0 < i < size → has_bit set i = Some (mem set i)) →
  (∀ set i, good set → 0 < i < size →
     ∃ set', set_bit set i = Some set' ∧ good set' ∧
             ∀ j, 0 < j < size → mem set' j = (j =? i) || mem set j) →
  ∀ (p : positive) h cells (set : B) (fuel : nat),
    h !! p = Some cells → Z.of_nat (length cells) = size + 1 →
    good set → (∀ j, 0 < j < size → mem set j = false) →
    (2 * Z.to_nat size ≤ fuel)%nat →
    ∃ cells',
      transpose_cycles set_bit has_bit fuel (Some p) H size 1 set h
      = Returns (tt, <[p := cells']> h) ∧
      permuted_cells H size cells cells'.
Proof.
  intros Hrows Hcols Hsize Hfit Hhas Hset p h cells set fuel Hp Hlen Hgood Hnone Hfuel.
  assert (3 ≤ size) as Hsz by nia.
  destruct (transpose_cycles_returns set_bit has_bit good mem H W size
              Hrows Hcols Hsize Hfit Hhas Hset p h cells Hlen
              (Z.to_nat (size - 1)) fuel cells set 1) as (cells' & Hrun & Hperm).
  - split; try done.
    + intros j Hj Hm. by rewrite Hnone in Hm.
    + intros j Hj Hm. by rewrite Hnone in Hm.
    + intros j Hj Hm. by rewrite Hnone in Hm.
  - lia.
  - intros _. apply Hnone. lia.
  - intros j Hj. lia.
  - apply unmarked_le.
  - lia.
  - exists cells'. split; [|done]. by rewrite (insert_id h p cells Hp) in Hrun.
Qed.

Lemma permuted_is_transposed (H W size : Z) (orig cur : list D) :
  2 ≤ H → 2 ≤ W → size = H * W - 1 →
  permuted_cells H size orig cur → transposed_cells H W orig cur.
Proof.
  intros Hrows Hcols Hsize (Hlen & Hmoved & Hfirst & Hlast). split; [done|].
  intros r c Hr Hc.
  destruct (decide (r * W + c = 0)) as [H0 | Hn0].
  - assert (r = 0 ∧ c = 0) as [-> ->] by nia. exact Hfirst.
  - destruct (decide (r * W + c = size)) as [Hs | Hns].
    + assert (r = H - 1 ∧ c = W - 1) as [-> ->] by nia.
      replace ((W - 1) * H + (H - 1)) with size by lia.
      replace ((H - 1) * W + (W - 1)) with size by lia. exact Hlast.
    + rewrite <- (transpose_index_cell H W size) by first [done | nia].
      apply Hmoved. nia.
Qed.

End Rectangles.

Section Transposed.
Context {D : Type}.
Implicit Types (orig cur cells : list D).

Lemma transpose_cells_length (H W : Z) cells :
  length (transpose_cells H W cells) = length cells.
Proof. apply length_imap. Qed.

Lemma transpose_cells_lookup (H W : Z) cells (r c : Z) :
  0 ≤ r < H → 0 ≤ c < W → Z.of_nat (length cells) = H * W →
  transpose_cells H W cells !! Z.to_nat (c * H + r) = cells !! Z.to_nat (r * W + c).
Proof.
  intros Hr Hc Hlen. unfold transpose_cells. rewrite list_lookup_imap.
  destruct (lookup_lt_is_Some_2 cells (Z.to_nat (c * H + r))) as [x ->]; [nia|].
  destruct (lookup_lt_is_Some_2 cells (Z.to_nat (r * W + c))) as [y Hy]; [nia|].
  cbn. rewrite Z2Nat.id by nia.
  replace ((c * H + r) `mod` H) with r
    by (apply (Z.mod_unique _ _ c r); lia).
  replace ((c * H + r) `div` H) with c
    by (apply (Z.div_unique _ _ _ r); lia).
  by rewrite Hy.
Qed.

Lemma transpose_cells_transposed (H W : Z) cells :
  Z.of_nat (length cells) = H * W →
  transposed_cells H W cells (transpose_cells H W cells).
Proof.
  intros Hlen. split; [apply transpose_cells_length|].
  intros r c Hr Hc. by apply transpose_cells_lookup.
Qed.

(** The transpose of a block is determined cell by cell. *)
Lemma transposed_cells_unique (H W : Z) orig cur :
  0 ≤ H → 0 ≤ W → Z.of_nat (length orig) = H * W →
  transposed_cells H W orig cur → cur = transpose_cells H W orig.
Proof.
  intros HH HW Hlen [Hlen' Hcells]. apply list_eq. intros k.
  destruct (decide (k < length orig)%nat) as [Hk | Hk].
  - assert (0 < H) as Hpos by nia.
    pose proof (Z.mod_pos_bound (Z.of_nat k) H Hpos) as Hr.
    assert (0 ≤ Z.of_nat k / H < W) as Hc.
    { split; [apply Z.div_pos; lia | apply Z.div_lt_upper_bound; nia]. }
    assert (k = Z.to_nat (Z.of_nat k / H * H + Z.of_nat k mod H)) as Hk'.
    { rewrite (Z.mul_comm _ H), <- Z.div_mod by lia. by rewrite Nat2Z.id. }
    rewrite Hk'. rewrite Hcells by done. by rewrite transpose_cells_lookup.
  - rewrite !lookup_ge_None_2; [done | rewrite transpose_cells_length; lia | lia].
Qed.

(** Transposing twice gives the block back. *)
Lemma transpose_cells_involutive (H W : Z) cells :
  0 ≤ H → 0 ≤ W → Z.of_nat (length cells) = H * W →
  transpose_cells W H (transpose_cells H W cells) = cells.
Proof.
  intros HH HW Hlen. symmetry.
  apply (transposed_cells_unique W H); [done | done | |].
  - rewrite transpose_cells_length. lia.
  - split; [by rewrite transpose_cells_length|].
    intros r c Hr Hc. symmetry. by apply transpose_cells_lookup.
Qed.

End Transposed.

Section RectanglePaths.
Context {D : Type} `{stack : !Stack}.
Implicit Types (h : heap D) (cells : list D) (m : matrix).

Lemma rectangle_size h m p cells :
  valid_matrix h m p cells → 2 ≤ height m → 2 ≤ width m →
  to_size_t (matrix_len m - 1) = height m * width m - 1.
Proof.
  intros Hv Hrows Hcols. rewrite (valid_matrix_len _ _ _ _ Hv).
  pose proof (valid_len _ _ _ _ Hv) as Hfit. unfold SIZE_MAX in Hfit.
  unfold to_size_t. apply Z.mod_small. nia.
Qed.

(** The path of the rectangles of at most 64 cells. *)
Lemma transpose_small_rectangle_returns h m p cells (fuel : nat) :
  valid_matrix h m p cells → 2 ≤ height m → 2 ≤ width m →
  height m * width m ≤ 64 →
  (2 * Z.to_nat (height m * width m) ≤ fuel)%nat →
  ∃ cells',
    matrix__transpose_small_rectangle fuel m h
    = Returns ({| height := width m; width := height m; values := Some p |},
               <[p := cells']> h) ∧
    permuted_cells (height m) (height m * width m - 1) cells cells'.
Proof.
  intros Hv Hrows Hcols Hsmall Hfuel.
  set (size := height m * width m - 1).
  assert (3 ≤ size < 64) as Hsize by (unfold size; nia).
  destruct (transpose_cycles_permutes matrix__set_bit matrix__has_bit
              (λ _, True) word_mem (height m) (width m) size
              Hrows Hcols eq_refl ltac:(nia)
              (λ set i _, word_has_spec size set i ltac:(lia))
              (λ set i _, word_set_spec size set i ltac:(lia))
              p h cells (Z.lor (Z.lor 0 (2 ^ 0)) (2 ^ size)) fuel)
    as (cells' & Hrun & Hperm).
  - apply (valid_block _ _ _ _ Hv).
  - rewrite (valid_length _ _ _ _ Hv). unfold size. lia.
  - done.
  - intros j Hj. unfold word_mem. rewrite !lor_pow2_testbit by lia.
    rewrite Z.bits_0.
    destruct (Z.eqb_spec j size), (Z.eqb_spec j 0); first [lia | done].
  - unfold size. lia.
  - exists cells'. split; [|done]. unfold matrix__transpose_small_rectangle.
    rewrite (rectangle_size h m p cells Hv Hrows Hcols). fold size.
    destruct (Z.ltb_spec size 64); [|lia]. rewrite assert_true.
    assert (matrix__set_bit 0 0 = Some (Z.lor 0 (2 ^ 0))) as -> by reflexivity.
    rewrite defined_some.
    assert (matrix__set_bit (Z.lor 0 (2 ^ 0)) size
            = Some (Z.lor (Z.lor 0 (2 ^ 0)) (2 ^ size))) as ->.
    { unfold matrix__set_bit. destruct (Z.ltb_spec size 64); [|lia].
      by rewrite one_shifted by lia. }
    rewrite defined_some, (valid_values _ _ _ _ Hv).
    by rewrite (bind_returns _ _ _ _ _ Hrun).
Qed.

(** The first step of [matrix__transpose_rectangle], the bit array. *)
Lemma transpose_rectangle_array h m p cells (fuel : nat) :
  valid_matrix h m p cells → 2 ≤ height m → 2 ≤ width m →
  matrix__transpose_rectangle fuel m h
  = (stack_array (bitset_bytes (height m * width m)) ;;
     transpose_cycles matrix__bitset_set matrix__bitset_has fuel (Some p) (height m)
       (height m * width m - 1) 1
       (replicate (Z.to_nat ((height m * width m - 1) / 64 + 1)) 0) ;;
     ret {| height := width m; width := height m; values := Some p |}) h.
Proof.
  intros Hv Hrows Hcols. unfold matrix__transpose_rectangle, bitset_bytes.
  rewrite (rectangle_size h m p cells Hv Hrows Hcols), (valid_values _ _ _ _ Hv).
  pose proof (valid_len _ _ _ _ Hv) as Hmax. unfold SIZE_MAX in Hmax.
  assert (0 ≤ (height m * width m - 1) / 64 < 2 ^ 58) as Hwords.
  { split; [apply Z.div_pos; nia | apply Z.div_lt_upper_bound; lia]. }
  assert (to_size_t ((height m * width m - 1) / 64 + 1)
          = (height m * width m - 1) / 64 + 1) as ->
    by (unfold to_size_t; apply Z.mod_small; lia).
  reflexivity.
Qed.

(** Without room on the stack for the bit array the call is lost. *)
Lemma transpose_rectangle_exhausts_stack h m p cells (fuel : nat) :
  valid_matrix h m p cells → 2 ≤ height m → 2 ≤ width m →
  stack_left < bitset_bytes (height m * width m) →
  matrix__transpose_rectangle fuel m h = Undefined.
Proof.
  intros Hv Hrows Hcols Hstack.
  rewrite (transpose_rectangle_array h m p cells fuel Hv Hrows Hcols).
  unfold bind at 1. unfold stack_array.
  by destruct (Z.leb_spec (bitset_bytes (height m * width m)) stack_left); [lia|].
Qed.

(** The path of the larger rectangles. *)
Lemma transpose_rectangle_returns h m p cells (fuel : nat) :
  valid_matrix h m p cells → 2 ≤ height m → 2 ≤ width m →
  (height m * width m - 2) * height m < 2 ^ 64 →
  bitset_bytes (height m * width m) ≤ stack_left →
  (2 * Z.to_nat (height m * width m) ≤ fuel)%nat →
  ∃ cells',
    matrix__transpose_rectangle fuel m h
    = Returns ({| height := width m; width := height m; values := Some p |},
               <[p := cells']> h) ∧
    permuted_cells (height m) (height m * width m - 1) cells cells'.
Proof.
  intros Hv Hrows Hcols Hfit Hstack Hfuel.
  set (size := height m * width m - 1).
  pose proof (valid_len _ _ _ _ Hv) as Hmax. unfold SIZE_MAX in Hmax.
  assert (3 ≤ size < 2 ^ 64) as Hsize by (unfold size; nia).
  assert (0 ≤ size / 64 < 2 ^ 58) as Hwords.
  { split; [apply Z.div_pos; lia | apply Z.div_lt_upper_bound; lia]. }
  destruct (transpose_cycles_permutes matrix__bitset_set matrix__bitset_has
              (λ bitset, Z.of_nat (length bitset) = size / 64 + 1) bitset_mem
              (height m) (width m) size
              Hrows Hcols eq_refl ltac:(unfold size; nia)
              (bitset_has_spec size) (bitset_set_spec size)
              p h cells (replicate (Z.to_nat (size / 64 + 1)) 0) fuel)
    as (cells' & Hrun & Hperm).
  - apply (valid_block _ _ _ _ Hv).
  - rewrite (valid_length _ _ _ _ Hv). unfold size. lia.
  - rewrite length_replicate. lia.
  - intros j Hj. unfold bitset_mem.
    destruct (replicate (Z.to_nat (size / 64 + 1)) 0 !! Z.to_nat (j / 64)) as [word|] eqn:Hw.
    + apply lookup_replicate in Hw as [-> _]. apply Z.bits_0.
    + apply Z.bits_0.
  - unfold size. lia.
  - exists cells'. split; [|done].
    rewrite (transpose_rectangle_array h m p cells fuel Hv Hrows Hcols). fold size.
    unfold bind at 1. unfold stack_array.
    destruct (Z.leb_spec (bitset_bytes (height m * width m)) stack_left); [|lia].
    by rewrite (bind_returns _ _ _ _ _ Hrun).
Qed.

(** The dispatch of [matrix_transpose] on such a rectangle. *)
Lemma transpose_rectangle_dispatch h m p cells (fuel : nat) :
  valid_matrix h m p cells → 2 ≤ height m → 2 ≤ width m → height m ≠ width m →
  matrix_transpose fuel m h
  = if height m * width m <=? 64 then matrix__transpose_small_rectangle fuel m h
    else matrix__transpose_rectangle fuel m h.
Proof.
  intros Hv Hrows Hcols Hrect.
  unfold matrix_transpose. rewrite (valid_values _ _ _ _ Hv). cbn [is_null negb].
  rewrite assert_true.
  destruct (Z.eqb_spec (width m) 1); [lia|].
  destruct (Z.eqb_spec (height m) 1); [lia|]. cbn [orb].
  destruct (Z.eqb_spec (width m) (height m)); [lia|].
  rewrite (valid_matrix_len _ _ _ _ Hv).
  by destruct (height m * width m <=? 64).
Qed.

(** [matrix_transpose] on a rectangle with at least two rows and two
    columns, where no product [i * height] of the loops wraps around and
    the stack has room for the bit array of the larger rectangles. *)
Lemma transpose_rectangular h m p cells (fuel : nat) :
  valid_matrix h m p cells → 2 ≤ height m → 2 ≤ width m → height m ≠ width m →
  (height m * width m - 2) * height m < 2 ^ 64 →
  (64 < height m * width m → bitset_bytes (height m * width m) ≤ stack_left) →
  (2 * Z.to_nat (height m * width m) ≤ fuel)%nat →
  matrix_transpose fuel m h
  = Returns ({| height := width m; width := height m; values := Some p |},
             <[p := transpose_cells (height m) (width m) cells]> h).
Proof.
  intros Hv Hrows Hcols Hrect Hfit Hstack Hfuel.
  assert (∃ cells',
    matrix_transpose fuel m h
    = Returns ({| height := width m; width := height m; values := Some p |},
               <[p := cells']> h) ∧
    permuted_cells (height m) (height m * width m - 1) cells cells')
    as (cells' & Hrun & Hperm).
  { unfold matrix_transpose. rewrite (valid_values _ _ _ _ Hv). cbn [is_null negb].
    rewrite assert_true.
    destruct (Z.eqb_spec (width m) 1); [lia|].
    destruct (Z.eqb_spec (height m) 1); [lia|]. cbn [orb].
    destruct (Z.eqb_spec (width m) (height m)); [lia|].
    rewrite (valid_matrix_len _ _ _ _ Hv).
    destruct (Z.leb_spec (height m * width m) 64).
    - by apply transpose_small_rectangle_returns.
    - apply transpose_rectangle_returns; try done. by apply Hstack. }
  rewrite Hrun. do 3 f_equal.
  apply (transposed_cells_unique (height m) (width m)); [lia | lia | |].
  - apply (valid_length _ _ _ _ Hv).
  - by apply (permuted_is_transposed _ _ (height m * width m - 1)).
Qed.

(** [matrix_transpose] on a rectangle of more than 64 cells whose bit
    array the stack has no room for. *)
Lemma transpose_exhausts_stack h m p cells (fuel : nat) :
  valid_matrix h m p cells → 2 ≤ height m → 2 ≤ width m → height m ≠ width m →
  64 < height m * width m → stack_left < bitset_bytes (height m * width m) →
  matrix_transpose fuel m h = Undefined.
Proof.
  intros Hv Hrows Hcols Hrect Hlarge Hstack.
  rewrite (transpose_rectangle_dispatch h m p cells fuel Hv Hrows Hcols Hrect).
  destruct (Z.leb_spec (height m * width m) 64); [lia|].
  by apply (transpose_rectangle_exhausts_stack h m p cells).
Qed.

End RectanglePaths.

(** ** Transposition: the square path *)

Section Square.
Context {D : Type}.
Implicit Types (h : heap D) (orig cur : list D) (m : matrix).

Lemma valid_matrix_update h m p cells cur :
  valid_matrix h m p cells → length cur = length cells →
  valid_matrix (<[p := cur]> h) m p cur.
Proof.
  intros [] Hlen. split; try done; [apply lookup_insert_eq | by rewrite Hlen].
Qed.

Lemma swap_state_length (n : Z) orig i j : length (swap_state n orig i j) = length orig.
Proof. apply length_imap. Qed.

(** Cell [(a, b)] in the middle of the transposition. *)
Lemma swap_state_cell (n : Z) orig (i j a b : Z) :
  Z.of_nat (length orig) = n * n → 0 ≤ a < n → 0 ≤ b < n →
  swap_state n orig i j !! Z.to_nat (a * n + b)
  = if decide (exchanged i j a b)
    then orig !! Z.to_nat (b * n + a) else orig !! Z.to_nat (a * n + b).
Proof.
  intros Hlen Ha Hb. unfold swap_state. rewrite list_lookup_imap.
  destruct (lookup_lt_is_Some_2 orig (Z.to_nat (a * n + b))) as [x Hx]; [nia|].
  destruct (lookup_lt_is_Some_2 orig (Z.to_nat (b * n + a))) as [y Hy]; [nia|].
  rewrite Hx. cbn. rewrite Z2Nat.id by nia.
  replace ((a * n + b) `div` n) with a by (apply (Z.div_unique _ _ _ b); lia).
  replace ((a * n + b) `mod` n) with b by (apply (Z.mod_unique _ _ a b); lia).
  destruct (decide (exchanged i j a b)); [by rewrite Hy | done].
Qed.

Lemma cell_index_inj (n a b a' b' : Z) :
  0 ≤ b < n → 0 ≤ b' < n → a * n + b = a' * n + b' → a = a' ∧ b = b'.
Proof.
  intros Hb Hb' Heq.
  assert (a = (a * n + b) `div` n) as Ha by (apply (Z.div_unique _ _ _ b); lia).
  assert (a' = (a' * n + b') `div` n) as Ha' by (apply (Z.div_unique _ _ _ b'); lia).
  assert (a = a') as -> by congruence. split; [done | lia].
Qed.

(** Two lists of [n * n] cells that agree cell by cell are equal. *)
Lemma square_cells_eq (n : Z) (xs ys : list D) :
  0 ≤ n → Z.of_nat (length xs) = n * n → length ys = length xs →
  (∀ a b, 0 ≤ a < n → 0 ≤ b < n →
     xs !! Z.to_nat (a * n + b) = ys !! Z.to_nat (a * n + b)) →
  xs = ys.
Proof.
  intros Hn0 Hlen Hsame Hcells. apply list_eq. intros k.
  destruct (decide (k < length xs)%nat) as [Hk | Hk].
  - assert (0 < n) as Hn by nia.
    pose proof (Z.mod_pos_bound (Z.of_nat k) n Hn) as Hb.
    assert (0 ≤ Z.of_nat k / n < n) as Ha.
    { split; [apply Z.div_pos; lia | apply Z.div_lt_upper_bound; nia]. }
    replace k with (Z.to_nat (Z.of_nat k / n * n + Z.of_nat k mod n)).
    + by apply Hcells.
    + rewrite (Z.mul_comm _ n), <- Z.div_mod by lia. by rewrite Nat2Z.id.
  - rewrite !lookup_ge_None_2; [done | lia | lia].
Qed.

Lemma swap_state_start (n : Z) orig (i : Z) :
  0 ≤ n → Z.of_nat (length orig) = n * n → i ≤ 0 → swap_state n orig i (i + 1) = orig.
Proof.
  intros Hn Hlen Hi.
  apply (square_cells_eq n); [done | by rewrite swap_state_length | by rewrite swap_state_length |].
  intros a b Ha Hb. rewrite swap_state_cell by done.
  rewrite decide_False; [done|]. unfold exchanged. lia.
Qed.

Lemma swap_state_next_row (n : Z) orig (i : Z) :
  0 ≤ n → Z.of_nat (length orig) = n * n → 0 ≤ i →
  swap_state n orig i n = swap_state n orig (i + 1) (i + 1 + 1).
Proof.
  intros Hn Hlen Hi.
  apply (square_cells_eq n); [done | by rewrite swap_state_length | by rewrite !swap_state_length |].
  intros a b Ha Hb. rewrite !swap_state_cell by done.
  destruct (decide (exchanged i n a b)) as [He | He],
           (decide (exchanged (i + 1) (i + 1 + 1) a b)) as [He' | He'];
    try done; unfold exchanged in *; lia.
Qed.

Lemma swap_state_end (n : Z) orig (i : Z) :
  0 ≤ n → Z.of_nat (length orig) = n * n → n - 1 ≤ i →
  swap_state n orig i (i + 1) = transpose_cells n n orig.
Proof.
  intros Hn Hlen Hi.
  apply (square_cells_eq n); [done | by rewrite swap_state_length | |].
  { by rewrite transpose_cells_length, swap_state_length. }
  intros a b Ha Hb. rewrite swap_state_cell by done.
  rewrite (transpose_cells_lookup n n orig b a) by done.
  destruct (decide (exchanged i (i + 1) a b)) as [He | He]; [done|].
  assert (a = b) as -> by (unfold exchanged in He; lia). done.
Qed.

(** One exchange of the inner loop. *)
Lemma swap_state_step (n : Z) orig (i j : Z) temp other :
  Z.of_nat (length orig) = n * n → 0 ≤ i → i < j < n →
  orig !! Z.to_nat (i * n + j) = Some temp →
  orig !! Z.to_nat (j * n + i) = Some other →
  <[Z.to_nat (j * n + i) := temp]>
    (<[Z.to_nat (i * n + j) := other]> (swap_state n orig i j))
  = swap_state n orig i (j + 1).
Proof.
  intros Hlen Hi Hj Htemp Hother.
  apply (square_cells_eq n).
  - lia.
  - by rewrite !length_insert, swap_state_length.
  - by rewrite !length_insert, !swap_state_length.
  - intros a b Ha Hb.
    assert (∀ a' b', 0 ≤ a' < n → 0 ≤ b' < n →
              Z.to_nat (a' * n + b') = Z.to_nat (a * n + b) → a' = a ∧ b' = b) as Hinj
      by (intros a' b' Ha' Hb' Heq; apply (cell_index_inj n); [done | done | nia]).
    rewrite (swap_state_cell n orig i (j + 1)) by done.
    destruct (decide (a = j ∧ b = i)) as [[-> ->] | Hne1].
    + rewrite list_lookup_insert_eq by (rewrite length_insert, swap_state_length; nia).
      rewrite decide_True by (unfold exchanged; lia). done.
    + rewrite list_lookup_insert_ne by (intros Heq; apply Hinj in Heq; lia).
      destruct (decide (a = i ∧ b = j)) as [[-> ->] | Hne2].
      * rewrite list_lookup_insert_eq by (rewrite swap_state_length; nia).
        rewrite decide_True by (unfold exchanged; lia). done.
      * rewrite list_lookup_insert_ne by (intros Heq; apply Hinj in Heq; lia).
        rewrite swap_state_cell by done.
        destruct (decide (exchanged i j a b)) as [He | He],
                 (decide (exchanged i (j + 1) a b)) as [He' | He'];
          try done; unfold exchanged in *; lia.
Qed.

End Square.

Section SquarePath.
Context {D : Type}.
Implicit Types (h : heap D) (cells cur : list D) (m : matrix).

(** The body of the inner loop exchanges cells [(i, j)] and [(j, i)]. *)
Lemma square_exchange h m p cells (i j : Z) :
  valid_matrix h m p cells → width m = height m → 0 ≤ i → i < j < height m →
  (let* temp := matrix_get m i j in
   let* other := matrix_get m j i in
   matrix_set m i j other ;;
   matrix_set m j i temp) (<[p := swap_state (height m) cells i j]> h)
  = Returns (tt, <[p := swap_state (height m) cells i (j + 1)]> h).
Proof.
  intros Hv Hsq Hi Hj.
  pose proof (valid_length _ _ _ _ Hv) as Hlen. rewrite Hsq in Hlen.
  set (n := height m) in *.
  set (cur := swap_state n cells i j).
  assert (valid_matrix (<[p := cur]> h) m p cur) as Hcur
    by (apply (valid_matrix_update h m p cells); [done | apply swap_state_length]).
  destruct (matrix_get_returns _ m p cur i j Hcur) as (temp & Htemp & Hget1); [lia..|].
  destruct (matrix_get_returns _ m p cur j i Hcur) as (other & Hother & Hget2); [lia..|].
  rewrite Hsq in Htemp, Hother. fold n in Htemp, Hother.
  unfold cur in Htemp, Hother. rewrite swap_state_cell in Htemp, Hother by lia.
  rewrite decide_False in Htemp by (unfold exchanged; lia).
  rewrite decide_False in Hother by (unfold exchanged; lia).
  rewrite (bind_returns _ _ _ _ _ Hget1), (bind_returns _ _ _ _ _ Hget2).
  rewrite (bind_returns _ _ _ tt _ (matrix_set_returns _ m p cur i j other Hcur
             ltac:(lia) ltac:(lia))).
  rewrite insert_insert_eq.
  set (cur1 := <[Z.to_nat (i * width m + j) := other]> cur).
  assert (valid_matrix (<[p := cur1]> h) m p cur1) as Hcur1.
  { apply (valid_matrix_update h m p cells); [done|].
    unfold cur1, cur. by rewrite length_insert, swap_state_length. }
  rewrite (matrix_set_returns _ m p cur1 j i temp Hcur1 ltac:(lia) ltac:(lia)).
  rewrite insert_insert_eq. unfold cur1, cur. rewrite Hsq. fold n.
  by rewrite (swap_state_step n cells i j temp other).
Qed.

Lemma transpose_square_returns h m p cells :
  valid_matrix h m p cells → width m = height m →
  matrix__transpose_square m h
  = Returns (m, <[p := transpose_cells (height m) (height m) cells]> h).
Proof.
  intros Hv Hsq. unfold matrix__transpose_square.
  rewrite (proj2 (Z.eqb_eq _ _) Hsq), assert_true.
  pose proof (valid_length _ _ _ _ Hv) as Hlen. rewrite Hsq in Hlen.
  pose proof (valid_height _ _ _ _ Hv) as Hn. unfold SIZE_MAX in Hn.
  pose proof (valid_block _ _ _ _ Hv) as Hblock.
  set (n := height m) in *.
  destruct (decide (n = 0)) as [H0 | Hpos].
  - (* no cell: the outer loop runs [SIZE_MAX] times over an empty inner loop *)
    assert (cells = []) as -> by (apply length_zero_iff_nil; lia).
    destruct (for_range_invariant (λ _ s, s = h) 0 (to_size_t (n - 1))
      (λ i, for_range (to_size_t (i + 1)) n (λ j,
         let* temp := matrix_get m i j in
         let* other := matrix_get m j i in
         matrix_set m i j other ;;
         matrix_set m j i temp)) h) as (s & Hrun & ->); [done | |].
    + intros k s _ ->. exists h. split; [|done].
      unfold for_range.
      assert (Z.to_nat (n - to_size_t (0 + Z.of_nat k + 1)) = 0%nat) as ->; [|done].
      unfold to_size_t.
      pose proof (Z.mod_pos_bound (0 + Z.of_nat k + 1) (2 ^ 64) ltac:(lia)). lia.
    + rewrite (bind_returns _ _ _ _ _ Hrun). unfold ret. do 2 f_equal.
      symmetry. by apply insert_id.
  - assert (to_size_t (n - 1) = n - 1) as ->
      by (unfold to_size_t; apply Z.mod_small; lia).
    destruct (for_range_invariant
      (λ k s, s = <[p := swap_state n cells (Z.of_nat k) (Z.of_nat k + 1)]> h) 0 (n - 1)
      (λ i, for_range (to_size_t (i + 1)) n (λ j,
         let* temp := matrix_get m i j in
         let* other := matrix_get m j i in
         matrix_set m i j other ;;
         matrix_set m j i temp)) h) as (s & Hrun & ->).
    + change (Z.of_nat 0) with 0.
      rewrite (swap_state_start n cells 0) by lia. symmetry. by apply insert_id.
    + intros k s Hk ->. rewrite Z.add_0_l in *.
      assert (to_size_t (Z.of_nat k + 1) = Z.of_nat k + 1) as ->
        by (unfold to_size_t; apply Z.mod_small; lia).
      destruct (for_range_invariant
        (λ t s, s = <[p := swap_state n cells (Z.of_nat k) (Z.of_nat k + 1 + Z.of_nat t)]> h)
        (Z.of_nat k + 1) n
        (λ j,
           let* temp := matrix_get m (Z.of_nat k) j in
           let* other := matrix_get m j (Z.of_nat k) in
           matrix_set m (Z.of_nat k) j other ;;
           matrix_set m j (Z.of_nat k) temp)
        (<[p := swap_state n cells (Z.of_nat k) (Z.of_nat k + 1)]> h)) as (s & Hinner & ->).
      * by rewrite Z.add_0_r.
      * intros t s Ht ->. eexists. split.
        -- apply (square_exchange h m p cells); [done | done | lia | lia].
        -- do 2 f_equal. lia.
      * exists (<[p := swap_state n cells (Z.of_nat (Datatypes.S k))
                        (Z.of_nat (Datatypes.S k) + 1)]> h).
        split; [|done]. rewrite Hinner. do 3 f_equal.
        replace (Z.of_nat k + 1 + Z.of_nat (Z.to_nat (n - (Z.of_nat k + 1)))) with n by lia.
        rewrite (swap_state_next_row n cells (Z.of_nat k)) by lia.
        f_equal; lia.
    + rewrite (bind_returns _ _ _ _ _ Hrun). unfold ret. do 3 f_equal.
      apply swap_state_end; lia.
Qed.

End SquarePath.

(** ** Transposition: where the index arithmetic wraps around *)

Section Overflow.
Context {D : Type}.
Implicit Types (h : heap D) (cells cur : list D).

(** Once the index is 0 the [do]-[while] loop stays there: 0 is a fixed
    point of [i ↦ (i * height) % size], and it is not [cycle_begin]. *)
Lemma follow_cycle_stuck_at_zero (fuel : nat) :
  ∀ (p : positive) h cur (bitset : list Z) (temp : D) (H size c : Z),
    (0 < length cur)%nat → (0 < length bitset)%nat → size ≠ 0 → c ≠ 0 →
    follow_cycle matrix__bitset_set fuel (Some p) H size c 0 temp bitset (<[p := cur]> h)
    = OutOfFuel.
Proof.
  induction fuel as [|fuel IH]; intros p h cur bitset temp H size c Hcur Hbits Hsize Hc;
    [done|].
  cbn [follow_cycle].
  assert (c_mod (to_size_t (0 * H)) size = Some 0) as ->.
  { unfold c_mod, to_size_t. destruct (Z.eqb_spec size 0); [done|].
    by rewrite Z.mul_0_l, !Z.mod_0_l by lia. }
  rewrite defined_some.
  destruct (lookup_lt_is_Some_2 cur 0 Hcur) as [x Hx].
  destruct (lookup_lt_is_Some_2 bitset 0 Hbits) as [word Hword].
  erewrite bind_returns; [|by eapply load_returns; [apply lookup_insert_eq|]].
  erewrite bind_returns; [|by eapply store_returns; [apply lookup_insert_eq|]].
  rewrite insert_insert_eq.
  assert (matrix__bitset_set bitset 0
          = Some (<[0%nat := Z.lor word (to_uint64 (Z.shiftl 1 0))]> bitset)) as ->.
  { unfold matrix__bitset_set. change (Z.to_nat (0 `div` 64)) with 0%nat. by rewrite Hword. }
  rewrite defined_some.
  destruct (Z.eqb_spec 0 c) as [<- | _]; [done|]. cbn [negb].
  apply IH; [by rewrite length_insert | by rewrite length_insert | done | done].
Qed.

(** A matrix of [2^32] rows and 2 columns, with room on the stack for
    the [2^30] bytes of its bit array: from index 1 the loop goes to
    [2^32], then to [(2^32 * 2^32) mod 2^64 = 0], and never comes back
    to 1. *)
Lemma transpose_wraps_and_diverges `{stack : !Stack} (p : positive) h cells (fuel : nat) :
  h !! p = Some cells → Z.of_nat (length cells) = 2 ^ 33 → 2 ^ 30 ≤ stack_left →
  matrix_transpose fuel {| height := 2 ^ 32; width := 2; values := Some p |} h
  = OutOfFuel.
Proof.
  intros Hp Hlen Hstack. unfold matrix_transpose, matrix__transpose_rectangle.
  cbn [height width values is_null negb]. rewrite assert_true.
  change ((2 =? 1) || (2 ^ 32 =? 1)) with false.
  change (2 =? 2 ^ 32) with false.
  change (matrix_len {| height := 2 ^ 32; width := 2; values := Some p |}) with (2 ^ 33).
  change (2 ^ 33 <=? 64) with false. cbn match.
  change (to_size_t (2 ^ 33 - 1)) with (2 ^ 33 - 1).
  change (to_size_t ((2 ^ 33 - 1) `div` 64 + 1)) with (2 ^ 27).
  change (8 * 2 ^ 27) with (2 ^ 30).
  unfold bind at 1. unfold stack_array.
  destruct (Z.leb_spec (2 ^ 30) stack_left); [|lia].
  set (bitset := replicate (Z.to_nat (2 ^ 27)) 0).
  assert (Z.of_nat (length bitset) = 2 ^ 27) as Hbits
    by (unfold bitset; rewrite length_replicate; apply Z2Nat.id; done).
  clearbody bitset.
  apply bind_out_of_fuel.
  destruct fuel as [|fuel]; [done|]. cbn [transpose_cycles].
  change (1 <? 2 ^ 33 - 1) with true. cbn match.
  rewrite <- (insert_id h p cells Hp).
  destruct (lookup_lt_is_Some_2 cells (Z.to_nat 1)) as [x1 Hx1]; [lia|].
  erewrite bind_returns; [|by eapply load_returns; [apply lookup_insert_eq|]].
  apply bind_out_of_fuel.
  (* first turn: from 1 to 2^32 *)
  destruct fuel as [|fuel]; [done|]. cbn [follow_cycle].
  change (c_mod (to_size_t (1 * 2 ^ 32)) (2 ^ 33 - 1)) with (Some (2 ^ 32)).
  rewrite defined_some.
  destruct (lookup_lt_is_Some_2 cells (Z.to_nat (2 ^ 32))) as [x2 Hx2]; [lia|].
  erewrite bind_returns; [|by eapply load_returns; [apply lookup_insert_eq|]].
  erewrite bind_returns; [|eapply store_returns; [apply lookup_insert_eq | lia]].
  rewrite insert_insert_eq.
  destruct (lookup_lt_is_Some_2 bitset 0) as [w0 Hw0]; [lia|].
  assert (matrix__bitset_set bitset 1
          = Some (<[0%nat := Z.lor w0 (to_uint64 (Z.shiftl 1 1))]> bitset)) as ->.
  { unfold matrix__bitset_set. change (Z.to_nat (1 `div` 64)) with 0%nat. by rewrite Hw0. }
  rewrite defined_some.
  change (negb (2 ^ 32 =? 1)) with true. cbn match.
  (* second turn: from 2^32 to 0 *)
  destruct fuel as [|fuel]; [done|]. cbn [follow_cycle].
  change (c_mod (to_size_t (2 ^ 32 * 2 ^ 32)) (2 ^ 33 - 1)) with (Some 0).
  rewrite defined_some.
  set (cur := <[Z.to_nat (2 ^ 32) := x1]> cells).
  assert (length cur = length cells) as Hcur by apply length_insert.
  destruct (lookup_lt_is_Some_2 cur (Z.to_nat 0)) as [x0 Hx0]; [lia|].
  erewrite bind_returns; [|by eapply load_returns; [apply lookup_insert_eq|]].
  erewrite bind_returns; [|eapply store_returns; [apply lookup_insert_eq | lia]].
  rewrite insert_insert_eq.
  set (bitset1 := <[0%nat := Z.lor w0 (to_uint64 (Z.shiftl 1 1))]> bitset).
  assert (length bitset1 = length bitset) as Hbits1 by apply length_insert.
  destruct (lookup_lt_is_Some_2 bitset1 (Z.to_nat (2 ^ 26))) as [w1 Hw1]; [lia|].
  assert (matrix__bitset_set bitset1 (2 ^ 32)
          = Some (<[Z.to_nat (2 ^ 26) := Z.lor w1 (to_uint64 (Z.shiftl 1 0))]> bitset1)) as ->.
  { unfold matrix__bitset_set.
    change (2 ^ 32 `div` 64) with (2 ^ 26). change (2 ^ 32 `mod` 64) with 0.
    by rewrite Hw1. }
  rewrite defined_some.
  change (negb (0 =? 1)) with true. cbn match.
  apply follow_cycle_stuck_at_zero; rewrite ?length_insert; lia.
Qed.

End Overflow.

(** ** Transposition: the dispatch *)

Section Dispatch.
Context {D : Type} `{stack : !Stack}.
Implicit Types (h : heap D) (cells : list D) (m : matrix).

(** The vector path returns whatever the height: the heap is untouched,
    and the new width is the old height as it comes back from [int]. *)
Lemma transpose_vector_returns h m (fuel : nat) :
  values m ≠ None → width m = 1 ∨ height m = 1 →
  matrix_transpose fuel m h
  = Returns ({| height := width m; width := to_size_t (to_int (height m));
                values := values m |}, h).
Proof.
  intros Hnn Hvec. unfold matrix_transpose, matrix__transpose_single_col_or_row.
  destruct (values m) as [p|] eqn:Hp; [|done]. cbn [is_null negb].
  assert ((width m =? 1) || (height m =? 1) = true) as ->.
  { destruct Hvec as [-> | ->]; [done | apply orb_true_r]. }
  by rewrite !assert_true.
Qed.

Lemma transpose_square_dispatch h m p cells (fuel : nat) :
  valid_matrix h m p cells → width m ≠ 1 → width m = height m →
  matrix_transpose fuel m h
  = Returns (m, <[p := transpose_cells (height m) (width m) cells]> h).
Proof.
  intros Hv Hvec Hsq. unfold matrix_transpose.
  rewrite (valid_values _ _ _ _ Hv). cbn [is_null negb]. rewrite assert_true.
  destruct (Z.eqb_spec (width m) 1); [lia|].
  destruct (Z.eqb_spec (height m) 1); [lia|]. cbn [orb].
  rewrite (proj2 (Z.eqb_eq _ _) Hsq).
  rewrite (transpose_square_returns h m p cells Hv Hsq). by rewrite Hsq.
Qed.

Lemma insert_transposed_twice h (p : positive) cells (H W : Z) :
  h !! p = Some cells → 0 ≤ H → 0 ≤ W → Z.of_nat (length cells) = H * W →
  <[p := transpose_cells W H (transpose_cells H W cells)]>
    (<[p := transpose_cells H W cells]> h) = h.
Proof.
  intros Hp HH HW Hlen.
  rewrite insert_insert_eq, transpose_cells_involutive by done. by apply insert_id.
Qed.

End Dispatch.

(** ** Transposition: rectangles *)

(** C1, amended: on a valid matrix of [H ≥ 2] rows and [W ≥ 2] columns,
    [H ≠ W], for which no product [i * H] of the cycle-following loops
    wraps around ([(H·W − 2) · H < 2^64]) and, when it has more than 64
    cells, whose bit array of [8·((H·W − 1)/64 + 1)] bytes the stack has
    room for, [matrix_transpose] returns (in the model, with any fuel of
    [2·H·W] or more) through the path chosen by the length (at most 64
    cells or more); the matrix then has [W] rows and [H] columns on the
    same block, and the block holds the transpose:
    [result[c][r] = original[r][c]], or, on flat indices with
    [size = H·W − 1], the cell of index [i] is at index [(i · H) mod size]
    for [0 < i < size] and the cells of indices [0] and [size] are where
    they were. *)
Theorem transpose_rectangle_transposes {D : Type} `{stack : !Stack}
    (m : matrix) (h : heap D) (p : positive) (cells : list D) (fuel : nat) :
  valid_matrix h m p cells →
  2 ≤ height m → 2 ≤ width m → height m ≠ width m →
  (height m * width m - 2) * height m < 2 ^ 64 →
  (64 < height m * width m → bitset_bytes (height m * width m) ≤ stack_left) →
  (2 * Z.to_nat (height m * width m) ≤ fuel)%nat →
  matrix_transpose fuel m h
  = Returns ({| height := width m; width := height m; values := Some p |},
             <[p := transpose_cells (height m) (width m) cells]> h) ∧
  matrix_transpose fuel m h
  = (if matrix_len m <=? 64
     then matrix__transpose_small_rectangle fuel m h
     else matrix__transpose_rectangle fuel m h) ∧
  transposed_cells (height m) (width m) cells
    (transpose_cells (height m) (width m) cells) ∧
  permuted_cells (height m) (height m * width m - 1) cells
    (transpose_cells (height m) (width m) cells).
Proof.
  intros Hv Hrows Hcols Hrect Hfit Hstack Hfuel.
  pose proof (transpose_rectangular h m p cells fuel Hv Hrows Hcols Hrect Hfit Hstack Hfuel)
    as Hrun.
  split; [done|]. split; [|split].
  - unfold matrix_transpose. rewrite (valid_values _ _ _ _ Hv). cbn [is_null negb].
    rewrite assert_true.
    destruct (Z.eqb_spec (width m) 1); [lia|].
    destruct (Z.eqb_spec (height m) 1); [lia|]. cbn [orb].
    destruct (Z.eqb_spec (width m) (height m)); [lia|].
    by destruct (matrix_len m <=? 64).
  - apply transpose_cells_transposed. apply (valid_length _ _ _ _ Hv).
  - assert (∃ cells',
      Returns ({| height := width m; width := height m; values := Some p |},
               <[p := cells']> h)
      = Returns ({| height := width m; width := height m; values := Some p |},
                 <[p := transpose_cells (height m) (width m) cells]> h) ∧
      permuted_cells (height m) (height m * width m - 1) cells cells')
      as (cells' & Heq & Hperm).
    { rewrite <- Hrun. unfold matrix_transpose.
      rewrite (valid_values _ _ _ _ Hv). cbn [is_null negb]. rewrite assert_true.
      destruct (Z.eqb_spec (width m) 1); [lia|].
      destruct (Z.eqb_spec (height m) 1); [lia|]. cbn [orb].
      destruct (Z.eqb_spec (width m) (height m)); [lia|].
      rewrite (valid_matrix_len _ _ _ _ Hv).
      destruct (Z.leb_spec (height m * width m) 64).
      - destruct (transpose_small_rectangle_returns h m p cells fuel)
          as (cells' & -> & Hperm); try done. by exists cells'.
      - destruct (transpose_rectangle_returns h m p cells fuel)
          as (cells' & -> & Hperm); try done; [by apply Hstack|]. by exists cells'. }
    assert (cells' = transpose_cells (height m) (width m) cells) as <-; [|done].
    apply (transposed_cells_unique (height m) (width m)); [lia | lia | |].
    + apply (valid_length _ _ _ _ Hv).
    + by apply (permuted_is_transposed _ _ (height m * width m - 1)).
Qed.

(** C1 as stated fails where the index arithmetic wraps: on a valid
    matrix of [2^32] rows and 2 columns, with a stack that has room for
    the [2^30] bytes of its bit array, the call never returns.  It fails
    too where the stack has no room for the bit array: on a valid matrix
    of 2 rows and 35000000 columns, whose index products do not wrap, a
    call with 8 MiB of stack is lost on an array of 8750000 bytes. *)
Lemma transpose_rectangle_wraps_around :
  valid_matrix ({[ 1%positive := replicate (Z.to_nat (2 ^ 33)) 0 ]} : heap Z)
    {| height := 2 ^ 32; width := 2; values := Some 1%positive |}
    1%positive (replicate (Z.to_nat (2 ^ 33)) 0) ∧
  2 ≤ 2 ^ 32 ∧ 2 ≤ 2 ∧ 2 ^ 32 ≠ 2 ∧
  (∀ fuel : nat,
     matrix_transpose (stack := {| stack_left := 2 ^ 30 |}) fuel
       {| height := 2 ^ 32; width := 2; values := Some 1%positive |}
       ({[ 1%positive := replicate (Z.to_nat (2 ^ 33)) 0 ]} : heap Z)
     = OutOfFuel) ∧
  valid_matrix ({[ 1%positive := replicate (Z.to_nat 70000000) 0 ]} : heap Z)
    {| height := 2; width := 35000000; values := Some 1%positive |}
    1%positive (replicate (Z.to_nat 70000000) 0) ∧
  (2 * 35000000 - 2) * 2 < 2 ^ 64 ∧
  bitset_bytes (2 * 35000000) = 8750000 ∧
  (∀ fuel : nat,
     matrix_transpose (stack := stack_8MiB) fuel
       {| height := 2; width := 35000000; values := Some 1%positive |}
       ({[ 1%positive := replicate (Z.to_nat 70000000) 0 ]} : heap Z)
     = Undefined).
Proof.
  assert (Z.of_nat (length (replicate (Z.to_nat (2 ^ 33)) 0)) = 2 ^ 33) as Hlen
    by (rewrite length_replicate; apply Z2Nat.id; done).
  assert (valid_matrix ({[ 1%positive := replicate (Z.to_nat 70000000) 0 ]} : heap Z)
            {| height := 2; width := 35000000; values := Some 1%positive |}
            1%positive (replicate (Z.to_nat 70000000) 0)) as Hwide.
  { split; cbn [height width values];
      [done | apply lookup_singleton_eq | split; discriminate | split; discriminate
      | discriminate | rewrite length_replicate; by apply Z2Nat.id]. }
  split; [|split; [done | split; [done | split; [done|]]]].
  - split; cbn [height width values];
      [done | apply lookup_singleton_eq | split; discriminate | split; discriminate
      | discriminate | exact Hlen].
  - split; [|split; [exact Hwide | split; [done | split; [reflexivity|]]]].
    + intros fuel.
      apply (transpose_wraps_and_diverges (stack := {| stack_left := 2 ^ 30 |})
               1%positive _ _ fuel (lookup_singleton_eq _ _) Hlen).
      reflexivity.
    + intros fuel.
      exact (transpose_exhausts_stack (stack := stack_8MiB) _ _ _ _ fuel Hwide
               ltac:(discriminate) ltac:(discriminate) ltac:(discriminate)
               eq_refl eq_refl).
Qed.

(** The 2 × 3 matrix [[1,2,3],[4,5,6]] becomes [[1,4],[2,5],[3,6]]. *)
Lemma transpose_rectangle_transposes_witness :
  matrix_transpose 12 {| height := 2; width := 3; values := Some 1%positive |}
    ({[ 1%positive := [1; 2; 3; 4; 5; 6] ]} : heap float)%float
  = Returns ({| height := 3; width := 2; values := Some 1%positive |},
             {[ 1%positive := [1; 4; 2; 5; 3; 6] ]}%float).
Proof.
  set (h := ({[ 1%positive := [1; 2; 3; 4; 5; 6] ]} : heap float)%float).
  assert (valid_matrix h {| height := 2; width := 3; values := Some 1%positive |}
            1%positive [1; 2; 3; 4; 5; 6]%float) as Hv
    by (apply valid_matrix_singleton; vm_compute; try split; congruence).
  rewrite (proj1 (transpose_rectangle_transposes _ h _ _ 12 Hv
                    ltac:(cbn; lia) ltac:(cbn; lia) ltac:(cbn; lia)
                    ltac:(cbn; lia) ltac:(cbn; lia) ltac:(cbn; lia))).
  vm_compute. reflexivity.
Defined.

(** ** Transposition: completion *)

(** C6, amended: on every valid matrix that is not a rectangle without
    elements (one dimension 0, the other at least 2) and, when it is a
    rectangle of at least two rows and two columns, whose index products
    do not wrap around ([(H·W − 2) · H < 2^64]) and whose bit array,
    when it has more than 64 cells, the stack has room for,
    [matrix_transpose] completes: it returns, whichever of the four
    paths it takes, the cycle-following loops included.  In the model
    every fuel of [2·H·W] or more is enough, and the result is the same
    for all of them; the block keeps its address and length. *)
Theorem matrix_transpose_completes {D : Type} `{stack : !Stack}
    (m : matrix) (h : heap D) (p : positive) (cells : list D) :
  valid_matrix h m p cells →
  (height m = 0 → width m < 2) → (width m = 0 → height m < 2) →
  (2 ≤ height m → 2 ≤ width m → height m ≠ width m →
   (height m * width m - 2) * height m < 2 ^ 64) →
  (2 ≤ height m → 2 ≤ width m → height m ≠ width m → 64 < height m * width m →
   bitset_bytes (height m * width m) ≤ stack_left) →
  ∃ m' cells',
    (∀ fuel : nat, (2 * Z.to_nat (height m * width m) ≤ fuel)%nat →
       matrix_transpose fuel m h = Returns (m', <[p := cells']> h)) ∧
    length cells' = length cells ∧ values m' = Some p ∧ height m' = width m.
Proof.
  intros Hv Hrows0 Hcols0 Hfit Hstack.
  pose proof (valid_height _ _ _ _ Hv) as Hh. pose proof (valid_width _ _ _ _ Hv) as Hw.
  destruct (decide (width m = 1 ∨ height m = 1)) as [Hvec | Hnvec].
  - exists {| height := width m; width := to_size_t (to_int (height m)); values := values m |},
      cells.
    split; [|split; [done | split; [apply (valid_values _ _ _ _ Hv) | done]]].
    intros fuel _. rewrite (insert_id h p cells (valid_block _ _ _ _ Hv)).
    apply transpose_vector_returns; [|done]. by rewrite (valid_values _ _ _ _ Hv).
  - destruct (decide (width m = height m)) as [Hsq | Hrect].
    + exists m, (transpose_cells (height m) (width m) cells).
      split; [|split; [apply transpose_cells_length
                      | split; [apply (valid_values _ _ _ _ Hv) | done]]].
      intros fuel _. apply transpose_square_dispatch; [done | lia | done].
    + exists {| height := width m; width := height m; values := Some p |},
        (transpose_cells (height m) (width m) cells).
      split; [|split; [apply transpose_cells_length | done]].
      intros fuel Hfuel.
      apply transpose_rectangular;
        first [done | lia | apply Hfit; lia | intros Hlarge; apply Hstack; lia].
Qed.

(** C6 as stated fails on a valid matrix without elements, where the
    call aborts; on one whose index products wrap, where, with room on
    the stack for the bit array, it never returns; and on a valid matrix
    of 2 rows and 35000000 columns, where a call with 8 MiB of stack is
    lost on the bit array. *)
Lemma matrix_transpose_does_not_complete :
  valid_matrix ({[ 1%positive := [] ]} : heap Z)
    {| height := 0; width := 2; values := Some 1%positive |} 1%positive [] ∧
  (∀ (stack : Stack) (fuel : nat),
     matrix_transpose fuel {| height := 0; width := 2; values := Some 1%positive |}
       ({[ 1%positive := [] ]} : heap Z) = Aborts) ∧
  (∀ fuel : nat,
     matrix_transpose (stack := {| stack_left := 2 ^ 30 |}) fuel
       {| height := 2 ^ 32; width := 2; values := Some 1%positive |}
       ({[ 1%positive := replicate (Z.to_nat (2 ^ 33)) 0 ]} : heap Z) = OutOfFuel) ∧
  valid_matrix ({[ 1%positive := replicate (Z.to_nat 70000000) 0 ]} : heap Z)
    {| height := 2; width := 35000000; values := Some 1%positive |}
    1%positive (replicate (Z.to_nat 70000000) 0) ∧
  (∀ fuel : nat,
     matrix_transpose (stack := stack_8MiB) fuel
       {| height := 2; width := 35000000; values := Some 1%positive |}
       ({[ 1%positive := replicate (Z.to_nat 70000000) 0 ]} : heap Z)
     = Undefined).
Proof.
  assert (valid_matrix ({[ 1%positive := replicate (Z.to_nat 70000000) 0 ]} : heap Z)
            {| height := 2; width := 35000000; values := Some 1%positive |}
            1%positive (replicate (Z.to_nat 70000000) 0)) as Hwide.
  { split; cbn [height width values];
      [done | apply lookup_singleton_eq | split; discriminate | split; discriminate
      | discriminate | rewrite length_replicate; by apply Z2Nat.id]. }
  split; [|split; [|split; [|split; [exact Hwide|]]]].
  - split; cbn [height width values];
      [done | apply lookup_singleton_eq | split; discriminate | split; discriminate
      | discriminate | done].
  - intros stack fuel. reflexivity.
  - intros fuel.
    apply (transpose_wraps_and_diverges (stack := {| stack_left := 2 ^ 30 |})
             1%positive _ _ fuel (lookup_singleton_eq _ _)); [|reflexivity].
    rewrite length_replicate. by apply Z2Nat.id.
  - intros fuel.
    exact (transpose_exhausts_stack (stack := stack_8MiB) _ _ _ _ fuel Hwide
               ltac:(discriminate) ltac:(discriminate) ltac:(discriminate)
               eq_refl eq_refl).
Qed.

(** On a 16 × 8 matrix, which takes the path of the large rectangles. *)
Lemma matrix_transpose_completes_witness :
  ∃ m' cells',
    (∀ fuel : nat, (2 * Z.to_nat (16 * 8) ≤ fuel)%nat →
       matrix_transpose fuel {| height := 16; width := 8; values := Some 1%positive |}
         ({[ 1%positive := seqZ 0 128 ]} : heap Z)
       = Returns (m', <[1%positive := cells']> {[ 1%positive := seqZ 0 128 ]})) ∧
    length cells' = length (seqZ 0 128) ∧ values m' = Some 1%positive ∧ height m' = 8.
Proof.
  apply (matrix_transpose_completes
           {| height := 16; width := 8; values := Some 1%positive |}
           ({[ 1%positive := seqZ 0 128 ]} : heap Z) 1%positive (seqZ 0 128)).
  - apply valid_matrix_singleton; vm_compute; try split; congruence.
  - cbn. lia.
  - cbn. lia.
  - cbn. lia.
  - intros _ _ _ _. vm_compute. discriminate.
Defined.

(** ** Transposition: involution *)

(** C2, amended: on every valid matrix that is not a rectangle without
    elements, whose dimensions are below [2^31] when it is a row or
    column vector, and whose index products wrap in neither orientation
    when it is a rectangle of at least two rows and two columns
    ([(H·W − 2) · H < 2^64] and [(H·W − 2) · W < 2^64]) and whose bit
    array, when it is such a rectangle of more than 64 cells, the stack
    has room for, two calls of [matrix_transpose] in a row (in the
    model, with any fuel of [2·H·W] or more) return and restore the
    height, the width and every cell: the matrix and the heap are what
    they were. *)
Theorem transpose_twice_restores {D : Type} `{stack : !Stack}
    (m : matrix) (h : heap D) (p : positive) (cells : list D) (fuel : nat) :
  valid_matrix h m p cells →
  (height m = 0 → width m < 2) → (width m = 0 → height m < 2) →
  (width m = 1 ∨ height m = 1 → height m < 2 ^ 31 ∧ width m < 2 ^ 31) →
  (2 ≤ height m → 2 ≤ width m → height m ≠ width m →
   (height m * width m - 2) * height m < 2 ^ 64 ∧
   (height m * width m - 2) * width m < 2 ^ 64) →
  (2 ≤ height m → 2 ≤ width m → height m ≠ width m → 64 < height m * width m →
   bitset_bytes (height m * width m) ≤ stack_left) →
  (2 * Z.to_nat (height m * width m) ≤ fuel)%nat →
  (let* once := matrix_transpose fuel m in matrix_transpose fuel once) h
  = Returns (m, h).
Proof.
  intros Hv Hrows0 Hcols0 Hint Hfit Hstack Hfuel.
  pose proof (valid_height _ _ _ _ Hv) as Hh. pose proof (valid_width _ _ _ _ Hv) as Hw.
  pose proof (valid_values _ _ _ _ Hv) as Hp. pose proof (valid_block _ _ _ _ Hv) as Hblock.
  pose proof (valid_length _ _ _ _ Hv) as Hlen.
  assert ({| height := height m; width := width m; values := Some p |} = m) as Hm
    by (destruct m; cbn in *; congruence).
  destruct (decide (width m = 1 ∨ height m = 1)) as [Hvec | Hnvec].
  - destruct (Hint Hvec) as [Hh31 Hw31].
    rewrite (bind_returns _ _ _ _ _
               (transpose_vector fuel m h ltac:(congruence) Hvec ltac:(lia))).
    rewrite transpose_vector; cbn [height width values]; [|congruence | tauto | lia].
    by rewrite Hp, Hm.
  - destruct (decide (width m = height m)) as [Hsq | Hrect].
    + rewrite (bind_returns _ _ _ _ _
                 (transpose_square_dispatch h m p cells fuel Hv ltac:(lia) Hsq)).
      rewrite (transpose_square_dispatch _ m p (transpose_cells (height m) (width m) cells));
        [| |lia | done].
      * rewrite !Hsq.
        rewrite (insert_transposed_twice h p cells (height m) (height m));
          [done | done | lia | lia | by rewrite Hlen, Hsq].
      * apply (valid_matrix_update h m p cells); [done | apply transpose_cells_length].
    + destruct Hfit as [HfitH HfitW]; [lia..|].
      assert (64 < height m * width m → bitset_bytes (height m * width m) ≤ stack_left)
        as Hroom by (intros Hlarge; apply Hstack; lia).
      rewrite (bind_returns _ _ _ _ _
                 (transpose_rectangular h m p cells fuel Hv ltac:(lia) ltac:(lia)
                    ltac:(lia) HfitH Hroom Hfuel)).
      rewrite (transpose_rectangular _ _ p (transpose_cells (height m) (width m) cells));
        cbn [height width values]; try lia.
      * rewrite insert_transposed_twice; [by rewrite Hm | done | lia | lia | done].
      * split; cbn [height width values]; try done.
        -- apply lookup_insert_eq.
        -- pose proof (valid_len _ _ _ _ Hv). lia.
        -- rewrite transpose_cells_length. lia.
      * by rewrite (Z.mul_comm (width m)).
Qed.

(** C2 as stated fails on a valid rectangle without elements (the first
    call aborts), on a column of [2^31] rows (the height is not
    restored), on a rectangle whose index products wrap (with room on
    the stack for the bit array, the first call never returns) and on a
    valid matrix of 2 rows and 35000000 columns (with 8 MiB of stack the
    first call is lost on the bit array). *)
Lemma transpose_twice_does_not_restore :
  valid_matrix ({[ 1%positive := [] ]} : heap Z)
    {| height := 0; width := 2; values := Some 1%positive |} 1%positive [] ∧
  (∀ (stack : Stack) (fuel : nat),
     (let* once := matrix_transpose fuel
                     {| height := 0; width := 2; values := Some 1%positive |} in
      matrix_transpose fuel once) ({[ 1%positive := [] ]} : heap Z) = Aborts) ∧
  (∀ (stack : Stack) (fuel : nat) (h : heap Z),
     (let* once := matrix_transpose fuel
                     {| height := 2 ^ 31; width := 1; values := Some 1%positive |} in
      matrix_transpose fuel once) h
     = Returns ({| height := 2 ^ 64 - 2 ^ 31; width := 1; values := Some 1%positive |}, h)) ∧
  (∀ fuel : nat,
     (let* once := matrix_transpose (stack := {| stack_left := 2 ^ 30 |}) fuel
                     {| height := 2 ^ 32; width := 2; values := Some 1%positive |} in
      matrix_transpose (stack := {| stack_left := 2 ^ 30 |}) fuel once)
       ({[ 1%positive := replicate (Z.to_nat (2 ^ 33)) 0 ]} : heap Z) = OutOfFuel) ∧
  valid_matrix ({[ 1%positive := replicate (Z.to_nat 70000000) 0 ]} : heap Z)
    {| height := 2; width := 35000000; values := Some 1%positive |}
    1%positive (replicate (Z.to_nat 70000000) 0) ∧
  (∀ fuel : nat,
     (let* once := matrix_transpose (stack := stack_8MiB) fuel
                     {| height := 2; width := 35000000; values := Some 1%positive |} in
      matrix_transpose (stack := stack_8MiB) fuel once)
       ({[ 1%positive := replicate (Z.to_nat 70000000) 0 ]} : heap Z) = Undefined).
Proof.
  assert (valid_matrix ({[ 1%positive := replicate (Z.to_nat 70000000) 0 ]} : heap Z)
            {| height := 2; width := 35000000; values := Some 1%positive |}
            1%positive (replicate (Z.to_nat 70000000) 0)) as Hwide.
  { split; cbn [height width values];
      [done | apply lookup_singleton_eq | split; discriminate | split; discriminate
      | discriminate | rewrite length_replicate; by apply Z2Nat.id]. }
  split; [|split; [|split; [|split; [|split; [exact Hwide|]]]]].
  - split; cbn [height width values];
      [done | apply lookup_singleton_eq | split; discriminate | split; discriminate
      | discriminate | done].
  - intros stack fuel. reflexivity.
  - intros stack fuel h. reflexivity.
  - intros fuel. apply bind_out_of_fuel.
    apply (transpose_wraps_and_diverges (stack := {| stack_left := 2 ^ 30 |})
             1%positive _ _ fuel (lookup_singleton_eq _ _)); [|reflexivity].
    rewrite length_replicate. by apply Z2Nat.id.
  - intros fuel. apply bind_undefined.
    exact (transpose_exhausts_stack (stack := stack_8MiB) _ _ _ _ fuel Hwide
               ltac:(discriminate) ltac:(discriminate) ltac:(discriminate)
               eq_refl eq_refl).
Qed.

(** On a 3 × 3 matrix in binary64. *)
Lemma transpose_twice_restores_witness :
  (let* once := matrix_transpose 18
                  {| height := 3; width := 3; values := Some 1%positive |} in
   matrix_transpose 18 once)
    ({[ 1%positive := [1; 2; 3; 4; 5; 6; 7; 8; 9] ]} : heap float)%float
  = Returns ({| height := 3; width := 3; values := Some 1%positive |},
             {[ 1%positive := [1; 2; 3; 4; 5; 6; 7; 8; 9] ]}%float).
Proof.
  apply (transpose_twice_restores
           {| height := 3; width := 3; values := Some 1%positive |}
           ({[ 1%positive := [1; 2; 3; 4; 5; 6; 7; 8; 9] ]} : heap float)%float
           1%positive [1; 2; 3; 4; 5; 6; 7; 8; 9]%float 18).
  - apply valid_matrix_singleton; vm_compute; try split; congruence.
  - cbn. lia.
  - cbn. lia.
  - cbn. lia.
  - cbn. lia.
  - cbn. lia.
  - cbn. lia.
Defined.

(** ** More on running monadic code and on counted loops *)

Section RunMore.
Context {S : Type}.

(** The first [a] iterations, then the others. *)
Lemma for_loop_app (a b : nat) (lo : Z) (body : Z → M S unit) s :
  for_loop (a + b) lo body s
  = (for_loop a lo body ;; for_loop b (lo + Z.of_nat a) body) s.
Proof.
  revert lo s. induction a as [|a IH]; intros lo s.
  - cbn [for_loop Nat.add]. unfold bind, ret. by rewrite Z.add_0_r.
  - cbn [for_loop Nat.add]. unfold bind.
    destruct (body lo s) as [[[] s']| | |]; try done.
    rewrite IH. unfold bind.
    by replace (lo + Z.of_nat (Datatypes.S a)) with (lo + 1 + Z.of_nat a) by lia.
Qed.

End RunMore.

(** ** Passes that fill and map *)

Section FillAndMap.
Context {D : Type}.
Implicit Types (h : heap D) (cells : list D) (m : matrix).

Lemma update_prefix_replicate (v : D) cells (n : nat) :
  (n ≤ length cells)%nat →
  update_prefix (λ _ _, v) n cells = replicate n v ++ drop n cells.
Proof.
  intros Hn. apply list_eq. intros i. rewrite update_prefix_lookup.
  destruct (decide (i < n)%nat) as [Hi | Hi].
  - rewrite lookup_app_l by (rewrite length_replicate; lia).
    rewrite lookup_replicate_2 by done.
    destruct (lookup_lt_is_Some_2 cells i) as [x ->]; [lia | done].
  - rewrite lookup_app_r by (rewrite length_replicate; lia).
    rewrite length_replicate, lookup_drop.
    replace (n + (i - n))%nat with i by lia. by destruct (cells !! i).
Qed.

Lemma update_prefix_map (f : D → D) cells :
  update_prefix (λ _ x, f x) (length cells) cells = f <$> cells.
Proof.
  apply list_eq. intros i. rewrite update_prefix_lookup, list_lookup_fmap.
  destruct (cells !! i) as [x|] eqn:Hx; [|done]. cbn.
  apply lookup_lt_Some in Hx. by rewrite decide_True.
Qed.

(** The loop of [matrix_fill_scalar] over the first [n] cells of a block. *)
Lemma fill_pass (v : D) h p cells (n : Z) :
  h !! p = Some cells → 0 ≤ n ≤ Z.of_nat (length cells) →
  for_range 0 n (λ i, store (Some p) i v) h
  = Returns (tt, <[p := replicate (Z.to_nat n) v ++ drop (Z.to_nat n) cells]> h).
Proof.
  intros Hp Hn.
  rewrite (single_pass (λ _ _, v) _ h p cells n Hp Hn).
  - by rewrite update_prefix_replicate by lia.
  - intros k x Hk Hx. erewrite store_returns; [|apply lookup_insert_eq|].
    + by rewrite insert_insert_eq, Nat2Z.id.
    + rewrite Nat2Z.id, update_prefix_length. lia.
Qed.

(** The same loop run past the end of the block. *)
Lemma fill_overrun (v : D) h p cells (n : Z) :
  h !! p = Some cells → Z.of_nat (length cells) < n →
  for_range 0 n (λ i, store (Some p) i v) h = Undefined.
Proof.
  intros Hp Hn. unfold for_range.
  replace (Z.to_nat (n - 0)) with (length cells + Datatypes.S (Z.to_nat n - length cells - 1))%nat
    by lia.
  rewrite for_loop_app.
  pose proof (fill_pass v h p cells (Z.of_nat (length cells)) Hp ltac:(lia)) as Hrun.
  unfold for_range in Hrun. rewrite Z.sub_0_r, Nat2Z.id in Hrun.
  rewrite (bind_returns _ _ _ _ _ Hrun). cbn [for_loop].
  apply bind_undefined. unfold store. rewrite lookup_insert_eq.
  rewrite decide_False; [done|].
  rewrite Z.add_0_l, Nat2Z.id, length_app, length_replicate, length_drop. lia.
Qed.

(** The loop shared by the scalar operations and by [matrix_map] on a
    function without effects. *)
Lemma map_pass (f : D → D) (body : Z → M (heap D) unit) h p cells (n : Z) :
  h !! p = Some cells → n = Z.of_nat (length cells) →
  (∀ (i : Z) x h' block, h' !! p = Some block → block !! Z.to_nat i = Some x →
     body i h' = Returns (tt, <[p := <[Z.to_nat i := f x]> block]> h')) →
  for_range 0 n body h = Returns (tt, <[p := f <$> cells]> h).
Proof.
  intros Hp -> Hbody.
  rewrite (single_pass (λ _ x, f x) _ h p cells (Z.of_nat (length cells)) Hp ltac:(lia)).
  - by rewrite Nat2Z.id, update_prefix_map.
  - intros k x Hk Hx.
    rewrite (Hbody _ x _ (update_prefix (λ _ x, f x) k cells)).
    + by rewrite insert_insert_eq, Nat2Z.id.
    + apply lookup_insert_eq.
    + rewrite Nat2Z.id, update_prefix_lookup, Hx. cbn. by rewrite decide_False by lia.
Qed.

Lemma load_store_body (f : D → D) (p : positive) (i : Z) x h block :
  h !! p = Some block → block !! Z.to_nat i = Some x →
  (let* x := load (Some p) i in store (Some p) i (f x)) h
  = Returns (tt, <[p := <[Z.to_nat i := f x]> block]> h).
Proof.
  intros Hp Hx. rewrite (bind_returns _ _ _ _ _ (load_returns h p block i x Hp Hx)).
  apply store_returns; [done|]. by apply lookup_lt_Some in Hx.
Qed.

Lemma matrix_fill_scalar_returns h m p cells (v : D) :
  valid_matrix h m p cells →
  matrix_fill_scalar m v h = Returns (tt, <[p := replicate (length cells) v]> h).
Proof.
  intros Hv. unfold matrix_fill_scalar.
  rewrite (valid_matrix_len _ _ _ _ Hv), (valid_values _ _ _ _ Hv).
  pose proof (valid_length _ _ _ _ Hv) as Hlen.
  rewrite (fill_pass v h p cells _ (valid_block _ _ _ _ Hv)) by lia.
  rewrite <- Hlen, Nat2Z.id, drop_all. by rewrite app_nil_r.
Qed.

Lemma matrix_map_returns h m p cells (f : D → D) (func : D → M (heap D) D) :
  valid_matrix h m p cells → (∀ x h', func x h' = Returns (f x, h')) →
  matrix_map m func h = Returns (tt, <[p := f <$> cells]> h).
Proof.
  intros Hv Hpure. unfold matrix_map.
  rewrite (valid_matrix_len _ _ _ _ Hv), (valid_values _ _ _ _ Hv).
  cbn [is_null negb]. rewrite assert_true.
  apply map_pass; [apply (valid_block _ _ _ _ Hv) | by rewrite (valid_length _ _ _ _ Hv) |].
  intros i x h' block Hp Hx.
  rewrite (bind_returns _ _ _ _ _ (load_returns h' p block i x Hp Hx)).
  rewrite (bind_returns _ _ _ _ _ (Hpure x h')).
  apply store_returns; [done|]. by apply lookup_lt_Some in Hx.
Qed.

End FillAndMap.
(** ** Filling with a scalar *)

(** X1: on a valid matrix [matrix_fill_scalar] returns with every cell of
    the block equal to the value and nothing else written; the matrix
    stays valid; and what the block held before does not show: of two
    fills in a row the second alone is seen. *)
Theorem matrix_fill_scalar_fills {D : Type} (m : matrix) (h : heap D)
    (p : positive) (cells : list D) (v w : D) :
  valid_matrix h m p cells →
  matrix_fill_scalar m v h = Returns (tt, <[p := replicate (length cells) v]> h) ∧
  valid_matrix (<[p := replicate (length cells) v]> h) m p (replicate (length cells) v) ∧
  (matrix_fill_scalar m w ;; matrix_fill_scalar m v) h
  = Returns (tt, <[p := replicate (length cells) v]> h).
Proof.
  intros Hv.
  assert (∀ x, valid_matrix (<[p := replicate (length cells) x]> h) m p
                 (replicate (length cells) x)) as Hv'.
  { intros x. apply (valid_matrix_update h m p cells); [done | apply length_replicate]. }
  split; [by apply matrix_fill_scalar_returns|]. split; [apply Hv'|].
  rewrite (bind_returns _ _ _ _ _ (matrix_fill_scalar_returns h m p cells w Hv)).
  rewrite (matrix_fill_scalar_returns _ m p _ v (Hv' w)).
  by rewrite insert_insert_eq, length_replicate.
Qed.

(** A 2 × 2 matrix in binary64 filled with [3.5]. *)
Lemma matrix_fill_scalar_fills_witness :
  matrix_fill_scalar {| height := 2; width := 2; values := Some 1%positive |} 3.5%float
    ({[ 1%positive := [1; 2; -1; -0.5] ]} : heap float)%float
  = Returns (tt, {[ 1%positive := [3.5; 3.5; 3.5; 3.5] ]}%float).
Proof.
  set (h := ({[ 1%positive := [1; 2; -1; -0.5] ]} : heap float)%float).
  assert (valid_matrix h {| height := 2; width := 2; values := Some 1%positive |}
            1%positive [1; 2; -1; -0.5]%float) as Hv
    by (apply valid_matrix_singleton; vm_compute; try split; congruence).
  rewrite (proj1 (matrix_fill_scalar_fills _ h _ _ 3.5%float 0%float Hv)).
  vm_compute. reflexivity.
Defined.

(** X2: the two fills do not check [m->values].  On a matrix whose
    [values] is null (one released by [matrix_del], say)
    [matrix_fill_scalar] and [matrix_fill_uniform] write through the null
    pointer as soon as the matrix has a cell, which is undefined
    behaviour, and return without a write when it has none; the scalar
    operations, [matrix_map], [matrix_get], [matrix_set] and
    [matrix_transpose] abort on their assertion instead. *)
Theorem matrix_fill_null_unchecked {D : Type} `{stack : !Stack} `{!Double D} `{!Libc D}
    (rand : nat → Z) (m : matrix) (h : heap D) (v a b : D) :
  values m = None →
  (0 < matrix_len m →
     matrix_fill_scalar m v h = Undefined ∧
     (d_ltb a b = true → matrix_fill_uniform rand m a b h = Undefined)) ∧
  (matrix_len m = 0 →
     matrix_fill_scalar m v h = Returns (tt, h) ∧
     (d_ltb a b = true → matrix_fill_uniform rand m a b h = Returns (tt, h))) ∧
  matrix_add_scalar m v h = Aborts ∧ matrix_sub_scalar m v h = Aborts ∧
  matrix_mul_scalar m v h = Aborts ∧
  (∀ func, matrix_map m func h = Aborts) ∧
  (∀ row col, matrix_get m row col h = Aborts ∧ matrix_set m row col v h = Aborts) ∧
  (∀ fuel, matrix_transpose fuel m h = Aborts).
Proof.
  intros Hnull.
  split; [|split].
  - intros Hlen. unfold matrix_fill_scalar, matrix_fill_uniform, for_range.
    rewrite Hnull.
    destruct (Z.to_nat (matrix_len m - 0)) as [|n] eqn:Hn; [lia|].
    split; [reflexivity|]. intros ->. reflexivity.
  - intros Hlen. unfold matrix_fill_scalar, matrix_fill_uniform, for_range.
    rewrite Hlen. split; [reflexivity|]. intros ->. reflexivity.
  - unfold matrix_add_scalar, matrix_sub_scalar, matrix_mul_scalar, matrix_map,
      matrix_get, matrix_set, matrix_transpose.
    rewrite Hnull. repeat split; reflexivity.
Qed.

(** A released 2 × 2 matrix and a released 0 × 3 one. *)
Lemma matrix_fill_null_unchecked_witness :
  matrix_fill_scalar {| height := 2; width := 2; values := None |} 1%float (∅ : heap float)
  = Undefined ∧
  matrix_fill_scalar {| height := 0; width := 3; values := None |} 1%float (∅ : heap float)
  = Returns (tt, ∅) ∧
  matrix_add_scalar {| height := 2; width := 2; values := None |} 1%float (∅ : heap float)
  = Aborts.
Proof.
  pose proof (matrix_fill_null_unchecked (λ _, 0)
                {| height := 2; width := 2; values := None |} (∅ : heap float)
                1%float 0%float 1%float eq_refl) as (Hcell & _ & Hadd & _).
  pose proof (matrix_fill_null_unchecked (λ _, 0)
                {| height := 0; width := 3; values := None |} (∅ : heap float)
                1%float 0%float 1%float eq_refl) as (_ & Hnone & _).
  split; [apply Hcell; reflexivity|]. split; [apply Hnone; reflexivity | exact Hadd].
Defined.

(** ** Scalar operations and maps *)

(** X3: on a valid matrix [matrix_add_scalar], [matrix_sub_scalar] and
    [matrix_mul_scalar] return with each cell [x] of the block replaced
    by [x + b], [x - b], [x * b], the scalar on the right, and nothing
    else written. *)
Theorem matrix_scalar_ops_by_cell {D : Type} `{!Double D}
    (a : matrix) (h : heap D) (p : positive) (cells : list D) (b : D) :
  valid_matrix h a p cells →
  matrix_add_scalar a b h = Returns (tt, <[p := (λ x, d_add x b) <$> cells]> h) ∧
  matrix_sub_scalar a b h = Returns (tt, <[p := (λ x, d_sub x b) <$> cells]> h) ∧
  matrix_mul_scalar a b h = Returns (tt, <[p := (λ x, d_mul x b) <$> cells]> h).
Proof.
  intros Hv. unfold matrix_add_scalar, matrix_sub_scalar, matrix_mul_scalar.
  rewrite (valid_matrix_len _ _ _ _ Hv), (valid_values _ _ _ _ Hv).
  cbn [is_null negb]. rewrite !assert_true.
  pose proof (valid_block _ _ _ _ Hv) as Hp.
  pose proof (valid_length _ _ _ _ Hv) as Hlen.
  repeat split.
  - apply (map_pass (λ x, d_add x b)); [done | done |].
    intros i x h' block. apply (load_store_body (λ x, d_add x b)).
  - apply (map_pass (λ x, d_sub x b)); [done | done |].
    intros i x h' block. apply (load_store_body (λ x, d_sub x b)).
  - apply (map_pass (λ x, d_mul x b)); [done | done |].
    intros i x h' block. apply (load_store_body (λ x, d_mul x b)).
Qed.

(** The matrix [[1, 2], [-1, -0.5]] of the tests, in binary64. *)
Lemma matrix_scalar_ops_by_cell_witness :
  matrix_add_scalar {| height := 2; width := 2; values := Some 1%positive |} 1.5%float
    ({[ 1%positive := [1; 2; -1; -0.5] ]} : heap float)%float
  = Returns (tt, {[ 1%positive := [2.5; 3.5; 0.5; 1] ]}%float) ∧
  matrix_sub_scalar {| height := 2; width := 2; values := Some 1%positive |} 1.5%float
    ({[ 1%positive := [1; 2; -1; -0.5] ]} : heap float)%float
  = Returns (tt, {[ 1%positive := [-0.5; 0.5; -2.5; -2] ]}%float) ∧
  matrix_mul_scalar {| height := 2; width := 2; values := Some 1%positive |} 2%float
    ({[ 1%positive := [1; 2; -1; -0.5] ]} : heap float)%float
  = Returns (tt, {[ 1%positive := [2; 4; -2; -1] ]}%float).
Proof.
  set (h := ({[ 1%positive := [1; 2; -1; -0.5] ]} : heap float)%float).
  assert (valid_matrix h {| height := 2; width := 2; values := Some 1%positive |}
            1%positive [1; 2; -1; -0.5]%float) as Hv
    by (apply valid_matrix_singleton; vm_compute; try split; congruence).
  destruct (matrix_scalar_ops_by_cell _ h _ _ 1.5%float Hv) as (Hadd & Hsub & _).
  destruct (matrix_scalar_ops_by_cell _ h _ _ 2%float Hv) as (_ & _ & Hmul).
  rewrite Hadd, Hsub, Hmul. vm_compute. repeat split; reflexivity.
Defined.

(** X4: on a valid matrix [matrix_pow_scalar] returns with each cell [x]
    replaced by [pow(x, b)]: it is [matrix_map] of the function
    [x ↦ pow(x, b)]. *)
Theorem matrix_pow_scalar_by_cell {D : Type} `{!Libm D}
    (a : matrix) (h : heap D) (p : positive) (cells : list D) (b : D) :
  valid_matrix h a p cells →
  matrix_pow_scalar a b h = Returns (tt, <[p := (λ x, d_pow x b) <$> cells]> h) ∧
  matrix_pow_scalar a b h = matrix_map a (λ x, ret (d_pow x b)) h.
Proof.
  intros Hv. split; [|reflexivity].
  unfold matrix_pow_scalar.
  rewrite (valid_matrix_len _ _ _ _ Hv), (valid_values _ _ _ _ Hv).
  cbn [is_null negb]. rewrite !assert_true.
  apply (map_pass (λ x, d_pow x b));
    [apply (valid_block _ _ _ _ Hv) | by rewrite (valid_length _ _ _ _ Hv) |].
  intros i x h' block. apply (load_store_body (λ x, d_pow x b)).
Qed.

(** The cubes of [[1, 2], [-1, 1/2]], as in the tests, on rationals. *)
Lemma matrix_pow_scalar_by_cell_witness :
  matrix_pow_scalar {| height := 2; width := 2; values := Some 1%positive |} 3%Q
    ({[ 1%positive := [1; 2; -1; 1 # 2]%Q ]} : heap Q)
  = Returns (tt, {[ 1%positive := [1; 8; -1; 1 # 8]%Q ]}).
Proof.
  set (h := ({[ 1%positive := [1; 2; -1; 1 # 2]%Q ]} : heap Q)).
  assert (valid_matrix h {| height := 2; width := 2; values := Some 1%positive |}
            1%positive [1; 2; -1; 1 # 2]%Q) as Hv
    by (apply valid_matrix_singleton; vm_compute; try split; congruence).
  rewrite (proj1 (matrix_pow_scalar_by_cell _ h _ _ 3%Q Hv)).
  vm_compute. reflexivity.
Defined.

(** X5: [matrix_map] on a valid matrix, with a function that has no effect
    on the heap and always returns, replaces each cell [x] by the
    function's value at [x], in place, and writes nothing else. *)
Theorem matrix_map_applies {D : Type} (m : matrix) (h : heap D)
    (p : positive) (cells : list D) (f : D → D) (func : D → M (heap D) D) :
  valid_matrix h m p cells → (∀ x h', func x h' = Returns (f x, h')) →
  matrix_map m func h = Returns (tt, <[p := f <$> cells]> h) ∧
  valid_matrix (<[p := f <$> cells]> h) m p (f <$> cells).
Proof.
  intros Hv Hpure. split; [by apply matrix_map_returns|].
  apply (valid_matrix_update h m p cells); [done | apply length_fmap].
Qed.

(** The test of [matrix_map]: [2.0 * x - 4.0] over [[1, -2], [8, 0.5]]. *)
Lemma matrix_map_applies_witness :
  matrix_map {| height := 2; width := 2; values := Some 1%positive |}
    (λ x, ret (random_linear_func x))
    ({[ 1%positive := [1; -2; 8; 0.5] ]} : heap float)%float
  = Returns (tt, {[ 1%positive := [-2; -8; 12; -3] ]}%float).
Proof.
  set (h := ({[ 1%positive := [1; -2; 8; 0.5] ]} : heap float)%float).
  assert (valid_matrix h {| height := 2; width := 2; values := Some 1%positive |}
            1%positive [1; -2; 8; 0.5]%float) as Hv
    by (apply valid_matrix_singleton; vm_compute; try split; congruence).
  rewrite (proj1 (matrix_map_applies _ h _ _ random_linear_func
                    (λ x, ret (random_linear_func x)) Hv (λ _ _, eq_refl))).
  vm_compute. reflexivity.
Defined.

(** X6: two maps in a row are the map of the composition: for functions
    without effects, [matrix_map] with [func] and then with [gunc] leaves
    the heap that one [matrix_map] with [x ↦ gunc(func(x))] leaves. *)
Theorem matrix_map_composes {D : Type} (m : matrix) (h : heap D)
    (p : positive) (cells : list D) (f g : D → D) (func gunc : D → M (heap D) D) :
  valid_matrix h m p cells →
  (∀ x h', func x h' = Returns (f x, h')) → (∀ x h', gunc x h' = Returns (g x, h')) →
  (matrix_map m func ;; matrix_map m gunc) h
  = matrix_map m (λ x, let* y := func x in gunc y) h ∧
  (matrix_map m func ;; matrix_map m gunc) h
  = Returns (tt, <[p := (λ x, g (f x)) <$> cells]> h).
Proof.
  intros Hv Hf Hg.
  assert ((matrix_map m func ;; matrix_map m gunc) h
          = Returns (tt, <[p := (λ x, g (f x)) <$> cells]> h)) as Htwo.
  { rewrite (bind_returns _ _ _ _ _ (matrix_map_returns h m p cells f func Hv Hf)).
    rewrite (matrix_map_returns _ m p (f <$> cells) g gunc); [| |done].
    - by rewrite insert_insert_eq, <- list_fmap_compose.
    - apply (valid_matrix_update h m p cells); [done | apply length_fmap]. }
  split; [|done]. rewrite Htwo. symmetry.
  apply matrix_map_returns; [done|].
  intros x h'. by rewrite (bind_returns _ _ _ _ _ (Hf x h')).
Qed.

(** Doubling, then adding one, over [[1, 2], [3, 4]] of integers. *)
Lemma matrix_map_composes_witness :
  (matrix_map {| height := 2; width := 2; values := Some 1%positive |} (λ x, ret (2 * x)) ;;
   matrix_map {| height := 2; width := 2; values := Some 1%positive |} (λ x, ret (x + 1)))
    ({[ 1%positive := [1; 2; 3; 4] ]} : heap Z)
  = Returns (tt, {[ 1%positive := [3; 5; 7; 9] ]}).
Proof.
  set (h := ({[ 1%positive := [1; 2; 3; 4] ]} : heap Z)).
  assert (valid_matrix h {| height := 2; width := 2; values := Some 1%positive |}
            1%positive [1; 2; 3; 4]) as Hv
    by (apply valid_matrix_singleton; vm_compute; try split; congruence).
  rewrite (proj2 (matrix_map_composes _ h _ _ (λ x, 2 * x) (λ x, x + 1)
                    (λ x, ret (2 * x)) (λ x, ret (x + 1)) Hv
                    (λ _ _, eq_refl) (λ _ _, eq_refl))).
  vm_compute. reflexivity.
Defined.
(** ** Allocation, release and copies *)

Section AllocationMore.
Context {D : Type} `{!Libc D}.
Implicit Types (h : heap D) (cells : list D) (m : matrix).

Lemma fresh_block_unused h : h !! fresh (dom h) = None.
Proof. apply not_elem_of_dom, is_fresh. Qed.

(** The byte count [sizeof(double) * height * width], as [size_t]. *)
Lemma allocation_bytes (rows cols : Z) :
  to_size_t (to_size_t (8 * rows) * cols) = (8 * (rows * cols)) mod 2 ^ 64.
Proof.
  unfold to_size_t. rewrite Z.mul_mod_idemp_l by done. f_equal. lia.
Qed.

(** The fresh block of an allocation makes a valid matrix. *)
Lemma valid_matrix_fresh h (rows cols : Z) cells :
  0 ≤ rows ≤ SIZE_MAX → 0 ≤ cols ≤ SIZE_MAX → rows * cols ≤ SIZE_MAX →
  Z.of_nat (length cells) = rows * cols →
  valid_matrix (<[fresh (dom h) := cells]> h)
    {| height := rows; width := cols; values := Some (fresh (dom h)) |}
    (fresh (dom h)) cells.
Proof.
  intros Hr Hc Hfit Hlen. apply valid_matrix_singleton; try done. apply lookup_insert_eq.
Qed.

Lemma valid_matrix_live h m p cells : valid_matrix h m p cells → p ≠ fresh (dom h).
Proof.
  intros Hv ->. pose proof (valid_block _ _ _ _ Hv) as Hb.
  by rewrite fresh_block_unused in Hb.
Qed.

Lemma matrix_new_aborts h (rows cols : Z) :
  0 ≤ rows → 0 ≤ cols → 8 * (rows * cols) ≤ SIZE_MAX →
  malloc_fails h (8 * (rows * cols)) = true → matrix_new rows cols h = Aborts.
Proof.
  intros Hr Hc Hfit Hfail. unfold matrix_new. rewrite allocation_bytes.
  rewrite Z.mod_small by (unfold SIZE_MAX in Hfit; nia).
  unfold bind at 1. unfold malloc. by rewrite Hfail.
Qed.

Lemma matrix_new_zeroed_returns `{!Double D} `{!Calloc D} h (rows cols : Z) :
  0 ≤ rows → 0 ≤ cols → rows * cols < 2 ^ 61 →
  calloc_fails h (rows * cols) 8 = false →
  matrix_new_zeroed rows cols h
  = Returns ({| height := rows; width := cols; values := Some (fresh (dom h)) |},
             <[fresh (dom h) := replicate (Z.to_nat (rows * cols)) d_zero]> h).
Proof.
  intros Hr Hc Hsmall Hok. unfold matrix_new_zeroed.
  assert (to_size_t (rows * cols) = rows * cols) as ->
    by (unfold to_size_t; apply Z.mod_small; nia).
  unfold bind at 1. unfold calloc. rewrite Hok.
  destruct (Z.ltb_spec SIZE_MAX (rows * cols * 8)); [unfold SIZE_MAX in *; lia|].
  cbn [orb is_null negb]. by rewrite Z.div_mul by done.
Qed.

Lemma matrix_new_repeated_returns h (rows cols : Z) (x : D) :
  0 ≤ rows ≤ SIZE_MAX → 0 ≤ cols ≤ SIZE_MAX → 8 * (rows * cols) ≤ SIZE_MAX →
  malloc_fails h (8 * (rows * cols)) = false →
  matrix_new_repeated rows cols x h
  = Returns ({| height := rows; width := cols; values := Some (fresh (dom h)) |},
             <[fresh (dom h) := replicate (Z.to_nat (rows * cols)) x]> h).
Proof.
  intros Hr Hc Hfit Hok. unfold matrix_new_repeated.
  rewrite (bind_returns _ _ _ _ _
             (matrix_new_returns h rows cols (proj1 Hr) (proj1 Hc) Hfit Hok)).
  set (junk := replicate (Z.to_nat (rows * cols)) indeterminate).
  rewrite (bind_returns _ _ _ _ _
             (matrix_fill_scalar_returns _ _ (fresh (dom h)) junk x
                (valid_matrix_fresh h rows cols junk Hr Hc ltac:(lia)
                   ltac:(unfold junk; rewrite length_replicate; nia)))).
  unfold ret, junk. by rewrite insert_insert_eq, length_replicate.
Qed.

Lemma matrix_copy_returns h m p cells :
  valid_matrix h m p cells → 8 * (height m * width m) ≤ SIZE_MAX →
  malloc_fails h (8 * (height m * width m)) = false →
  matrix_copy m h
  = Returns ({| height := height m; width := width m; values := Some (fresh (dom h)) |},
             <[fresh (dom h) := cells]> h).
Proof.
  intros Hv Hfit Hok.
  pose proof (valid_height _ _ _ _ Hv) as Hh. pose proof (valid_width _ _ _ _ Hv) as Hw.
  pose proof (valid_length _ _ _ _ Hv) as Hlen.
  pose proof (valid_matrix_live _ _ _ _ Hv) as Hne.
  unfold matrix_copy. rewrite (valid_values _ _ _ _ Hv). cbn [is_null negb].
  rewrite assert_true.
  rewrite (bind_returns _ _ _ _ _
             (matrix_new_returns h _ _ (proj1 Hh) (proj1 Hw) Hfit Hok)).
  cbn [values]. rewrite (valid_matrix_len _ _ _ _ Hv).
  assert (to_size_t (8 * (height m * width m)) = 8 * (height m * width m)) as ->.
  { unfold to_size_t. apply Z.mod_small. unfold SIZE_MAX in Hfit. nia. }
  unfold bind at 1. unfold memcpy.
  rewrite lookup_insert_eq, lookup_insert_ne, (valid_block _ _ _ _ Hv) by done.
  rewrite Z.mul_comm, Z.div_mul by done.
  rewrite decide_True.
  2:{ rewrite length_replicate. split; [lia|]. split; [lia|]. by left. }
  unfold ret. do 2 f_equal. rewrite insert_insert_eq. f_equal.
  rewrite take_ge by lia. rewrite drop_ge by (rewrite length_replicate; lia).
  apply app_nil_r.
Qed.

End AllocationMore.

(** X7: [matrix_new], for dimensions whose byte count fits [size_t],
    aborts when [malloc] returns [NULL] and otherwise returns a valid
    matrix of the dimensions asked, on a block at an address that was not
    in use; every block of the heap is as it was and every valid matrix
    stays valid. *)
Theorem matrix_new_allocates {D : Type} `{!Libc D} (h : heap D) (rows cols : Z) :
  0 ≤ rows ≤ SIZE_MAX → 0 ≤ cols ≤ SIZE_MAX → 8 * (rows * cols) ≤ SIZE_MAX →
  (malloc_fails h (8 * (rows * cols)) = true → matrix_new rows cols h = Aborts) ∧
  (malloc_fails h (8 * (rows * cols)) = false →
     ∃ p cells h',
       matrix_new rows cols h
       = Returns ({| height := rows; width := cols; values := Some p |}, h') ∧
       h !! p = None ∧
       valid_matrix h' {| height := rows; width := cols; values := Some p |} p cells ∧
       (∀ q, q ≠ p → h' !! q = h !! q) ∧
       (∀ m q block, valid_matrix h m q block → valid_matrix h' m q block)).
Proof.
  intros Hr Hc Hfit. split.
  - intros Hfail. apply matrix_new_aborts; [lia | lia | done | done].
  - intros Hok.
    exists (fresh (dom h)), (replicate (Z.to_nat (rows * cols)) indeterminate).
    eexists. split; [apply matrix_new_returns; [lia | lia | done | done]|].
    split; [apply fresh_block_unused|]. split; [|split].
    + apply valid_matrix_fresh; try done; [lia | rewrite length_replicate; nia].
    + intros q Hq. by rewrite lookup_insert_ne.
    + intros m q block Hv.
      apply valid_matrix_insert_ne; [done | apply (valid_matrix_live _ _ _ _ Hv)].
Qed.

(** A 3 × 4 matrix allocated in the empty heap. *)
Lemma matrix_new_allocates_witness :
  ∃ p cells h',
    matrix_new 3 4 (∅ : heap float)
    = Returns ({| height := 3; width := 4; values := Some p |}, h') ∧
    (∅ : heap float) !! p = None ∧
    valid_matrix h' {| height := 3; width := 4; values := Some p |} p cells ∧
    (∀ q, q ≠ p → h' !! q = (∅ : heap float) !! q) ∧
    (∀ m q block, valid_matrix (∅ : heap float) m q block → valid_matrix h' m q block).
Proof.
  apply (proj2 (matrix_new_allocates (∅ : heap float) 3 4
                  ltac:(split; discriminate) ltac:(split; discriminate)
                  ltac:(discriminate))).
  reflexivity.
Defined.

(** X8: allocation and release are inverse: [matrix_del] of the matrix
    that [matrix_new] has just returned gives the heap back as it was
    before the allocation, and the matrix with [values] null. *)
Theorem matrix_new_del_restores_heap {D : Type} `{!Libc D} (h : heap D) (rows cols : Z) :
  0 ≤ rows → 0 ≤ cols → 8 * (rows * cols) ≤ SIZE_MAX →
  malloc_fails h (8 * (rows * cols)) = false →
  (let* m := matrix_new rows cols in matrix_del m) h
  = Returns ({| height := rows; width := cols; values := None |}, h).
Proof.
  intros Hr Hc Hfit Hok.
  rewrite (bind_returns _ _ _ _ _ (matrix_new_returns h rows cols Hr Hc Hfit Hok)).
  unfold matrix_del. cbn [values is_null negb height width]. rewrite !assert_true.
  unfold bind, free, ret. rewrite lookup_insert_eq.
  by rewrite delete_insert_id by apply fresh_block_unused.
Qed.

(** Beside a matrix already in the heap. *)
Lemma matrix_new_del_restores_heap_witness :
  (let* m := matrix_new 3 4 in matrix_del m) ({[ 1%positive := [1; 2]%float ]} : heap float)
  = Returns ({| height := 3; width := 4; values := None |}, {[ 1%positive := [1; 2]%float ]}).
Proof.
  apply (matrix_new_del_restores_heap ({[ 1%positive := [1; 2]%float ]} : heap float) 3 4);
    [discriminate | discriminate | discriminate | reflexivity].
Defined.

(** X9: [matrix_new] does not check the byte count
    [sizeof(double) * height * width] for overflow.  Where the number of
    cells fits [size_t] and is [2^61] or more, the byte count wraps;
    [malloc], granting the wrapped request, gives a block of fewer cells
    than the matrix has, and [matrix_new_repeated] then writes past the
    end of the block: undefined behaviour, not an abort. *)
Theorem matrix_new_repeated_overruns {D : Type} `{!Libc D}
    (h : heap D) (rows cols : Z) (x : D) :
  0 ≤ rows → 0 ≤ cols → 2 ^ 61 ≤ rows * cols ≤ SIZE_MAX →
  malloc_fails h ((8 * (rows * cols)) mod 2 ^ 64) = false →
  (∃ block,
     matrix_new rows cols h
     = Returns ({| height := rows; width := cols; values := Some (fresh (dom h)) |},
                <[fresh (dom h) := block]> h) ∧
     Z.of_nat (length block) < rows * cols) ∧
  matrix_new_repeated rows cols x h = Undefined.
Proof.
  intros Hr Hc Hcells Hok.
  set (bytes := (8 * (rows * cols)) mod 2 ^ 64) in *.
  set (block := replicate (Z.to_nat (bytes / 8)) (indeterminate : D)).
  assert (0 ≤ bytes < 2 ^ 64) as Hbytes by (apply Z.mod_pos_bound; lia).
  assert (Z.of_nat (length block) < rows * cols) as Hshort.
  { unfold block. rewrite length_replicate.
    assert (0 ≤ bytes / 8 < 2 ^ 61)
      by (split; [apply Z.div_pos; lia | apply Z.div_lt_upper_bound; lia]).
    lia. }
  assert (matrix_new rows cols h
          = Returns ({| height := rows; width := cols; values := Some (fresh (dom h)) |},
                     <[fresh (dom h) := block]> h)) as Hnew.
  { unfold matrix_new. rewrite allocation_bytes. fold bytes.
    unfold bind at 1. unfold malloc. by rewrite Hok. }
  split; [by exists block|].
  unfold matrix_new_repeated. rewrite (bind_returns _ _ _ _ _ Hnew).
  apply bind_undefined. unfold matrix_fill_scalar, matrix_len. cbn [height width values].
  apply (fill_overrun x _ _ block); [apply lookup_insert_eq|].
  unfold to_size_t. rewrite Z.mod_small by (unfold SIZE_MAX in Hcells; lia). done.
Qed.

(** A column of [2^61] rows: the request is of [0] bytes. *)
Lemma matrix_new_repeated_overruns_witness :
  matrix_new_repeated (2 ^ 61) 1 1%float (∅ : heap float) = Undefined.
Proof.
  apply (matrix_new_repeated_overruns (∅ : heap float) (2 ^ 61) 1 1%float);
    [discriminate | discriminate | split; discriminate | reflexivity].
Defined.
(** X10: [matrix_new_zeroed] passes the number of cells to [calloc],
    which checks the byte count.  For dimensions whose number of cells
    fits [size_t]: it aborts when the byte count does not fit [size_t]
    ([2^61] cells or more) or [calloc] returns [NULL]; otherwise it
    returns a valid matrix of the dimensions asked whose cells are all
    [0.0], on a block at an address that was not in use. *)
Theorem matrix_new_zeroed_zeroes {D : Type} `{!Double D} `{!Calloc D}
    (h : heap D) (rows cols : Z) :
  0 ≤ rows ≤ SIZE_MAX → 0 ≤ cols ≤ SIZE_MAX → rows * cols ≤ SIZE_MAX →
  (2 ^ 61 ≤ rows * cols → matrix_new_zeroed rows cols h = Aborts) ∧
  (calloc_fails h (rows * cols) 8 = true → matrix_new_zeroed rows cols h = Aborts) ∧
  (rows * cols < 2 ^ 61 → calloc_fails h (rows * cols) 8 = false →
     matrix_new_zeroed rows cols h
     = Returns ({| height := rows; width := cols; values := Some (fresh (dom h)) |},
                <[fresh (dom h) := replicate (Z.to_nat (rows * cols)) d_zero]> h) ∧
     h !! fresh (dom h) = None ∧
     valid_matrix (<[fresh (dom h) := replicate (Z.to_nat (rows * cols)) d_zero]> h)
       {| height := rows; width := cols; values := Some (fresh (dom h)) |}
       (fresh (dom h)) (replicate (Z.to_nat (rows * cols)) d_zero)).
Proof.
  intros Hr Hc Hfit.
  assert (to_size_t (rows * cols) = rows * cols) as Hlen.
  { unfold to_size_t. apply Z.mod_small. unfold SIZE_MAX in Hfit. nia. }
  unfold matrix_new_zeroed. rewrite Hlen. unfold bind at 1 3 5. unfold calloc.
  split; [|split].
  - intros Hbig. destruct (Z.ltb_spec SIZE_MAX (rows * cols * 8)); [done|].
    unfold SIZE_MAX in *. lia.
  - intros Hfail. rewrite Hfail, orb_true_r. done.
  - intros Hsmall Hok. rewrite Hok.
    destruct (Z.ltb_spec SIZE_MAX (rows * cols * 8)); [unfold SIZE_MAX in *; lia|].
    cbn [orb is_null negb]. rewrite Z.div_mul by done.
    split; [done|]. split; [apply fresh_block_unused|].
    apply valid_matrix_fresh; try done. rewrite length_replicate. nia.
Qed.

(** The 2 × 1 matrix of the tests, and a column of [2^61] rows. *)
Lemma matrix_new_zeroed_zeroes_witness :
  matrix_new_zeroed 2 1 (∅ : heap float)
  = Returns ({| height := 2; width := 1; values := Some 1%positive |},
             {[ 1%positive := [0; 0]%float ]}) ∧
  matrix_new_zeroed (2 ^ 61) 1 (∅ : heap float) = Aborts.
Proof.
  split.
  - apply (proj2 (proj2 (matrix_new_zeroed_zeroes (∅ : heap float) 2 1
                           ltac:(split; discriminate) ltac:(split; discriminate)
                           ltac:(discriminate)))); reflexivity.
  - apply (proj1 (matrix_new_zeroed_zeroes (∅ : heap float) (2 ^ 61) 1
                    ltac:(split; discriminate) ltac:(split; discriminate)
                    ltac:(discriminate))). discriminate.
Defined.

(** X11: [matrix_new_repeated] returns a valid matrix whose cells all
    hold the value given, and with the value [0.0] it returns what
    [matrix_new_zeroed] returns, where the byte count fits [size_t] and
    both allocators grant the request. *)
Theorem matrix_new_repeated_zero_is_zeroed {D : Type} `{!Double D} `{!Libc D} `{!Calloc D}
    (h : heap D) (rows cols : Z) (x : D) :
  0 ≤ rows ≤ SIZE_MAX → 0 ≤ cols ≤ SIZE_MAX → 8 * (rows * cols) ≤ SIZE_MAX →
  malloc_fails h (8 * (rows * cols)) = false →
  matrix_new_repeated rows cols x h
  = Returns ({| height := rows; width := cols; values := Some (fresh (dom h)) |},
             <[fresh (dom h) := replicate (Z.to_nat (rows * cols)) x]> h) ∧
  valid_matrix (<[fresh (dom h) := replicate (Z.to_nat (rows * cols)) x]> h)
    {| height := rows; width := cols; values := Some (fresh (dom h)) |}
    (fresh (dom h)) (replicate (Z.to_nat (rows * cols)) x) ∧
  (calloc_fails h (rows * cols) 8 = false →
     matrix_new_repeated rows cols d_zero h = matrix_new_zeroed rows cols h).
Proof.
  intros Hr Hc Hfit Hok.
  split; [by apply matrix_new_repeated_returns|]. split.
  - apply valid_matrix_fresh; try done; [lia | rewrite length_replicate; nia].
  - intros Hcalloc. rewrite matrix_new_repeated_returns by done.
    symmetry.
    apply (matrix_new_zeroed_returns h rows cols); [lia | lia | | done].
    unfold SIZE_MAX in Hfit. lia.
Qed.

(** The 1 × 2 matrix of [3.5], and a 2 × 2 matrix of zeros. *)
Lemma matrix_new_repeated_zero_is_zeroed_witness :
  matrix_new_repeated 1 2 3.5%float (∅ : heap float)
  = Returns ({| height := 1; width := 2; values := Some 1%positive |},
             {[ 1%positive := [3.5; 3.5]%float ]}) ∧
  matrix_new_repeated 2 2 0%float (∅ : heap float) = matrix_new_zeroed 2 2 (∅ : heap float).
Proof.
  split.
  - apply (proj1 (matrix_new_repeated_zero_is_zeroed (∅ : heap float) 1 2 3.5%float
                    ltac:(split; discriminate) ltac:(split; discriminate)
                    ltac:(discriminate) eq_refl)).
  - apply (proj2 (proj2 (matrix_new_repeated_zero_is_zeroed (∅ : heap float) 2 2 0%float
                           ltac:(split; discriminate) ltac:(split; discriminate)
                           ltac:(discriminate) eq_refl))). reflexivity.
Defined.

(** X12: [matrix_copy] aborts on a matrix whose [values] is null and when
    [malloc] returns [NULL]; otherwise, on a valid matrix whose byte
    count fits [size_t], it returns a matrix of the same height and
    width on a block of its own, at an address that was not in use and
    so is not the source's, holding the same cells; the source block is
    not written, and both matrices are valid afterwards. *)
Theorem matrix_copy_copies {D : Type} `{!Libc D} (m : matrix) (h : heap D)
    (p : positive) (cells : list D) :
  valid_matrix h m p cells → 8 * (height m * width m) ≤ SIZE_MAX →
  (malloc_fails h (8 * (height m * width m)) = true → matrix_copy m h = Aborts) ∧
  (malloc_fails h (8 * (height m * width m)) = false →
     ∃ p2 h',
       matrix_copy m h
       = Returns ({| height := height m; width := width m; values := Some p2 |}, h') ∧
       p2 ≠ p ∧ h !! p2 = None ∧ h' = <[p2 := cells]> h ∧
       valid_matrix h' m p cells ∧
       valid_matrix h' {| height := height m; width := width m; values := Some p2 |}
         p2 cells) ∧
  matrix_copy {| height := height m; width := width m; values := None |} h = Aborts.
Proof.
  intros Hv Hfit.
  pose proof (valid_height _ _ _ _ Hv) as Hh. pose proof (valid_width _ _ _ _ Hv) as Hw.
  pose proof (valid_matrix_live _ _ _ _ Hv) as Hne.
  split; [|split; [|reflexivity]].
  - intros Hfail. unfold matrix_copy. rewrite (valid_values _ _ _ _ Hv).
    cbn [is_null negb]. rewrite assert_true. apply bind_aborts.
    apply matrix_new_aborts; [lia | lia | done | done].
  - intros Hok. exists (fresh (dom h)), (<[fresh (dom h) := cells]> h).
    split; [by apply (matrix_copy_returns h m p cells)|]. split; [done|].
    split; [apply fresh_block_unused|]. split; [done|]. split.
    + by apply valid_matrix_insert_ne.
    + apply valid_matrix_fresh; try done;
        [apply (valid_len _ _ _ _ Hv) | apply (valid_length _ _ _ _ Hv)].
Qed.

(** The 2 × 3 matrix of the tests. *)
Lemma matrix_copy_copies_witness :
  ∃ p2 h',
    matrix_copy {| height := 2; width := 3; values := Some 1%positive |}
      ({[ 1%positive := [-2; 1; 1; 4; 3.5; -0.5] ]} : heap float)%float
    = Returns ({| height := 2; width := 3; values := Some p2 |}, h') ∧
    p2 ≠ 1%positive ∧
    h' !! 1%positive = Some [-2; 1; 1; 4; 3.5; -0.5]%float ∧
    h' !! p2 = Some [-2; 1; 1; 4; 3.5; -0.5]%float.
Proof.
  set (h := ({[ 1%positive := [-2; 1; 1; 4; 3.5; -0.5] ]} : heap float)%float).
  assert (valid_matrix h {| height := 2; width := 3; values := Some 1%positive |}
            1%positive [-2; 1; 1; 4; 3.5; -0.5]%float) as Hv
    by (apply valid_matrix_singleton; vm_compute; try split; congruence).
  destruct (proj1 (proj2 (matrix_copy_copies _ h _ _ Hv ltac:(discriminate))) eq_refl)
    as (p2 & h' & Hrun & Hne & _ & _ & Hsrc & Hcopy).
  exists p2, h'. split; [exact Hrun|]. split; [exact Hne|].
  split; [apply (valid_block _ _ _ _ Hsrc) | apply (valid_block _ _ _ _ Hcopy)].
Defined.
(** ** Cell access: reading back, bounds, copies *)

Section CellsMore.
Context {D : Type}.
Implicit Types (h : heap D) (cells : list D) (m : matrix).

(** [matrix_get] on a valid matrix, by the cell it finds. *)
Lemma matrix_get_cell h m p cells row col x :
  valid_matrix h m p cells → 0 ≤ row < height m → 0 ≤ col < width m →
  cells !! Z.to_nat (row * width m + col) = Some x →
  matrix_get m row col h = Returns (x, h).
Proof.
  intros Hv Hrow Hcol Hx.
  destruct (matrix_get_returns h m p cells row col Hv Hrow Hcol) as (v & Hcell & Hget).
  congruence.
Qed.

Lemma matrix_set_valid h m p cells row col (v : D) :
  valid_matrix h m p cells →
  valid_matrix (<[p := <[Z.to_nat (row * width m + col) := v]> cells]> h) m p
    (<[Z.to_nat (row * width m + col) := v]> cells).
Proof. intros Hv. apply (valid_matrix_update h m p cells); [done | apply length_insert]. Qed.

End CellsMore.

(** X13: what [matrix_set] stores, [matrix_get] reads back.  On a valid
    matrix and a cell within its bounds, [matrix_set] writes the one cell
    of flat index [row * width + col]; a [matrix_get] of that cell then
    returns the value stored, and a [matrix_get] of any other cell
    returns what it returned before the store. *)
Theorem matrix_set_then_get {D : Type} (m : matrix) (h : heap D)
    (p : positive) (cells : list D) (row col : Z) (v : D) :
  valid_matrix h m p cells → 0 ≤ row < height m → 0 ≤ col < width m →
  let h' := <[p := <[Z.to_nat (row * width m + col) := v]> cells]> h in
  matrix_set m row col v h = Returns (tt, h') ∧
  matrix_get m row col h' = Returns (v, h') ∧
  ∀ row' col' x, 0 ≤ row' < height m → 0 ≤ col' < width m →
    (row', col') ≠ (row, col) →
    matrix_get m row' col' h = Returns (x, h) →
    matrix_get m row' col' h' = Returns (x, h').
Proof.
  intros Hv Hrow Hcol h'.
  destruct (cell_index_bounds h m p cells row col Hv Hrow Hcol) as [Hidx _].
  pose proof (valid_length _ _ _ _ Hv) as Hlen.
  pose proof (matrix_set_valid h m p cells row col v Hv) as Hv'.
  split; [by apply matrix_set_returns|]. split.
  - apply (matrix_get_cell h' m p _ row col v Hv' Hrow Hcol).
    apply list_lookup_insert_eq. lia.
  - intros row' col' x Hrow' Hcol' Hother Hget.
    apply (matrix_get_cell h' m p _ row' col' x Hv' Hrow' Hcol').
    rewrite list_lookup_insert_ne.
    + destruct (matrix_get_returns h m p cells row' col' Hv Hrow' Hcol')
        as (x' & Hcell & Hget').
      congruence.
    + destruct (cell_index_bounds h m p cells row' col' Hv Hrow' Hcol') as [Hidx' _].
      intros Heq. apply Hother.
      destruct (cell_index_inj (width m) row col row' col') as [-> ->]; [lia | lia | lia | done].
Qed.

(** Cell [(1, 3)] of a 3 × 4 matrix of integers, then cell [(0, 1)]. *)
Lemma matrix_set_then_get_witness :
  (matrix_set {| height := 3; width := 4; values := Some 1%positive |} 1 3 40 ;;
   matrix_get {| height := 3; width := 4; values := Some 1%positive |} 1 3)
    ({[ 1%positive := seqZ 0 12 ]} : heap Z)
  = Returns (40, {[ 1%positive := [0; 1; 2; 3; 4; 5; 6; 40; 8; 9; 10; 11] ]}) ∧
  (matrix_set {| height := 3; width := 4; values := Some 1%positive |} 1 3 40 ;;
   matrix_get {| height := 3; width := 4; values := Some 1%positive |} 0 1)
    ({[ 1%positive := seqZ 0 12 ]} : heap Z)
  = Returns (1, {[ 1%positive := [0; 1; 2; 3; 4; 5; 6; 40; 8; 9; 10; 11] ]}).
Proof.
  set (m := {| height := 3; width := 4; values := Some 1%positive |}).
  set (h := ({[ 1%positive := seqZ 0 12 ]} : heap Z)).
  assert (valid_matrix h m 1%positive (seqZ 0 12)) as Hv
    by (apply valid_matrix_singleton; vm_compute; try split; congruence).
  destruct (matrix_set_then_get m h 1%positive (seqZ 0 12) 1 3 40 Hv
              ltac:(split; [discriminate | reflexivity])
              ltac:(split; [discriminate | reflexivity])) as (Hset & Hget & Hother).
  split.
  - rewrite (bind_returns _ _ _ _ _ Hset), Hget. vm_compute. reflexivity.
  - rewrite (bind_returns _ _ _ _ _ Hset).
    rewrite (Hother 0 1 1 ltac:(split; [discriminate | reflexivity])
               ltac:(split; [discriminate | reflexivity])
               ltac:(discriminate) eq_refl).
    vm_compute. reflexivity.
Defined.

(** X14: access to a valid matrix is checked.  For every row and column
    (as [size_t] values, so not negative) [matrix_get] and [matrix_set]
    abort exactly when the row is not below the height or the column not
    below the width, and otherwise return, having read or written the
    cell of flat index [row * width + col]; neither ever reaches
    undefined behaviour. *)
Theorem matrix_get_set_checked {D : Type} (m : matrix) (h : heap D)
    (p : positive) (cells : list D) (row col : Z) (v : D) :
  valid_matrix h m p cells → 0 ≤ row → 0 ≤ col →
  (matrix_get m row col h = Aborts ↔ height m ≤ row ∨ width m ≤ col) ∧
  (matrix_set m row col v h = Aborts ↔ height m ≤ row ∨ width m ≤ col) ∧
  (row < height m → col < width m →
     ∃ x, cells !! Z.to_nat (row * width m + col) = Some x ∧
          matrix_get m row col h = Returns (x, h)) ∧
  matrix_get m row col h ≠ Undefined ∧ matrix_set m row col v h ≠ Undefined.
Proof.
  intros Hv Hrow Hcol.
  destruct (decide (row < height m ∧ col < width m)) as [[Hr Hc] | Hout].
  - destruct (matrix_get_returns h m p cells row col Hv ltac:(lia) ltac:(lia))
      as (x & Hx & Hget).
    pose proof (matrix_set_returns h m p cells row col v Hv ltac:(lia) ltac:(lia)) as Hset.
    rewrite Hget, Hset. repeat split; try done; try lia.
    intros _ _. by exists x.
  - assert (matrix_get m row col h = Aborts ∧ matrix_set m row col v h = Aborts) as [Hget Hset].
    { unfold matrix_get, matrix_set. rewrite (valid_values _ _ _ _ Hv).
      cbn [is_null negb]. rewrite !assert_true.
      destruct (Z.ltb_spec row (height m)); [|done]. rewrite !assert_true.
      destruct (Z.ltb_spec col (width m)); [lia | done]. }
    rewrite Hget, Hset. repeat split; try done; lia.
Qed.

(** Row 3 of a 3 × 4 matrix, and its cell [(2, 3)]. *)
Lemma matrix_get_set_checked_witness :
  matrix_get {| height := 3; width := 4; values := Some 1%positive |} 3 0
    ({[ 1%positive := seqZ 0 12 ]} : heap Z) = Aborts ∧
  matrix_get {| height := 3; width := 4; values := Some 1%positive |} 2 3
    ({[ 1%positive := seqZ 0 12 ]} : heap Z) ≠ Undefined.
Proof.
  set (m := {| height := 3; width := 4; values := Some 1%positive |}).
  set (h := ({[ 1%positive := seqZ 0 12 ]} : heap Z)).
  assert (valid_matrix h m 1%positive (seqZ 0 12)) as Hv
    by (apply valid_matrix_singleton; vm_compute; try split; congruence).
  split.
  - apply (proj1 (matrix_get_set_checked m h 1%positive (seqZ 0 12) 3 0 0 Hv
                    ltac:(discriminate) ltac:(discriminate))).
    left. discriminate.
  - apply (matrix_get_set_checked m h 1%positive (seqZ 0 12) 2 3 0 Hv
             ltac:(discriminate) ltac:(discriminate)).
Defined.

(** X15: a copy is independent of its source.  After [matrix_copy] of a
    valid matrix, a [matrix_set] on the copy leaves every cell that
    [matrix_get] reads from the source as it was, and a [matrix_set] on
    the source leaves every cell of the copy as it was. *)
Theorem matrix_copy_is_independent {D : Type} `{!Libc D} (m : matrix) (h : heap D)
    (p : positive) (cells : list D) (row col row' col' : Z) (v x : D) :
  valid_matrix h m p cells → 8 * (height m * width m) ≤ SIZE_MAX →
  malloc_fails h (8 * (height m * width m)) = false →
  0 ≤ row < height m → 0 ≤ col < width m →
  0 ≤ row' < height m → 0 ≤ col' < width m →
  matrix_get m row' col' h = Returns (x, h) →
  (∃ h', (let* m2 := matrix_copy m in
          matrix_set m2 row col v ;; matrix_get m row' col') h = Returns (x, h')) ∧
  (∃ h', (let* m2 := matrix_copy m in
          matrix_set m row col v ;; matrix_get m2 row' col') h = Returns (x, h')).
Proof.
  intros Hv Hfit Hok Hrow Hcol Hrow' Hcol' Hget.
  set (p2 := fresh (dom h)).
  set (m2 := {| height := height m; width := width m; values := Some p2 |}).
  pose proof (matrix_copy_returns h m p cells Hv Hfit Hok) as Hcopy. fold p2 m2 in Hcopy.
  pose proof (valid_matrix_live _ _ _ _ Hv) as Hne. fold p2 in Hne.
  assert (valid_matrix (<[p2 := cells]> h) m p cells) as Hsrc
    by (by apply valid_matrix_insert_ne).
  assert (valid_matrix (<[p2 := cells]> h) m2 p2 cells) as Hdst.
  { apply valid_matrix_fresh;
      [apply (valid_height _ _ _ _ Hv) | apply (valid_width _ _ _ _ Hv)
      | apply (valid_len _ _ _ _ Hv) | apply (valid_length _ _ _ _ Hv)]. }
  destruct (matrix_get_returns h m p cells row' col' Hv Hrow' Hcol') as (x' & Hx & Hget').
  assert (x' = x) as -> by congruence.
  split.
  - eexists. rewrite (bind_returns _ _ _ _ _ Hcopy).
    rewrite (bind_returns _ _ _ _ _
               (matrix_set_returns _ m2 p2 cells row col v Hdst Hrow Hcol)).
    apply (matrix_get_cell _ m p cells row' col' x); [|done | done | done].
    apply valid_matrix_insert_ne; [done | done].
  - eexists. rewrite (bind_returns _ _ _ _ _ Hcopy).
    rewrite (bind_returns _ _ _ _ _
               (matrix_set_returns _ m p cells row col v Hsrc Hrow Hcol)).
    apply (matrix_get_cell _ m2 p2 cells row' col' x); [|done | done | done].
    apply valid_matrix_insert_ne; [done | done].
Qed.

(** A 2 × 2 matrix, its copy, and cell [(0, 1)] of each. *)
Lemma matrix_copy_is_independent_witness :
  ∃ h', (let* m2 := matrix_copy {| height := 2; width := 2; values := Some 1%positive |} in
         matrix_set m2 0 1 40%float ;;
         matrix_get {| height := 2; width := 2; values := Some 1%positive |} 0 1)
          ({[ 1%positive := [1; 2; 3; 4]%float ]} : heap float) = Returns (2%float, h').
Proof.
  set (m := {| height := 2; width := 2; values := Some 1%positive |}).
  set (h := ({[ 1%positive := [1; 2; 3; 4]%float ]} : heap float)).
  assert (valid_matrix h m 1%positive [1; 2; 3; 4]%float) as Hv
    by (apply valid_matrix_singleton; vm_compute; try split; congruence).
  apply (proj1 (matrix_copy_is_independent m h 1%positive [1; 2; 3; 4]%float
                  0 1 0 1 40%float 2%float Hv
                  ltac:(discriminate) eq_refl
                  ltac:(split; [discriminate | reflexivity])
                  ltac:(split; [discriminate | reflexivity])
                  ltac:(split; [discriminate | reflexivity])
                  ltac:(split; [discriminate | reflexivity]) eq_refl)).
Defined.
(** ** The bit sets of the transposition, on their own *)

Section BitSetsMore.

Lemma lor_pow2_range (number l : Z) :
  0 ≤ number < 2 ^ 64 → 0 ≤ l < 64 → 0 ≤ Z.lor number (2 ^ l) < 2 ^ 64.
Proof.
  intros Hn Hl.
  assert (0 < 2 ^ l < 2 ^ 64) as Hp
    by (split; [apply Z.pow_pos_nonneg; lia | apply Z.pow_lt_mono_r; lia]).
  assert (0 ≤ Z.lor number (2 ^ l)) as H0 by (apply Z.lor_nonneg; lia).
  split; [done|].
  destruct (decide (Z.lor number (2 ^ l) = 0)) as [-> | Hne]; [lia|].
  apply Z.log2_lt_pow2; [lia|]. rewrite Z.log2_lor by lia.
  apply Z.max_lub_lt.
  - destruct (decide (number = 0)) as [-> | Hn0]; [done|]. apply Z.log2_lt_pow2; lia.
  - apply Z.log2_lt_pow2; lia.
Qed.

Lemma lor_pow2_absorbs (number l : Z) :
  0 ≤ l → Z.testbit number l = true → Z.lor number (2 ^ l) = number.
Proof.
  intros Hl Hbit. apply Z.bits_inj'. intros k Hk. rewrite lor_pow2_testbit by done.
  destruct (Z.eqb_spec k l) as [-> | Hne]; [by rewrite Hbit | done].
Qed.

Lemma has_bit_testbit (number i : Z) :
  0 ≤ i < 64 → matrix__has_bit number i = Some (Z.testbit number i).
Proof.
  intros Hi. unfold matrix__has_bit. destruct (Z.ltb_spec i 64); [|lia].
  by rewrite one_shifted, land_pow2_testbit by lia.
Qed.

Lemma bitset_has_testbit (bitset : list Z) (i : Z) word :
  0 ≤ i → bitset !! Z.to_nat (i / 64) = Some word →
  matrix__bitset_has bitset i = Some (Z.testbit word (i mod 64)).
Proof.
  intros Hi Hw. unfold matrix__bitset_has. rewrite Hw.
  pose proof (Z.mod_pos_bound i 64 ltac:(lia)).
  by rewrite one_shifted, land_pow2_testbit by lia.
Qed.

End BitSetsMore.

(** X16: the bit set in one word.  For a 64-bit [number] and an index
    below 64, [matrix__set_bit] returns a 64-bit number in which
    [matrix__has_bit] finds that index and finds every other index below
    64 exactly when it was in [number]; setting an index already there
    changes nothing.  For an index of 64 or more both functions shift a
    64-bit value by its width or more, which is undefined. *)
Theorem set_bit_then_has_bit (number idx : Z) :
  0 ≤ number < 2 ^ 64 → 0 ≤ idx →
  (64 ≤ idx → matrix__set_bit number idx = None ∧ matrix__has_bit number idx = None) ∧
  (idx < 64 →
     ∃ number', matrix__set_bit number idx = Some number' ∧ 0 ≤ number' < 2 ^ 64 ∧
       matrix__has_bit number' idx = Some true ∧
       (∀ j, 0 ≤ j < 64 → j ≠ idx → matrix__has_bit number' j = matrix__has_bit number j) ∧
       (matrix__has_bit number idx = Some true → number' = number)).
Proof.
  intros Hn Hidx. split.
  - intros Hbig. unfold matrix__set_bit, matrix__has_bit.
    destruct (Z.ltb_spec idx 64); [lia | done].
  - intros Hsmall. exists (Z.lor number (2 ^ idx)).
    split; [|split; [|split; [|split]]].
    + unfold matrix__set_bit. destruct (Z.ltb_spec idx 64); [|lia].
      by rewrite one_shifted by lia.
    + apply lor_pow2_range; lia.
    + rewrite has_bit_testbit, lor_pow2_testbit by lia. by rewrite Z.eqb_refl.
    + intros j Hj Hne. rewrite !has_bit_testbit, lor_pow2_testbit by lia.
      by destruct (Z.eqb_spec j idx).
    + rewrite has_bit_testbit by lia. intros [= Hbit]. apply lor_pow2_absorbs; [lia | done].
Qed.

(** Index 5 in the set of indices 0 and 63. *)
Lemma set_bit_then_has_bit_witness :
  ∃ number', matrix__set_bit (2 ^ 63 + 1) 5 = Some number' ∧
             matrix__has_bit number' 5 = Some true ∧
             matrix__has_bit number' 63 = matrix__has_bit (2 ^ 63 + 1) 63.
Proof.
  destruct (proj2 (set_bit_then_has_bit (2 ^ 63 + 1) 5
                     ltac:(split; [discriminate | reflexivity]) ltac:(discriminate))
              eq_refl) as (number' & Hset & _ & Hhas & Hother & _).
  exists number'. split; [exact Hset|]. split; [exact Hhas|].
  apply Hother; [split; [discriminate | reflexivity] | discriminate].
Defined.

(** X17: the bit set in an array of words.  For an index within the
    [64 * length] bits of the array, [matrix__bitset_set] returns an
    array of the same length in which [matrix__bitset_has] finds that
    index and finds every other index within the array exactly when it
    was there before.  Neither function checks bounds: for an index
    beyond the array both access a word outside it, which is undefined.
    An array of one word is the set in one word. *)
Theorem bitset_set_then_has (bitset : list Z) (idx : Z) :
  0 ≤ idx →
  (64 * Z.of_nat (length bitset) ≤ idx →
     matrix__bitset_set bitset idx = None ∧ matrix__bitset_has bitset idx = None) ∧
  (idx < 64 * Z.of_nat (length bitset) →
     ∃ bitset', matrix__bitset_set bitset idx = Some bitset' ∧
       length bitset' = length bitset ∧
       matrix__bitset_has bitset' idx = Some true ∧
       (∀ j, 0 ≤ j < 64 * Z.of_nat (length bitset) → j ≠ idx →
          matrix__bitset_has bitset' j = matrix__bitset_has bitset j)) ∧
  (idx < 64 → ∀ number,
     matrix__bitset_has [number] idx = matrix__has_bit number idx ∧
     matrix__bitset_set [number] idx = (λ word, [word]) <$> matrix__set_bit number idx).
Proof.
  intros Hidx.
  assert (0 ≤ idx / 64) as Hword by (apply Z.div_pos; lia).
  pose proof (Z.mod_pos_bound idx 64 ltac:(lia)) as Hbit.
  split; [|split].
  - intros Hbig. unfold matrix__bitset_set, matrix__bitset_has.
    assert (Z.of_nat (length bitset) ≤ idx / 64) by (apply Z.div_le_lower_bound; lia).
    by rewrite lookup_ge_None_2 by lia.
  - intros Hin.
    assert (idx / 64 < Z.of_nat (length bitset)) by (apply Z.div_lt_upper_bound; lia).
    destruct (lookup_lt_is_Some_2 bitset (Z.to_nat (idx / 64))) as [word Hw]; [lia|].
    exists (<[Z.to_nat (idx / 64) := Z.lor word (2 ^ (idx mod 64))]> bitset).
    split; [|split; [|split]].
    + unfold matrix__bitset_set. by rewrite Hw, one_shifted by lia.
    + apply length_insert.
    + rewrite (bitset_has_testbit _ idx (Z.lor word (2 ^ (idx mod 64)))); [|lia|].
      * rewrite lor_pow2_testbit by lia. by rewrite Z.eqb_refl.
      * apply list_lookup_insert_eq. by apply lookup_lt_Some in Hw.
    + intros j Hj Hne.
      assert (0 ≤ j / 64 < Z.of_nat (length bitset))
        by (split; [apply Z.div_pos; lia | apply Z.div_lt_upper_bound; lia]).
      pose proof (Z.mod_pos_bound j 64 ltac:(lia)) as Hjbit.
      destruct (lookup_lt_is_Some_2 bitset (Z.to_nat (j / 64))) as [other Ho]; [lia|].
      rewrite (bitset_has_testbit bitset j other) by (done || lia).
      destruct (decide (j / 64 = idx / 64)) as [Heq | Hdiff].
      * rewrite Heq, Hw in Ho. injection Ho as <-.
        rewrite (bitset_has_testbit _ j (Z.lor word (2 ^ (idx mod 64)))); [|lia|].
        -- rewrite lor_pow2_testbit by lia.
           destruct (Z.eqb_spec (j mod 64) (idx mod 64)) as [Hmod | Hmod]; [|done].
           exfalso. apply Hne. rewrite (Z.div_mod j 64), (Z.div_mod idx 64) by lia. lia.
        -- rewrite Heq. apply list_lookup_insert_eq. by apply lookup_lt_Some in Hw.
      * rewrite (bitset_has_testbit _ j other); [done | lia |].
        rewrite list_lookup_insert_ne by lia. done.
  - intros Hsmall number.
    assert (idx / 64 = 0) as Hq by (apply Z.div_small; lia).
    assert (idx mod 64 = idx) as Hr by (apply Z.mod_small; lia).
    unfold matrix__bitset_has, matrix__bitset_set, matrix__has_bit, matrix__set_bit.
    rewrite Hq, Hr. destruct (Z.ltb_spec idx 64); [|lia]. done.
Qed.

(** Index 70 in an array of two words, and index 128 beyond it. *)
Lemma bitset_set_then_has_witness :
  (∃ bitset', matrix__bitset_set [0; 0] 70 = Some bitset' ∧
              matrix__bitset_has bitset' 70 = Some true) ∧
  matrix__bitset_set [0; 0] 128 = None.
Proof.
  split.
  - destruct (proj1 (proj2 (bitset_set_then_has [0; 0] 70 ltac:(discriminate))) eq_refl)
      as (bitset' & Hset & _ & Hhas & _).
    exists bitset'. by split.
  - apply (proj1 (bitset_set_then_has [0; 0] 128 ltac:(discriminate))). discriminate.
Defined.
(** ** Transposition: squares, vectors, and the routines against each other *)

Section TransposeMore.
Context {D : Type} `{stack : !Stack}.
Implicit Types (h : heap D) (cells : list D) (m : matrix).

(** An [int] converted back to [size_t] is the [size_t] it came from
    exactly when that was below [2^31], or within [2^31] of [2^64]. *)
Lemma through_int (x : Z) :
  0 ≤ x < 2 ^ 64 →
  to_size_t (to_int x) = x ↔ x < 2 ^ 31 ∨ 2 ^ 64 - 2 ^ 31 ≤ x.
Proof.
  intros Hx. unfold to_int, to_size_t.
  pose proof (Z.mod_pos_bound (x + 2 ^ 31) (2 ^ 32) ltac:(done)) as Hr.
  pose proof (Z.div_mod (x + 2 ^ 31) (2 ^ 32) ltac:(done)) as Hq.
  set (r := (x + 2 ^ 31) mod 2 ^ 32) in *.
  set (q := (x + 2 ^ 31) / 2 ^ 32) in *.
  destruct (decide (2 ^ 31 ≤ r)) as [Hpos | Hneg].
  - rewrite (Z.mod_small (r - 2 ^ 31)) by lia. lia.
  - replace ((r - 2 ^ 31) mod 2 ^ 64) with (r - 2 ^ 31 + 2 ^ 64)
      by (apply (Z.mod_unique _ _ (-1)); lia).
    lia.
Qed.

(** The cells of a rectangle permuted as the loops permute them are the
    cells of the transpose. *)
Lemma permuted_cells_transpose (H W : Z) cells cells' :
  2 ≤ H → 2 ≤ W → Z.of_nat (length cells) = H * W →
  permuted_cells H (H * W - 1) cells cells' → cells' = transpose_cells H W cells.
Proof.
  intros HH HW Hlen Hperm.
  apply (transposed_cells_unique H W); [lia | lia | done |].
  by apply (permuted_is_transposed _ _ (H * W - 1)).
Qed.

(** The bit array of a matrix of at most 64 cells is one word. *)
Lemma bitset_bytes_small (cells : Z) : 1 ≤ cells ≤ 64 → bitset_bytes cells = 8.
Proof.
  intros Hcells. unfold bitset_bytes. by rewrite Z.div_small by lia.
Qed.

(** [matrix__transpose_rectangle] on any matrix of at least two rows and
    two columns whose index products do not wrap around: the transpose
    where the stack has room for the bit array, and a lost call where it
    has not. *)
Lemma transpose_rectangle_by_stack h m p cells (fuel : nat) :
  valid_matrix h m p cells → 2 ≤ height m → 2 ≤ width m →
  (height m * width m - 2) * height m < 2 ^ 64 →
  (2 * Z.to_nat (height m * width m) ≤ fuel)%nat →
  matrix__transpose_rectangle fuel m h
  = if bitset_bytes (height m * width m) <=? stack_left
    then Returns ({| height := width m; width := height m; values := Some p |},
                  <[p := transpose_cells (height m) (width m) cells]> h)
    else Undefined.
Proof.
  intros Hv Hrows Hcols Hfit Hfuel.
  destruct (Z.leb_spec (bitset_bytes (height m * width m)) stack_left) as [Hroom | Hnone].
  - destruct (transpose_rectangle_returns h m p cells fuel Hv Hrows Hcols Hfit Hroom Hfuel)
      as (cells' & Hrun & Hperm).
    by rewrite (permuted_cells_transpose (height m) (width m) cells cells'
                  Hrows Hcols (valid_length _ _ _ _ Hv) Hperm) in Hrun.
  - by apply (transpose_rectangle_exhausts_stack h m p cells).
Qed.

End TransposeMore.

(** X18: [matrix_transpose] on a valid square matrix returns, whatever
    the fuel and whatever the size, with the matrix and its block
    address unchanged and the cells transposed in place:
    [result[c][r] = original[r][c]]. *)
Theorem transpose_square_transposes {D : Type} `{stack : !Stack} (m : matrix) (h : heap D)
    (p : positive) (cells : list D) (fuel : nat) :
  valid_matrix h m p cells → width m = height m →
  ∃ cells',
    matrix_transpose fuel m h = Returns (m, <[p := cells']> h) ∧
    transposed_cells (height m) (width m) cells cells' ∧
    cells' = transpose_cells (height m) (width m) cells.
Proof.
  intros Hv Hsq. exists (transpose_cells (height m) (width m) cells).
  split; [|split; [|done]].
  - destruct (decide (width m = 1)) as [Hone | Hmore].
    + rewrite (transpose_vector fuel m h); [| |by left|lia].
      2:{ by rewrite (valid_values _ _ _ _ Hv). }
      assert (transpose_cells (height m) (width m) cells = cells) as ->.
      { symmetry. apply (transposed_cells_unique (height m) (width m)); [lia | lia | |].
        - apply (valid_length _ _ _ _ Hv).
        - split; [done|]. intros r c Hr Hc.
          by replace r with 0 by lia; replace c with 0 by lia. }
      rewrite (insert_id h p cells (valid_block _ _ _ _ Hv)).
      destruct m as [rows cols ptr]. cbn in *. by subst.
    + by apply transpose_square_dispatch.
  - apply transpose_cells_transposed. apply (valid_length _ _ _ _ Hv).
Qed.

(** The 3 × 3 matrix of the tests, and no fuel. *)
Lemma transpose_square_transposes_witness :
  matrix_transpose 0 {| height := 3; width := 3; values := Some 1%positive |}
    ({[ 1%positive := [1; 2; 3; 4; 5; 6; 7; 8; 9] ]} : heap float)%float
  = Returns ({| height := 3; width := 3; values := Some 1%positive |},
             {[ 1%positive := [1; 4; 7; 2; 5; 8; 3; 6; 9] ]}%float).
Proof.
  set (h := ({[ 1%positive := [1; 2; 3; 4; 5; 6; 7; 8; 9] ]} : heap float)%float).
  assert (valid_matrix h {| height := 3; width := 3; values := Some 1%positive |}
            1%positive [1; 2; 3; 4; 5; 6; 7; 8; 9]%float) as Hv
    by (apply valid_matrix_singleton; vm_compute; try split; congruence).
  destruct (transpose_square_transposes _ h _ _ 0%nat Hv eq_refl) as (cells' & Hrun & _ & ->).
  rewrite Hrun. vm_compute. reflexivity.
Defined.

(** X19: [matrix_transpose] on a row or column vector whose [values] is
    not null returns, whatever the fuel, without reading or writing the
    heap; the new height is the old width, and the new width, which goes
    through an [int], is the old height exactly when that height is
    below [2^31] or within [2^31] of [2^64]. *)
Theorem transpose_vector_exact_iff {D : Type} `{stack : !Stack}
    (m : matrix) (h : heap D) (fuel : nat) :
  values m ≠ None → width m = 1 ∨ height m = 1 → 0 ≤ height m ≤ SIZE_MAX →
  ∃ m', matrix_transpose fuel m h = Returns (m', h) ∧
        height m' = width m ∧ values m' = values m ∧
        (width m' = height m ↔ height m < 2 ^ 31 ∨ 2 ^ 64 - 2 ^ 31 ≤ height m).
Proof.
  intros Hnn Hvec Hh. eexists. split; [by apply transpose_vector_returns|].
  cbn [height width values]. split; [done|]. split; [done|].
  apply through_int. unfold SIZE_MAX in Hh. lia.
Qed.

(** The column of the tests, and a row of [2^31] columns. *)
Lemma transpose_vector_exact_iff_witness :
  (∃ m', matrix_transpose 0 {| height := 2; width := 1; values := Some 1%positive |}
           ({[ 1%positive := [1; 2] ]} : heap float)%float
         = Returns (m', {[ 1%positive := [1; 2] ]}%float) ∧
         height m' = 1 ∧ width m' = 2) ∧
  (∃ m', matrix_transpose 0 {| height := 1; width := 2 ^ 31; values := Some 1%positive |}
           (∅ : heap float) = Returns (m', ∅) ∧
         height m' = 2 ^ 31 ∧ width m' = 1).
Proof.
  split.
  - destruct (transpose_vector_exact_iff
                {| height := 2; width := 1; values := Some 1%positive |}
                ({[ 1%positive := [1; 2] ]} : heap float)%float 0
                ltac:(discriminate) ltac:(by left) ltac:(split; discriminate))
      as (m' & Hrun & Hh & _ & Hw).
    exists m'. split; [exact Hrun|]. split; [exact Hh|].
    apply Hw. left. reflexivity.
  - destruct (transpose_vector_exact_iff
                {| height := 1; width := 2 ^ 31; values := Some 1%positive |}
                (∅ : heap float) 0
                ltac:(discriminate) ltac:(by right) ltac:(split; discriminate))
      as (m' & Hrun & Hh & _ & Hw).
    exists m'. split; [exact Hrun|]. split; [exact Hh|].
    apply Hw. left. reflexivity.
Defined.

(** X20: the routine for rectangles of at most 64 cells is a shortcut
    only.  On a valid matrix of at least two rows and two columns and at
    most 64 cells, [matrix__transpose_rectangle], with its array of
    words on the stack (one word here: where the stack has not even
    these 8 bytes left the call is lost), and
    [matrix__transpose_small_rectangle], with its single word, return
    the same matrix and the same heap: the dimensions exchanged and the
    block transposed. *)
Theorem transpose_rectangle_routines_agree {D : Type} `{stack : !Stack}
    (m : matrix) (h : heap D) (p : positive) (cells : list D) (fuel : nat) :
  valid_matrix h m p cells → 2 ≤ height m → 2 ≤ width m →
  height m * width m ≤ 64 →
  (2 * Z.to_nat (height m * width m) ≤ fuel)%nat →
  matrix__transpose_rectangle fuel m h
  = (if 8 <=? stack_left then matrix__transpose_small_rectangle fuel m h
     else Undefined) ∧
  matrix__transpose_small_rectangle fuel m h
  = Returns ({| height := width m; width := height m; values := Some p |},
             <[p := transpose_cells (height m) (width m) cells]> h).
Proof.
  intros Hv Hrows Hcols Hsmall Hfuel.
  pose proof (valid_length _ _ _ _ Hv) as Hlen.
  destruct (transpose_small_rectangle_returns h m p cells fuel Hv Hrows Hcols Hsmall Hfuel)
    as (small & Hsmall_run & Hsmall_perm).
  rewrite (permuted_cells_transpose _ _ _ _ Hrows Hcols Hlen Hsmall_perm) in Hsmall_run.
  split; [|done].
  rewrite (transpose_rectangle_by_stack h m p cells fuel Hv Hrows Hcols ltac:(nia) Hfuel).
  rewrite bitset_bytes_small by nia. by rewrite Hsmall_run.
Qed.

(** The 2 × 3 matrix of the tests through the routine for large
    rectangles. *)
Lemma transpose_rectangle_routines_agree_witness :
  matrix__transpose_rectangle 12 {| height := 2; width := 3; values := Some 1%positive |}
    ({[ 1%positive := [1; 2; 3; 4; 5; 6] ]} : heap float)%float
  = Returns ({| height := 3; width := 2; values := Some 1%positive |},
             {[ 1%positive := [1; 4; 2; 5; 3; 6] ]}%float).
Proof.
  set (h := ({[ 1%positive := [1; 2; 3; 4; 5; 6] ]} : heap float)%float).
  assert (valid_matrix h {| height := 2; width := 3; values := Some 1%positive |}
            1%positive [1; 2; 3; 4; 5; 6]%float) as Hv
    by (apply valid_matrix_singleton; vm_compute; try split; congruence).
  destruct (transpose_rectangle_routines_agree _ h _ _ 12 Hv
              ltac:(cbn; lia) ltac:(cbn; lia) ltac:(cbn; lia) ltac:(cbn; lia))
    as [Hsame Hrun].
  rewrite Hsame, Hrun. vm_compute. reflexivity.
Defined.

(** X21: the cycle-following routine transposes squares too, where the
    stack has room for its bit array.  On a valid square matrix of [n]
    rows, [n] at least 2, whose index products do not wrap around,
    [matrix__transpose_rectangle] returns what
    [matrix__transpose_square], which exchanges the cells pair by pair
    and needs no array, returns, if the stack has the
    [8·((n·n − 1)/64 + 1)] bytes of the bit array left; if not, the call
    is lost where [matrix__transpose_square] returns. *)
Theorem transpose_rectangle_on_square {D : Type} `{stack : !Stack}
    (m : matrix) (h : heap D) (p : positive) (cells : list D) (fuel : nat) :
  valid_matrix h m p cells → 2 ≤ height m → width m = height m →
  (height m * width m - 2) * height m < 2 ^ 64 →
  (2 * Z.to_nat (height m * width m) ≤ fuel)%nat →
  matrix__transpose_rectangle fuel m h
  = (if bitset_bytes (height m * width m) <=? stack_left
     then matrix__transpose_square m h else Undefined) ∧
  matrix__transpose_square m h
  = Returns (m, <[p := transpose_cells (height m) (width m) cells]> h).
Proof.
  intros Hv Hrows Hsq Hfit Hfuel.
  pose proof (transpose_square_returns h m p cells Hv Hsq) as Hsquare.
  rewrite <- Hsq in Hsquare at 2.
  split; [|done].
  rewrite (transpose_rectangle_by_stack h m p cells fuel Hv Hrows ltac:(lia) Hfit Hfuel).
  rewrite Hsquare. destruct (bitset_bytes (height m * width m) <=? stack_left); [|done].
  do 2 f_equal. pose proof (valid_values _ _ _ _ Hv) as Hp.
  destruct m as [rows cols ptr]. cbn in *. by subst.
Qed.

(** The 3 × 3 matrix of the tests through the routine for large
    rectangles. *)
Lemma transpose_rectangle_on_square_witness :
  matrix__transpose_rectangle 18 {| height := 3; width := 3; values := Some 1%positive |}
    ({[ 1%positive := [1; 2; 3; 4; 5; 6; 7; 8; 9] ]} : heap float)%float
  = Returns ({| height := 3; width := 3; values := Some 1%positive |},
             {[ 1%positive := [1; 4; 7; 2; 5; 8; 3; 6; 9] ]}%float).
Proof.
  set (h := ({[ 1%positive := [1; 2; 3; 4; 5; 6; 7; 8; 9] ]} : heap float)%float).
  assert (valid_matrix h {| height := 3; width := 3; values := Some 1%positive |}
            1%positive [1; 2; 3; 4; 5; 6; 7; 8; 9]%float) as Hv
    by (apply valid_matrix_singleton; vm_compute; try split; congruence).
  destruct (transpose_rectangle_on_square _ h _ _ 18 Hv
              ltac:(cbn; lia) eq_refl ltac:(cbn; lia) ltac:(cbn; lia))
    as [Hsame Hrun].
  rewrite Hsame, Hrun. vm_compute. reflexivity.
Defined.
(** ** Multiplication and printing at the edges *)

Section MatMulMore.
Context {D : Type} `{!Double D}.
Implicit Types (h : heap D) (xs ys zs : list D) (a b dest : matrix).

Lemma matrix_matmul_into_returns h a b dest pa pb pd xs ys zs :
  valid_matrix h a pa xs → valid_matrix h b pb ys → valid_matrix h dest pd zs →
  width a = height b → height dest = height a → width dest = width b →
  pd ≠ pa → pd ≠ pb →
  matrix_matmul_into a b dest h
  = Returns (tt, <[pd := matmul_cells xs ys (height a) (width a) (width b)]> h).
Proof.
  intros Ha Hb Hd Hab Hdh Hdw Hda Hdb.
  pose proof (matmul_loops h a b dest pa pb pd xs ys zs Ha Hb Hd Hab Hdh Hdw Hda Hdb)
    as Hloops.
  unfold matrix_matmul_into.
  rewrite (valid_values _ _ _ _ Ha), (valid_values _ _ _ _ Hb), (valid_values _ _ _ _ Hd).
  rewrite (valid_values _ _ _ _ Hd) in Hloops. cbn [is_null negb].
  rewrite (proj2 (Z.eqb_eq _ _) Hab), (proj2 (Z.eqb_eq _ _) Hdh),
    (proj2 (Z.eqb_eq _ _) Hdw), !assert_true.
  exact Hloops.
Qed.

(** Without a common dimension every sum of products is the empty sum. *)
Lemma matmul_cells_empty_inner xs ys (m n : Z) :
  matmul_cells xs ys m 0 n = replicate (Z.to_nat (m * n)) d_zero.
Proof.
  unfold matmul_cells. rewrite (const_fmap _ _ d_zero) by done.
  by rewrite length_seqZ.
Qed.

End MatMulMore.

(** X22: the shapes of a multiplication are checked.
    [matrix_matmul_into] aborts when the width of [a] is not the height
    of [b], when the height of [dest] is not that of [a], or when the
    width of [dest] is not that of [b]; [matrix_matmul] aborts when the
    width of [a] is not the height of [b]; both abort when an operand's
    [values] is null. *)
Theorem matrix_matmul_shape_checked {D : Type} `{!Double D} `{!Libc D}
    (a b dest : matrix) (h : heap D) :
  (width a ≠ height b ∨ height dest ≠ height a ∨ width dest ≠ width b →
     matrix_matmul_into a b dest h = Aborts) ∧
  (width a ≠ height b → matrix_matmul a b h = Aborts) ∧
  (values a = None ∨ values b = None →
     matrix_matmul_into a b dest h = Aborts ∧ matrix_matmul a b h = Aborts).
Proof.
  unfold matrix_matmul_into, matrix_matmul.
  split; [|split].
  - intros Hshape.
    destruct (values a), (values b), (values dest); try done; cbn [is_null negb];
      rewrite !assert_true.
    destruct (Z.eqb_spec (width a) (height b)); [|done].
    destruct (Z.eqb_spec (height dest) (height a)); [|done].
    destruct (Z.eqb_spec (width dest) (width b)); [|done].
    destruct Hshape as [? | [? | ?]]; done.
  - intros Hshape.
    destruct (values a), (values b); try done; cbn [is_null negb]; rewrite !assert_true.
    by destruct (Z.eqb_spec (width a) (height b)).
  - intros [-> | ->]; [done|]. by destruct (values a).
Qed.

(** A 2 × 2 matrix times a 3 × 1 one. *)
Lemma matrix_matmul_shape_checked_witness :
  matrix_matmul {| height := 2; width := 2; values := Some 1%positive |}
                {| height := 3; width := 1; values := Some 2%positive |}
                ({[ 1%positive := [1; 2; 3; 4]; 2%positive := [5; 6; 7] ]} : heap float)%float
  = Aborts.
Proof.
  apply (proj1 (proj2 (matrix_matmul_shape_checked
                         {| height := 2; width := 2; values := Some 1%positive |}
                         {| height := 3; width := 1; values := Some 2%positive |}
                         {| height := 2; width := 1; values := None |} _))).
  cbn. discriminate.
Defined.

(** X23: a product over an empty common dimension is the zero matrix.
    For a valid [a] without columns and a valid [b] without rows,
    [matrix_matmul_into] returns with every cell of a valid [dest] of
    the right shape, on a block of its own, set to [0.0], whatever it
    held. *)
Theorem matrix_matmul_empty_inner {D : Type} `{!Double D}
    (a b dest : matrix) (h : heap D) (pa pb pd : positive) (xs ys zs : list D) :
  valid_matrix h a pa xs → valid_matrix h b pb ys → valid_matrix h dest pd zs →
  width a = 0 → height b = 0 → height dest = height a → width dest = width b →
  pd ≠ pa → pd ≠ pb →
  xs = [] ∧ ys = [] ∧
  matrix_matmul_into a b dest h = Returns (tt, <[pd := replicate (length zs) d_zero]> h).
Proof.
  intros Ha Hb Hd Hwa Hhb Hdh Hdw Hda Hdb.
  pose proof (valid_length _ _ _ _ Ha) as Hla. pose proof (valid_length _ _ _ _ Hb) as Hlb.
  pose proof (valid_length _ _ _ _ Hd) as Hld.
  split; [apply nil_length_inv; lia|]. split; [apply nil_length_inv; lia|].
  rewrite (matrix_matmul_into_returns h a b dest pa pb pd xs ys zs) by (done || lia).
  rewrite Hwa, matmul_cells_empty_inner. do 4 f_equal. lia.
Qed.

(** A 2 × 0 matrix times a 0 × 2 one. *)
Lemma matrix_matmul_empty_inner_witness :
  matrix_matmul_into {| height := 2; width := 0; values := Some 1%positive |}
                     {| height := 0; width := 2; values := Some 2%positive |}
                     {| height := 2; width := 2; values := Some 3%positive |}
    ({[ 1%positive := []; 2%positive := []; 3%positive := [1; 2; 3; 4] ]} : heap float)%float
  = Returns (tt, {[ 1%positive := []; 2%positive := [];
                    3%positive := [0; 0; 0; 0] ]}%float).
Proof.
  set (h := ({[ 1%positive := []; 2%positive := [];
                3%positive := [1; 2; 3; 4] ]} : heap float)%float).
  assert (valid_matrix h {| height := 2; width := 0; values := Some 1%positive |}
            1%positive []) as Ha
    by (apply valid_matrix_singleton; vm_compute; try split; congruence).
  assert (valid_matrix h {| height := 0; width := 2; values := Some 2%positive |}
            2%positive []) as Hb
    by (apply valid_matrix_singleton; vm_compute; try split; congruence).
  assert (valid_matrix h {| height := 2; width := 2; values := Some 3%positive |}
            3%positive [1; 2; 3; 4]%float) as Hd
    by (apply valid_matrix_singleton; vm_compute; try split; congruence).
  destruct (matrix_matmul_empty_inner _ _ _ h _ _ _ _ _ _ Ha Hb Hd
              eq_refl eq_refl eq_refl eq_refl ltac:(discriminate) ltac:(discriminate))
    as (_ & _ & Hrun).
  rewrite Hrun. vm_compute. reflexivity.
Defined.

(** Rows without columns: the outer loop of [matrix_print] writes a
    newline per row. *)
Lemma print_blank_rows {D : Type} `{!Libc D} (m : matrix) (n : nat) (lo : Z)
    (sink : list ascii) (h : heap D) :
  Z.to_nat (width m - 0) = 0%nat →
  for_fold n lo (λ row sink,
    let* sink := for_fold (Z.to_nat (width m - 0)) 0 (λ col sink,
                   let* v := matrix_get m row col in
                   ret (sink ++ fprintf_f v ++ [" "%char])) sink in
    ret (sink ++ [newline])) sink h
  = Returns (sink ++ replicate n newline, h).
Proof.
  intros Hw. generalize dependent (Z.to_nat (width m - 0)). intros k ->.
  revert lo sink. induction n as [|n IH]; intros lo sink.
  - cbn. unfold ret. by rewrite app_nil_r.
  - cbn [for_fold]. unfold bind at 1. unfold bind at 1. cbn [for_fold]. unfold ret at 1 2.
    rewrite IH. cbn [replicate]. by rewrite <- app_assoc.
Qed.

(** X24: printing a matrix without cells.  On a matrix whose [values] is
    not null, [matrix_print] appends nothing to the sink when the height
    is 0, and one newline per row and nothing else when the width is 0;
    no cell is read, and the heap is not touched. *)
Theorem matrix_print_without_cells {D : Type} `{!Libc D}
    (m : matrix) (h : heap D) (sink : list ascii) :
  values m ≠ None →
  (height m = 0 → matrix_print m sink h = Returns (sink, h)) ∧
  (width m = 0 →
     matrix_print m sink h
     = Returns (sink ++ replicate (Z.to_nat (height m)) newline, h)).
Proof.
  intros Hnn. unfold matrix_print.
  destruct (values m) as [p|]; [|done]. cbn [is_null negb]. rewrite !assert_true.
  split.
  - intros ->. reflexivity.
  - intros Hw. unfold for_range_fold. rewrite Z.sub_0_r.
    apply print_blank_rows. by rewrite Hw.
Qed.

(** A 3 × 0 matrix, and a 0 × 3 one. *)
Lemma matrix_print_without_cells_witness :
  matrix_print {| height := 3; width := 0; values := Some 1%positive |} []
    ({[ 1%positive := [] ]} : heap float)
  = Returns ([newline; newline; newline], {[ 1%positive := [] ]}) ∧
  matrix_print {| height := 0; width := 3; values := Some 1%positive |} []
    ({[ 1%positive := [] ]} : heap float)
  = Returns ([], {[ 1%positive := [] ]}).
Proof.
  split.
  - apply (proj2 (matrix_print_without_cells
                    {| height := 3; width := 0; values := Some 1%positive |}
                    ({[ 1%positive := [] ]} : heap float) [] ltac:(discriminate))).
    reflexivity.
  - apply (proj1 (matrix_print_without_cells
                    {| height := 0; width := 3; values := Some 1%positive |}
                    ({[ 1%positive := [] ]} : heap float) [] ltac:(discriminate))).
    reflexivity.
Defined.
(** ** Transposition through the accessors *)

Section TransposeGet.
Context {D : Type} `{stack : !Stack}.
Implicit Types (h : heap D) (cells : list D) (m : matrix).

(** The block of a row or column vector is its own transpose. *)
Lemma transpose_cells_vector (H W : Z) cells :
  0 ≤ H → 0 ≤ W → H = 1 ∨ W = 1 → Z.of_nat (length cells) = H * W →
  transpose_cells H W cells = cells.
Proof.
  intros HH HW Hvec Hlen. symmetry.
  apply (transposed_cells_unique H W); [done | done | done |].
  split; [done|]. intros r c Hr Hc. f_equal. destruct Hvec as [-> | ->]; lia.
Qed.

(** [matrix_transpose] wherever it returns the transpose: vectors whose
    height an [int] holds, squares, and rectangles whose index products
    do not wrap around and whose bit array, if they have more than 64
    cells, the stack has room for. *)
Lemma matrix_transpose_returns h m p cells (fuel : nat) :
  valid_matrix h m p cells → 1 ≤ height m → 1 ≤ width m →
  (width m = 1 ∨ height m = 1 → height m < 2 ^ 31) →
  (2 ≤ height m → 2 ≤ width m → height m ≠ width m →
     (height m * width m - 2) * height m < 2 ^ 64) →
  (2 ≤ height m → 2 ≤ width m → height m ≠ width m → 64 < height m * width m →
     bitset_bytes (height m * width m) ≤ stack_left) →
  (2 * Z.to_nat (height m * width m) ≤ fuel)%nat →
  matrix_transpose fuel m h
  = Returns ({| height := width m; width := height m; values := Some p |},
             <[p := transpose_cells (height m) (width m) cells]> h).
Proof.
  intros Hv Hrows Hcols Hint Hfit Hstack Hfuel.
  pose proof (valid_values _ _ _ _ Hv) as Hp.
  pose proof (valid_length _ _ _ _ Hv) as Hlen.
  destruct (decide (width m = 1 ∨ height m = 1)) as [Hvec | Hbig].
  - rewrite (transpose_vector fuel m h) by (by rewrite Hp || done || (split; [lia | by apply Hint])).
    rewrite transpose_cells_vector by (done || lia).
    by rewrite (insert_id h p cells (valid_block _ _ _ _ Hv)), Hp.
  - destruct (decide (width m = height m)) as [Hsq | Hrect].
    + rewrite (transpose_square_dispatch h m p cells fuel Hv ltac:(lia) Hsq).
      do 2 f_equal. destruct m as [rows cols ptr]. cbn in *. by subst.
    + apply transpose_rectangular;
        first [done | lia | apply Hfit; lia | intros Hlarge; apply Hstack; lia].
Qed.

End TransposeGet.

(** X25: transposition, as the accessors see it.  Where [matrix_transpose]
    returns the transpose (a valid matrix with at least one cell; a
    vector's height below [2^31]; a rectangle's index products not
    wrapping around and, if it has more than 64 cells, its bit array
    fitting the stack; in the model, any fuel of [2·H·W] or more), the
    transposed matrix is valid, with the dimensions exchanged, and
    [matrix_get] of its cell [(c, r)] returns what [matrix_get] of cell
    [(r, c)] returned before the call. *)
Theorem matrix_transpose_then_get {D : Type} `{stack : !Stack}
    (m : matrix) (h : heap D) (p : positive) (cells : list D) (fuel : nat)
    (r c : Z) (x : D) :
  valid_matrix h m p cells → 0 ≤ r < height m → 0 ≤ c < width m →
  (width m = 1 ∨ height m = 1 → height m < 2 ^ 31) →
  (2 ≤ height m → 2 ≤ width m → height m ≠ width m →
     (height m * width m - 2) * height m < 2 ^ 64) →
  (2 ≤ height m → 2 ≤ width m → height m ≠ width m → 64 < height m * width m →
     bitset_bytes (height m * width m) ≤ stack_left) →
  (2 * Z.to_nat (height m * width m) ≤ fuel)%nat →
  matrix_get m r c h = Returns (x, h) →
  ∃ m' h' cells',
    matrix_transpose fuel m h = Returns (m', h') ∧
    height m' = width m ∧ width m' = height m ∧
    valid_matrix h' m' p cells' ∧
    matrix_get m' c r h' = Returns (x, h').
Proof.
  intros Hv Hr Hc Hint Hfit Hstack Hfuel Hget.
  pose proof (valid_length _ _ _ _ Hv) as Hlen.
  exists {| height := width m; width := height m; values := Some p |},
    (<[p := transpose_cells (height m) (width m) cells]> h),
    (transpose_cells (height m) (width m) cells).
  assert (valid_matrix (<[p := transpose_cells (height m) (width m) cells]> h)
            {| height := width m; width := height m; values := Some p |} p
            (transpose_cells (height m) (width m) cells)) as Hv'.
  { apply valid_matrix_singleton;
      [apply (valid_width _ _ _ _ Hv) | apply (valid_height _ _ _ _ Hv)
      | pose proof (valid_len _ _ _ _ Hv); lia
      | rewrite transpose_cells_length; lia | apply lookup_insert_eq]. }
  split; [apply matrix_transpose_returns; try done; lia|].
  split; [done|]. split; [done|]. split; [done|].
  apply (matrix_get_cell _ _ p _ c r x Hv'); cbn [height width]; [lia | lia |].
  rewrite transpose_cells_lookup by done.
  destruct (matrix_get_returns h m p cells r c Hv Hr Hc) as (x' & Hcell & Hget').
  congruence.
Qed.

(** Cell [(0, 2)] of the 2 × 3 matrix of the tests is cell [(2, 0)] of
    its transpose. *)
Lemma matrix_transpose_then_get_witness :
  ∃ m' h', matrix_transpose 12 {| height := 2; width := 3; values := Some 1%positive |}
             ({[ 1%positive := [1; 2; 3; 4; 5; 6] ]} : heap float)%float
           = Returns (m', h') ∧
           matrix_get m' 2 0 h' = Returns (3%float, h').
Proof.
  set (h := ({[ 1%positive := [1; 2; 3; 4; 5; 6] ]} : heap float)%float).
  assert (valid_matrix h {| height := 2; width := 3; values := Some 1%positive |}
            1%positive [1; 2; 3; 4; 5; 6]%float) as Hv
    by (apply valid_matrix_singleton; vm_compute; try split; congruence).
  destruct (matrix_transpose_then_get _ h _ _ 12 0 2 3%float Hv
              ltac:(cbn; lia) ltac:(cbn; lia) ltac:(cbn; lia) ltac:(cbn; lia)
              ltac:(cbn; lia) ltac:(cbn; lia) eq_refl)
    as (m' & h' & cells' & Hrun & _ & _ & _ & Hget).
  by exists m', h'.
Defined.

(** ** Release: other matrices, and copies of the struct *)

(** X26: [matrix_del] frees one block and nulls one struct.  After
    [matrix_del] of a valid matrix, every valid matrix on another block
    is still valid; the struct it returns is refused by the assertions
    ([matrix_get] aborts); but a copy of the struct made before the call
    still holds the freed address, and through it [matrix_get] and
    [matrix_set] of a cell within bounds, and a second [matrix_del], are
    undefined behaviour that no assertion catches. *)
Theorem matrix_del_leaves_copies_dangling {D : Type} (m : matrix) (h : heap D)
    (p : positive) (cells : list D) (row col : Z) (v : D) :
  valid_matrix h m p cells → 0 ≤ row < height m → 0 ≤ col < width m →
  matrix_del m h
  = Returns ({| height := height m; width := width m; values := None |}, delete p h) ∧
  (∀ m2 q block, valid_matrix h m2 q block → q ≠ p →
     valid_matrix (delete p h) m2 q block) ∧
  (let* m' := matrix_del m in matrix_get m' row col) h = Aborts ∧
  (matrix_del m ;; matrix_get m row col) h = Undefined ∧
  (matrix_del m ;; matrix_set m row col v) h = Undefined ∧
  (matrix_del m ;; matrix_del m) h = Undefined.
Proof.
  intros Hv Hrow Hcol.
  pose proof (valid_values _ _ _ _ Hv) as Hp.
  assert (matrix_del m h
          = Returns ({| height := height m; width := width m; values := None |},
                     delete p h)) as Hdel.
  { unfold matrix_del. rewrite Hp. cbn [is_null negb]. rewrite !assert_true.
    unfold bind, free, ret. by rewrite (valid_block _ _ _ _ Hv). }
  split; [done|]. split; [|split; [|split; [|split]]].
  - intros m2 q block [Hq Hb Hh Hw Hfit Hlen] Hne. split; try done.
    by rewrite lookup_delete_ne.
  - by rewrite (bind_returns _ _ _ _ _ Hdel).
  - rewrite (bind_returns _ _ _ _ _ Hdel). unfold matrix_get. rewrite Hp.
    cbn [is_null negb]. rewrite assert_true.
    destruct (Z.ltb_spec row (height m)); [|lia]. rewrite assert_true.
    destruct (Z.ltb_spec col (width m)); [|lia]. rewrite assert_true.
    unfold load. by rewrite lookup_delete_eq.
  - rewrite (bind_returns _ _ _ _ _ Hdel). unfold matrix_set. rewrite Hp.
    cbn [is_null negb]. rewrite assert_true.
    destruct (Z.ltb_spec row (height m)); [|lia]. rewrite assert_true.
    destruct (Z.ltb_spec col (width m)); [|lia]. rewrite assert_true.
    unfold store. by rewrite lookup_delete_eq.
  - rewrite (bind_returns _ _ _ _ _ Hdel). unfold matrix_del. rewrite Hp.
    cbn [is_null negb]. rewrite !assert_true. apply bind_undefined.
    unfold free. by rewrite lookup_delete_eq.
Qed.

(** A 1 × 2 matrix released, then read through a copy of the struct. *)
Lemma matrix_del_leaves_copies_dangling_witness :
  (matrix_del {| height := 1; width := 2; values := Some 1%positive |} ;;
   matrix_get {| height := 1; width := 2; values := Some 1%positive |} 0 1)
    ({[ 1%positive := [3; 4] ]} : heap Z) = Undefined.
Proof.
  set (m := {| height := 1; width := 2; values := Some 1%positive |}).
  set (h := ({[ 1%positive := [3; 4] ]} : heap Z)).
  assert (valid_matrix h m 1%positive [3; 4]) as Hv
    by (apply valid_matrix_singleton; vm_compute; try split; congruence).
  apply (matrix_del_leaves_copies_dangling m h 1%positive [3; 4] 0 1 0 Hv
           ltac:(split; [discriminate | reflexivity])
           ltac:(split; [discriminate | reflexivity])).
Defined.
